(** * Supply and demand calculator: the equation parser and the equilibrium solver

    A shallow embedding of [parseEquation] and [calculateEquilibrium] of
    [src/App.jsx].  JavaScript numbers are IEEE 754 binary64 values and are
    modelled by Rocq's primitive [float], which is the same format with the
    same rounding; strings are [string]s whose characters stand for code
    units below 256. *)

From Stdlib Require Import ZArith List String Ascii Bool Lia DecimalString.
From Stdlib Require Import Floats.
From Stdlib Require Import Permutation Sorted.
Import ListNotations.

Set Warnings "-inexact-float".

Local Open Scope string_scope.
Local Open Scope float_scope.

(** ** The JavaScript number operations the program calls *)

Module JS.

(** [x === y] on numbers. *)
Definition strictEq (x y : float) : bool := (x =? y)%float.

(** [x !== y] on numbers. *)
Definition strictNe (x y : float) : bool := negb (x =? y)%float.

Definition isNaN (x : float) : bool := negb (x =? x)%float.

(** [x >= y] and [x > y], written with the arguments of [<=?] and [<?] swapped. *)
Definition ge (x y : float) : bool := (y <=? x)%float.
Definition gt (x y : float) : bool := (y <? x)%float.

(** A number that is neither NaN nor an infinity. *)
Definition isFinite (x : float) : bool :=
  match Prim2SF x with
  | S754_zero _ | S754_finite _ _ _ => true
  | S754_infinity _ | S754_nan => false
  end.

(** The nearest binary64 value to [(-1)^s * num / den], for [den > 0]:
    the division of the specification rounds once, whatever the size of the
    two integers. *)
Definition ofRatio (s : bool) (num den : Z) : float :=
  match num with
  | Zpos n =>
      SF2Prim (SFdiv prec emax (S754_finite s n 0)
                                (S754_finite false (Z.to_pos den) 0))
  | _ => if s then neg_zero else zero
  end.

(** The integer [n] as a number, for [|n| < 2^53] exact. *)
Definition ofZ (n : Z) : float :=
  SF2Prim (binary_normalize prec emax n 0 false).

Definition ofNat (n : nat) : float := ofZ (Z.of_nat n).

(** [Math.max] of two arguments: NaN if either is NaN, and [+0] above [-0]. *)
Definition Math_max (a b : float) : float :=
  if isNaN a || isNaN b then nan
  else if (a <? b)%float then b
  else if (b <? a)%float then a
  else if is_zero a && get_sign a then b else a.

Definition Math_abs (x : float) : float := abs x.

(** [Math.round]: the nearest integer, ties towards [+Infinity]; the sign of
    a zero result is the sign of the argument. *)
Definition Math_round (x : float) : float :=
  match Prim2SF x with
  | S754_finite s m e =>
      if (0 <=? e)%Z then x
      else
        let v := cond_Zopp s (Zpos m) in
        let n := ((2 * v + 2 ^ (- e)) / 2 ^ (1 - e))%Z in
        match n with
        | Z0 => if s then neg_zero else zero
        | _ => ofZ n
        end
  | _ => x
  end.

(** [x % y]: the remainder of the truncating division, exact, with the sign
    of the dividend. *)
Definition rem (x y : float) : float :=
  match Prim2SF x, Prim2SF y with
  | S754_nan, _ | _, S754_nan => nan
  | S754_infinity _, _ => nan
  | _, S754_zero _ => nan
  | _, S754_infinity _ => x
  | S754_zero _, _ => x
  | S754_finite sx mx ex, S754_finite _ my ey =>
      let e := Z.min ex ey in
      let r := Z.rem (Zpos mx * 2 ^ (ex - e)) (Zpos my * 2 ^ (ey - e)) in
      match r with
      | Z0 => if sx then neg_zero else zero
      | _ => SF2Prim (binary_normalize prec emax (cond_Zopp sx r) e false)
      end
  end.

(** *** Strings *)

Definition isDigit (c : ascii) : bool :=
  let n := nat_of_ascii c in (48 <=? n)%nat && (n <=? 57)%nat.

Definition digitVal (c : ascii) : Z := Z.of_nat (nat_of_ascii c - 48).

(** [\s] on code units below 256. *)
Definition isSpace (c : ascii) : bool :=
  let n := nat_of_ascii c in
  ((9 <=? n)%nat && (n <=? 13)%nat) || (n =? 32)%nat || (n =? 160)%nat.

Definition lowerChar (c : ascii) : ascii :=
  let n := nat_of_ascii c in
  if ((65 <=? n)%nat && (n <=? 90)%nat)
     || ((192 <=? n)%nat && (n <=? 222)%nat && negb (n =? 215)%nat)
  then ascii_of_nat (n + 32) else c.

Fixpoint toLowerCase (s : string) : string :=
  match s with
  | EmptyString => EmptyString
  | String c s' => String (lowerChar c) (toLowerCase s')
  end.

(** [s.includes(c)] for a one-character needle. *)
Fixpoint includes (c : ascii) (s : string) : bool :=
  match s with
  | EmptyString => false
  | String d s' => Ascii.eqb c d || includes c s'
  end.

(** [s.replace(c, '')] for a one-character string pattern: only the first
    occurrence goes. *)
Fixpoint removeFirst (c : ascii) (s : string) : string :=
  match s with
  | EmptyString => EmptyString
  | String d s' => if Ascii.eqb c d then s' else String d (removeFirst c s')
  end.

(** The longest prefix of [s] made of digits, read as an integer on top of
    [acc], with the number of digits read and the rest of the string. *)
Fixpoint readDigits (acc : Z) (count : nat) (s : string) : Z * nat * string :=
  match s with
  | String c s' =>
      if isDigit c then readDigits (10 * acc + digitVal c) (S count) s'
      else (acc, count, s)
  | EmptyString => (acc, count, s)
  end.

Fixpoint dropSpaces (s : string) : string :=
  match s with
  | String c s' => if isSpace c then dropSpaces s' else s
  | EmptyString => s
  end.

(** The exponent part [e], [e+] or [e-] followed by at least one digit; zero
    when there is none. *)
Definition readExponent (s : string) : Z :=
  match s with
  | String c s' =>
      if Ascii.eqb c "e" || Ascii.eqb c "E" then
        let '(neg, t) :=
          match s' with
          | String "-" t => (true, t)
          | String "+" t => (false, t)
          | _ => (false, s')
          end in
        let '(v, n, _) := readDigits 0 0 t in
        match n with
        | O => 0%Z
        | _ => if neg then (- v)%Z else v
        end
      else 0%Z
  | EmptyString => 0%Z
  end.

(** [parseFloat]: leading white space is skipped, then the longest prefix
    that is a decimal literal is read (sign, digits, fraction, exponent, or
    [Infinity]); NaN when there is none.  The literal is rounded to the
    nearest number. *)
Definition parseFloat (s : string) : float :=
  let s := dropSpaces s in
  let '(neg, s) :=
    match s with
    | String "-" t => (true, t)
    | String "+" t => (false, t)
    | _ => (false, s)
    end in
  if prefix "Infinity" s then (if neg then neg_infinity else infinity)
  else
    let '(ip, ni, s1) := readDigits 0 0 s in
    let '(m, nf, s2) :=
      match s1 with
      | String "." t => readDigits ip 0 t
      | _ => (ip, O, s1)
      end in
    match (ni + nf)%nat with
    | O => nan
    | _ =>
        let e := (readExponent s2 - Z.of_nat nf)%Z in
        if (0 <=? e)%Z then ofRatio neg (m * 10 ^ e) 1
        else ofRatio neg m (10 ^ (- e))
    end.

End JS.

(** ** Regular expressions

    The five patterns of [parseEquation] are sequences of character classes,
    each taken once or under [?], [*] or [+], with an anchor in two of them.
    The matcher is the backtracking one of the language: a quantifier takes
    as much as it can and gives back one character at a time while the rest
    of the pattern fails. *)

Module Regex.

Inductive quant := One | Opt | Star | Plus.

Record atom := Atom { cls : ascii -> bool; rep : quant }.

Definition regex := list atom.

Definition consMatch (c : ascii) (r : option (string * string))
  : option (string * string) :=
  match r with
  | Some (m, t) => Some (String c m, t)
  | None => None
  end.

(** [star p k s]: the class [p] repeated greedily at the head of [s], then the
    continuation [k]. *)
Fixpoint star (p : ascii -> bool) (k : string -> option (string * string))
  (s : string) : option (string * string) :=
  match s with
  | String c s' =>
      if p c then
        match star p k s' with
        | Some (m, t) => Some (String c m, t)
        | None => k s
        end
      else k s
  | EmptyString => k s
  end.

(** [matchHere r s]: the match of [r] at the head of [s], as the matched text
    and what follows it. *)
Fixpoint matchHere (r : regex) : string -> option (string * string) :=
  match r with
  | [] => fun s => Some (EmptyString, s)
  | a :: r' =>
      match rep a with
      | One => fun s =>
          match s with
          | String c s' => if cls a c then consMatch c (matchHere r' s') else None
          | EmptyString => None
          end
      | Opt => fun s =>
          match s with
          | String c s' =>
              if cls a c then
                match matchHere r' s' with
                | Some (m, t) => Some (String c m, t)
                | None => matchHere r' s
                end
              else matchHere r' s
          | EmptyString => matchHere r' s
          end
      | Star => star (cls a) (matchHere r')
      | Plus => fun s =>
          match s with
          | String c s' =>
              if cls a c then consMatch c (star (cls a) (matchHere r') s') else None
          | EmptyString => None
          end
      end
  end.

(** [s.replace(/^r/, f)]: the pattern is tried at the start only. *)
Definition replaceAtStart (r : regex) (f : string -> string) (s : string) : string :=
  match matchHere r s with
  | Some (m, t) => f m ++ t
  | None => s
  end.

(** [s.replace(/r/, f)] without the [g] flag: the leftmost match only. *)
Fixpoint replaceFirst (r : regex) (f : string -> string) (s : string) : string :=
  match matchHere r s with
  | Some (m, t) => f m ++ t
  | None =>
      match s with
      | String c s' => String c (replaceFirst r f s')
      | EmptyString => EmptyString
      end
  end.

(** [s.replace(/r/g, f)]: every match from left to right; [skip] counts the
    characters of the last match still to pass over. *)
Fixpoint replaceAll (r : regex) (f : string -> string) (skip : nat) (s : string)
  : string :=
  match skip with
  | S k =>
      match s with
      | String _ s' => replaceAll r f k s'
      | EmptyString => EmptyString
      end
  | O =>
      match matchHere r s with
      | Some (m, _) =>
          f m ++
          match s with
          | String c s' =>
              match m with
              | EmptyString => String c (replaceAll r f 0 s')
              | _ => replaceAll r f (pred (length m)) s'
              end
          | EmptyString => EmptyString
          end
      | None =>
          match s with
          | String c s' => String c (replaceAll r f 0 s')
          | EmptyString => EmptyString
          end
      end
  end.

(** The matches of [s.match(/r/g)] from left to right. *)
Fixpoint matchAll (r : regex) (skip : nat) (s : string) : list string :=
  match skip with
  | S k =>
      match s with
      | String _ s' => matchAll r k s'
      | EmptyString => []
      end
  | O =>
      match matchHere r s with
      | Some (m, _) =>
          m :: match s with
               | String _ s' => matchAll r (pred (length m)) s'
               | EmptyString => []
               end
      | None =>
          match s with
          | String _ s' => matchAll r 0 s'
          | EmptyString => []
          end
      end
  end.

(** [s.match(/r/g)]: [null] when nothing matches. *)
Definition matchGlobal (r : regex) (s : string) : option (list string) :=
  match matchAll r 0 s with
  | [] => None
  | l => Some l
  end.

Definition isChar (c : ascii) : ascii -> bool := Ascii.eqb c.
Definition isSign (c : ascii) : bool := Ascii.eqb c "+" || Ascii.eqb c "-".

End Regex.

(** ** parseEquation *)

Import JS Regex.

Record parsed := { slope : float; intercept : float; error : option string }.

(** [/\s/g] *)
Definition reSpace : regex := [Atom isSpace One].
(** [/^p/], tried at the start *)
Definition reLeadingP : regex := [Atom (isChar "p") One].
(** [/([+-])p/] *)
Definition reSignP : regex := [Atom isSign One; Atom (isChar "p") One].
(** [/^-p/], tried at the start *)
Definition reLeadingMinusP : regex := [Atom (isChar "-") One; Atom (isChar "p") One].
(** [/([+-]?\d*\.?\d+p?)/g] *)
Definition reTerm : regex :=
  [Atom isSign Opt; Atom isDigit Star; Atom (isChar ".") Opt;
   Atom isDigit Plus; Atom (isChar "p") Opt].

(** The replacement ['$11p'] of a match of [reSignP]: the pattern has one
    group, so [$11] is the group followed by the character [1]; the group is
    the first character of the match. *)
Definition signOneP (m : string) : string :=
  match m with
  | String c _ => String c "1p"
  | EmptyString => "1p"
  end.

Definition invalidFormat : string :=
  "Formato de ecuación inválido. Usa 'aP + b' o 'b - aP'.".

Definition invalidNumber : string :=
  "Por favor, ingresa un formato de ecuación válido (ej. '2P + 10' o '50 - 3P').".

(** The body of the loop over the terms, on the pair of accumulators. *)
Definition addTerm (acc : float * float) (term : string) : float * float :=
  let '(slope, intercept) := acc in
  if includes "p" term then
    let coefStr := removeFirst "p" term in
    if String.eqb coefStr "+" || String.eqb coefStr "" then (slope + 1, intercept)
    else if String.eqb coefStr "-" then (slope - 1, intercept)
    else (slope + parseFloat coefStr, intercept)
  else (slope, intercept + parseFloat term).

(** None of the string operations in the [try] block throws, so its [catch]
    is not reached and is left out. *)
Definition parseEquation (eq : string) : parsed :=
  let eq := toLowerCase (replaceAll reSpace (fun _ => "") 0 eq) in
  let eq := replaceFirst reSignP signOneP (replaceAtStart reLeadingP (fun _ => "1p") eq) in
  let eq := replaceAtStart reLeadingMinusP (fun _ => "-1p") eq in
  match matchGlobal reTerm eq with
  | None => {| slope := 0; intercept := 0; error := Some invalidFormat |}
  | Some terms =>
      let '(slope, intercept) := fold_left addTerm terms (0, 0) in
      {| slope := slope; intercept := intercept;
         error := if isNaN slope || isNaN intercept then Some invalidNumber else None |}
  end.

(** ** Number.prototype.toFixed *)

Module Format.

Definition decimal (n : Z) : string := NilZero.string_of_uint (N.to_uint (Z.to_N n)).

Fixpoint zeros (n : nat) : string :=
  match n with
  | O => EmptyString
  | S k => String "0" (zeros k)
  end.

(** The digits of [n] with the point put before the last [f] of them. *)
Definition fixedDigits (n : Z) (f : nat) : string :=
  match f with
  | O => decimal n
  | _ =>
      let m := decimal n in
      let m := if (length m <=? f)%nat then zeros (f + 1 - length m) ++ m else m in
      let k := (length m - f)%nat in
      substring 0 k m ++ "." ++ substring k f m
  end.

Fixpoint stripZeros (s : string) : string :=
  match s with
  | EmptyString => EmptyString
  | String c s' =>
      match stripZeros s' with
      | EmptyString => if Ascii.eqb c "0" then EmptyString else String c EmptyString
      | t => String c t
      end
  end.

(** The decimal with [k] significant digits nearest to the integer [X] among
    those that read back as [x], if there is one. *)
Definition candidate (x : float) (X : Z) (k : nat) : option Z :=
  let n := Z.of_nat (length (decimal X)) in
  let unit := (10 ^ (n - Z.of_nat k))%Z in
  let lo := (X / unit * unit)%Z in
  let hi := (lo + unit)%Z in
  match (ofRatio false lo 1 =? x)%float, (ofRatio false hi 1 =? x)%float with
  | true, true =>
      Some (if (X - lo <? hi - X)%Z then lo
            else if (hi - X <? X - lo)%Z then hi
            else if Z.even (lo / unit) then lo else hi)
  | true, false => Some lo
  | false, true => Some hi
  | false, false => None
  end.

Fixpoint firstCandidate (x : float) (X : Z) (ks : list nat) : Z :=
  match ks with
  | [] => X
  | k :: ks' =>
      match candidate x X k with
      | Some v => v
      | None => firstCandidate x X ks'
      end
  end.

(** [String(x)] for a finite [x >= 1e21] of integer value [X]: the shortest
    digits that read back as [x], in exponent form. *)
Definition toStringLarge (x : float) (X : Z) : string :=
  let v := firstCandidate x X (seq 1 17) in
  let d := decimal v in
  let expo := decimal (Z.of_nat (length d - 1)) in
  match stripZeros d with
  | String c EmptyString => String c ("e+" ++ expo)
  | String c t => String c ("." ++ t ++ "e+" ++ expo)
  | EmptyString => "0"
  end.

(** [x.toFixed(f)]: the integer [n] nearest to [|x| * 10^f], the larger one on
    a tie, printed with [f] digits after the point. *)
Definition toFixed (x : float) (f : nat) : string :=
  match Prim2SF x with
  | S754_nan => "NaN"
  | S754_infinity s => if s then "-Infinity" else "Infinity"
  | S754_zero _ => fixedDigits 0 f
  | S754_finite s m e =>
      let sign := if s then "-" else "" in
      if (0 <=? e)%Z then
        let X := (Zpos m * 2 ^ e)%Z in
        if (10 ^ 21 <=? X)%Z then sign ++ toStringLarge (abs x) X
        else sign ++ fixedDigits (X * 10 ^ Z.of_nat f) f
      else
        sign ++ fixedDigits ((2 * Zpos m * 10 ^ Z.of_nat f + 2 ^ (- e)) / 2 ^ (1 - e)) f
  end.

End Format.

(** ** calculateEquilibrium *)

Import Format.

(** [{ price, quantity }] of [newInitialEquilibrium] and
    [newShiftedEquilibrium]: both fields are [toFixed(2)] strings. *)
Record equilibrium := { price : string; quantity : string }.

(** One element of [graphDataPoints]; an absent price is [null]. *)
Record graphPoint := {
  g_quantity : float;
  g_price_demanda_original : option float;
  g_price_oferta_original : option float;
  g_price_demanda_shifted : option float;
  g_price_oferta_shifted : option float }.

(** One element of [tableDataPoints]: every field is a display string. *)
Record tableRow := {
  t_quantity : string;
  t_price_demanda_original : string;
  t_price_oferta_original : string;
  t_price_demanda_shifted : string;
  t_price_oferta_shifted : string }.

(** One element of [localEquilibriumDots]. *)
Record dot := { d_quantity : float; d_price : float; d_label : string }.

(** What one run of [calculateEquilibrium] computes: its locals that the
    state setters receive, and the locals they are derived from.  The state
    [error] is set under two conditions, so for it the record holds the
    arguments of the calls of [setError], in the order of the calls. *)
Record result := {
  localError : string;
  localPEInitial : option float;
  localQEInitial : option float;
  localPEShifted : option float;
  localQEShifted : option float;
  newInitialEquilibrium : option equilibrium;
  newShiftedEquilibrium : option equilibrium;
  maxQuantityValue : float;
  graphDataPoints : list graphPoint;
  sortedTableQuantities : list float;
  tableDataPoints : list tableRow;
  localEquilibriumDots : list dot;
  setErrorCalls : list string }.

Definition EPSILON : float := 0.01.
Definition numPointsGraph : nat := 50.
Definition minQuantityValue : float := 0.

Definition parallelSlopes : string :=
  "Las pendientes de oferta y demanda son las mismas, no hay un único punto de equilibrio o son paralelas.".

Definition noValidEquilibrium : string :=
  "No se pudo encontrar un equilibrio válido para las ecuaciones dadas, incluso con los desplazamientos.".

Definition demandErrorPrefix : string := "Error en la ecuación de Demanda: ".
Definition supplyErrorPrefix : string := "Error en la ecuación de Oferta: ".

(** The truth value of [parsed.error], which is [null] or a string. *)
Definition truthy (e : option string) : bool :=
  match e with
  | Some s => negb (String.eqb s "")
  | None => false
  end.

(** [`${e}`] for an error that passed the test above. *)
Definition errorText (e : option string) : string :=
  match e with
  | Some s => s
  | None => "null"
  end.

(** [parseFloat(shift || 0)] for the number held in the shift state: NaN and
    the zeros are falsy and give [0]; any other number is printed and read
    back, which returns it. *)
Definition currentShift (shift : float) : float :=
  if isNaN shift || (shift =? 0)%float then 0 else shift.

(** The test that guards both assignments of an equilibrium. *)
Definition accepted (p_calc q_calc : float) : bool :=
  negb (isNaN p_calc) && negb (isNaN q_calc) && ge q_calc 0 && ge p_calc 0.

(** The block under [if (aS - aD !== 0)], for the original intercepts and
    again for the shifted ones: the price and quantity that were assigned,
    or [null] for both. *)
Definition solve (aD bD aS bS : float) : option (float * float) :=
  if strictNe (aS - aD) 0 then
    let p_calc := (bD - bS) / (aS - aD) in
    let q_calc := aD * p_calc + bD in
    if accepted p_calc q_calc then Some (p_calc, q_calc) else None
  else None.

(** The conditional expression written eight times in the source: the price
    at which a curve of the given slope and intercept reaches quantity [q]. *)
Definition priceAt (slope intercept q : float) : option float :=
  if strictNe slope 0 && ge ((q - intercept) / slope) 0
  then Some ((q - intercept) / slope) else None.

(** [Set.prototype.add] followed by the set itself: membership is by
    SameValueZero, elements keep their insertion order, and [-0] is stored
    as [+0]. *)
Definition sameValueZero (x y : float) : bool :=
  (x =? y)%float || (isNaN x && isNaN y).

Definition setAdd (x : float) (s : list float) : list float :=
  if existsb (sameValueZero x) s then s
  else (s ++ [if is_zero x then zero else x])%list.

(** [Array.prototype.sort(cmp)] as a stable insertion sort: an element goes
    before the first one that the comparator puts after it. *)
Fixpoint insertSorted (cmp : float -> float -> float) (x : float) (l : list float)
  : list float :=
  match l with
  | [] => [x]
  | y :: l' => if gt (cmp y x) 0 then x :: l else y :: insertSorted cmp x l'
  end.

Definition sortBy (cmp : float -> float -> float) (l : list float) : list float :=
  fold_left (fun acc x => insertSorted cmp x acc) l [].

(** The truth value of a local that is [null] or an object. *)
Definition notNull {A : Type} (o : option A) : bool :=
  match o with
  | Some _ => true
  | None => false
  end.

(** [v !== null ? v.toFixed(2) : 'N/A'] *)
Definition showPrice (p : option float) : string :=
  match p with
  | Some v => toFixed v 2
  | None => "N/A"
  end.

Definition showEquilibrium (pq : option (float * float)) : option equilibrium :=
  match pq with
  | Some (p, q) => Some {| price := toFixed p 2; quantity := toFixed q 2 |}
  | None => None
  end.

(** [max = Math.max(max, v)] under a condition. *)
Definition raiseIf (c : bool) (v maxQ : float) : float :=
  if c then Math_max maxQ v else maxQ.

(** The statements that compute [maxQuantityValue]. *)
Definition quantityRange (parsedDemand parsedSupply : parsed)
  (currentDemandShift currentSupplyShift : float)
  (localQEInitial localQEShifted : option float) : float :=
  let maxQuantityValue := 0 in
  let maxQuantityValue :=
    match localQEInitial with
    | Some q => Math_max maxQuantityValue (q * 1.5)
    | None => maxQuantityValue
    end in
  let maxQuantityValue :=
    match localQEShifted with
    | Some q => Math_max maxQuantityValue (q * 1.5)
    | None => maxQuantityValue
    end in
  let maxQuantityValue :=
    raiseIf ((slope parsedDemand <? 0) && gt (intercept parsedDemand) 0)
            (intercept parsedDemand * 1.1) maxQuantityValue in
  let maxQuantityValue :=
    raiseIf (gt (slope parsedSupply) 0 && gt (intercept parsedSupply) 0)
            (intercept parsedSupply * 1.1) maxQuantityValue in
  let maxQuantityValue :=
    raiseIf ((slope parsedDemand <? 0)
             && gt (intercept parsedDemand + currentDemandShift) 0)
            ((intercept parsedDemand + currentDemandShift) * 1.1) maxQuantityValue in
  let maxQuantityValue :=
    raiseIf (gt (slope parsedSupply) 0
             && gt (intercept parsedSupply + currentSupplyShift) 0)
            ((intercept parsedSupply + currentSupplyShift) * 1.1) maxQuantityValue in
  Math_max maxQuantityValue 20.

Section Series.

Variables parsedDemand parsedSupply : parsed.
Variables bD_shifted bS_shifted : float.

Definition samplePoint (q : float) : graphPoint :=
  {| g_quantity := q;
     g_price_demanda_original := priceAt (slope parsedDemand) (intercept parsedDemand) q;
     g_price_oferta_original := priceAt (slope parsedSupply) (intercept parsedSupply) q;
     g_price_demanda_shifted := priceAt (slope parsedDemand) bD_shifted q;
     g_price_oferta_shifted := priceAt (slope parsedSupply) bS_shifted q |}.

(** The body of the [for] loop at index [i], on the array of points and the
    set of table quantities. *)
Definition sampleStep (stepGraph : float) (st : list graphPoint * list float) (i : nat)
  : list graphPoint * list float :=
  let '(graphDataPoints, rawTableQuantities) := st in
  let q := minQuantityValue + ofNat i * stepGraph in
  ((graphDataPoints ++ [samplePoint q])%list,
   if (rem q 5 =? 0)%float || (Math_abs (q - Math_round q) <? EPSILON * 10)%float
   then setAdd (Math_round q) rawTableQuantities
   else rawTableQuantities).

(** [for (let i = 0; i <= numPointsGraph; i++)] *)
Definition sampleLoop (stepGraph : float) : list graphPoint * list float :=
  fold_left (sampleStep stepGraph) (seq 0 (S numPointsGraph)) ([], []).

Variables localQEInitial localQEShifted : option float.

(** [value !== null && Math.abs(q - value) < EPSILON] *)
Definition nearQuantity (value : option float) (q : float) : bool :=
  match value with
  | Some v => (Math_abs (q - v) <? EPSILON)%float
  | None => false
  end.

(** The function mapped over [sortedTableQuantities]. *)
Definition tableRowOf (q : float) : tableRow :=
  let isInitialEq := nearQuantity localQEInitial q in
  let isShiftedEq := nearQuantity localQEShifted q in
  let displayQuantity := if isInitialEq || isShiftedEq then toFixed q 2 else toFixed q 0 in
  {| t_quantity := displayQuantity;
     t_price_demanda_original :=
       showPrice (priceAt (slope parsedDemand) (intercept parsedDemand) q);
     t_price_oferta_original :=
       showPrice (priceAt (slope parsedSupply) (intercept parsedSupply) q);
     t_price_demanda_shifted := showPrice (priceAt (slope parsedDemand) bD_shifted q);
     t_price_oferta_shifted := showPrice (priceAt (slope parsedSupply) bS_shifted q) |}.

End Series.

(** [if (q !== null) rawTableQuantities.add(q)] *)
Definition addQuantity (q : option float) (s : list float) : list float :=
  match q with
  | Some v => setAdd v s
  | None => s
  end.

(** The statement [if (parsedDemand.error) ... else if (parsedSupply.error)
    ... else ...]: the text it leaves in [localError], and the original and
    the shifted equilibrium as the pairs of locals it assigns. *)
Definition equilibria (parsedDemand parsedSupply : parsed) (bD_shifted bS_shifted : float)
  : string * option (float * float) * option (float * float) :=
  if truthy (error parsedDemand) then
    (demandErrorPrefix ++ errorText (error parsedDemand), None, None)
  else if truthy (error parsedSupply) then
    (supplyErrorPrefix ++ errorText (error parsedSupply), None, None)
  else
    let aD := slope parsedDemand in
    let bD := intercept parsedDemand in
    let aS := slope parsedSupply in
    let bS := intercept parsedSupply in
    (if strictNe (aS - aD) 0 then "" else parallelSlopes,
     solve aD bD aS bS,
     solve aD bD_shifted aS bS_shifted).

(** The callback, as a function of the state it reads: the message in the
    state [error] as the closure holds it (named [errorState] here, apart
    from the field [error] of a parsed equation), the two equation strings
    and the two numbers of the shift inputs.  [resetError] is the statement
    [if (error !== '') setError('')] and [storeError] the statement
    [if (localError !== error) setError(localError)].  The resets of
    [explanation] and [showTable] are left out.  The two equilibrium setters
    are called when the new value differs from the one in the state, which
    leaves the state equal to the new value either way; the record holds
    that value, what the remaining setters are given, and the locals
    behind them.  The two locals of each equilibrium are assigned together,
    so they are carried as one optional pair until the record is built. *)
Definition calculateEquilibrium (errorState : string) (demandEq supplyEq : string)
  (demandShift supplyShift : float) : result :=
  let resetError := if negb (String.eqb errorState "") then [""] else [] in
  let currentDemandShift := currentShift demandShift in
  let currentSupplyShift := currentShift supplyShift in
  let parsedDemand := parseEquation demandEq in
  let parsedSupply := parseEquation supplyEq in
  let bD_shifted := intercept parsedDemand + currentDemandShift in
  let bS_shifted := intercept parsedSupply + currentSupplyShift in
  let '(localError, initial, shifted) :=
    equilibria parsedDemand parsedSupply bD_shifted bS_shifted in
  let localPEInitial := option_map fst initial in
  let localQEInitial := option_map snd initial in
  let localPEShifted := option_map fst shifted in
  let localQEShifted := option_map snd shifted in
  let newInitialEquilibrium := showEquilibrium initial in
  let newShiftedEquilibrium := showEquilibrium shifted in
  let localError :=
    if String.eqb localError ""
       && negb (notNull newInitialEquilibrium)
       && negb (notNull newShiftedEquilibrium)
       && (strictNe currentDemandShift 0 || strictNe currentSupplyShift 0)
    then noValidEquilibrium else localError in
  let storeError :=
    if negb (String.eqb localError errorState) then [localError] else [] in
  let maxQuantityValue :=
    quantityRange parsedDemand parsedSupply currentDemandShift currentSupplyShift
                  localQEInitial localQEShifted in
  let stepGraph := (maxQuantityValue - minQuantityValue) / ofNat numPointsGraph in
  let '(graphDataPoints, rawTableQuantities) :=
    sampleLoop parsedDemand parsedSupply bD_shifted bS_shifted stepGraph in
  let rawTableQuantities := addQuantity localQEInitial rawTableQuantities in
  let rawTableQuantities := addQuantity localQEShifted rawTableQuantities in
  let sortedTableQuantities := sortBy (fun a b => a - b) rawTableQuantities in
  let tableDataPoints :=
    map (tableRowOf parsedDemand parsedSupply bD_shifted bS_shifted
                    localQEInitial localQEShifted)
        sortedTableQuantities in
  let localEquilibriumDots :=
    (match initial with
     | Some (p, q) => [{| d_quantity := q; d_price := p; d_label := "E0" |}]
     | None => []
     end ++
     match shifted with
     | Some (p, q) =>
         if strictNe currentDemandShift 0 || strictNe currentSupplyShift 0
         then [{| d_quantity := q; d_price := p; d_label := "E1" |}] else []
     | None => []
     end)%list in
  {| localError := localError;
     localPEInitial := localPEInitial;
     localQEInitial := localQEInitial;
     localPEShifted := localPEShifted;
     localQEShifted := localQEShifted;
     newInitialEquilibrium := newInitialEquilibrium;
     newShiftedEquilibrium := newShiftedEquilibrium;
     maxQuantityValue := maxQuantityValue;
     graphDataPoints := graphDataPoints;
     sortedTableQuantities := sortedTableQuantities;
     tableDataPoints := tableDataPoints;
     localEquilibriumDots := localEquilibriumDots;
     setErrorCalls := (resetError ++ storeError)%list |}.

(** The state [error] once the run is over: what the last call of
    [setError] gave it, or what it was when there was no call.  The effect
    runs the callback once for each closure, right after the render that
    made it, so the state the closure holds is the state the run starts
    from. *)
Definition errorAfter (errorState : string) (r : result) : string :=
  last (setErrorCalls r) errorState.

(** The values that compete for [maxQuantityValue], besides the floor of 20,
    in the order in which [quantityRange] meets them: one and a half times
    each equilibrium quantity that exists, and 1.1 times each positive
    quantity intercept (of the demand curve when its slope is negative, of
    the supply curve when its slope is positive; original and shifted). *)
Definition rangeCandidates (parsedDemand parsedSupply : parsed)
  (currentDemandShift currentSupplyShift : float)
  (localQEInitial localQEShifted : option float) : list float :=
  ((match localQEInitial with Some q => [q * 1.5] | None => [] end)
   ++ (match localQEShifted with Some q => [q * 1.5] | None => [] end)
   ++ (if (slope parsedDemand <? 0) && gt (intercept parsedDemand) 0
       then [intercept parsedDemand * 1.1] else [])
   ++ (if gt (slope parsedSupply) 0 && gt (intercept parsedSupply) 0
       then [intercept parsedSupply * 1.1] else [])
   ++ (if (slope parsedDemand <? 0)
          && gt (intercept parsedDemand + currentDemandShift) 0
       then [(intercept parsedDemand + currentDemandShift) * 1.1] else [])
   ++ (if gt (slope parsedSupply) 0
          && gt (intercept parsedSupply + currentSupplyShift) 0
       then [(intercept parsedSupply + currentSupplyShift) * 1.1] else []))%list.


(** What holds of a pair of locals that [solve] or an error branch assigned. *)
Definition validPair (p q : option float) : Prop :=
  match p, q with
  | Some p, Some q =>
      isNaN p = false /\ isNaN q = false /\ ge p 0 = true /\ ge q 0 = true
  | None, None => True
  | _, _ => False
  end.

(** A number other than NaN. *)
Definition notNaN (x : float) : Prop := isNaN x = false.

(** A specification value other than the two zeros. *)
Definition nonzero (x : spec_float) : Prop :=
  match x with
  | S754_zero _ => False
  | _ => True
  end.

(** ** Well-formed terms, for the properties of the parser

    The text of one term as the pattern of [parseEquation] reads it: a sign
    or none, the digits before the point, the digits after it if there is a
    point, and the price variable or not. *)

Inductive signText := NoSign | PlusSign | MinusSign.

Record termText := {
  tt_sign : signText;
  tt_int : string;
  tt_frac : option string;
  tt_var : bool }.

Definition renderSign (s : signText) : string :=
  match s with
  | NoSign => ""
  | PlusSign => "+"
  | MinusSign => "-"
  end.

(** The sign and the number of a term, without the variable: the text that
    [parseFloat] is given. *)
Definition renderNumber (t : termText) : string :=
  renderSign (tt_sign t) ++ tt_int t ++
  match tt_frac t with
  | Some f => "." ++ f
  | None => ""
  end.

Definition renderTerm (t : termText) : string :=
  renderNumber t ++ (if tt_var t then "p" else "").

Fixpoint renderTerms (ts : list termText) : string :=
  match ts with
  | [] => ""
  | t :: ts' => renderTerm t ++ renderTerms ts'
  end.

Fixpoint allDigits (s : string) : bool :=
  match s with
  | EmptyString => true
  | String c s' => isDigit c && allDigits s'
  end.

(** Digits on both sides of a point, or digits and no point, or a point
    followed by digits. *)
Definition wellFormedTerm (t : termText) : bool :=
  allDigits (tt_int t) &&
  match tt_frac t with
  | Some f => allDigits f && negb (String.eqb f "")
  | None => negb (String.eqb (tt_int t) "")
  end.

Definition signed (t : termText) : bool :=
  match tt_sign t with
  | NoSign => false
  | _ => true
  end.

(** A non-empty sequence of well-formed terms in which every term after the
    first carries its sign. *)
Definition wellFormedTerms (ts : list termText) : bool :=
  match ts with
  | [] => false
  | t :: ts' => wellFormedTerm t && forallb (fun u => wellFormedTerm u && signed u) ts'
  end.

(** What the loop of [parseEquation] adds for one term. *)
Definition accumulate (acc : float * float) (t : termText) : float * float :=
  let '(slope, intercept) := acc in
  if tt_var t then (slope + parseFloat (renderNumber t), intercept)
  else (slope, intercept + parseFloat (renderNumber t)).

(** [s.replace(/\s/g, '')] as a filter. *)
Fixpoint stripSpaces (s : string) : string :=
  match s with
  | EmptyString => EmptyString
  | String c s' => if isSpace c then stripSpaces s' else String c (stripSpaces s')
  end.

(** The characters a term is made of. *)
Definition termChar (c : ascii) : bool :=
  isDigit c || isSign c || Ascii.eqb c "." || Ascii.eqb c "p".

Fixpoint allChars (p : ascii -> bool) (s : string) : bool :=
  match s with
  | EmptyString => true
  | String c s' => p c && allChars p s'
  end.

(** No sign of [s] is followed by the price variable. *)
Fixpoint noSignP (s : string) : bool :=
  match s with
  | String c ((String d _) as s') =>
      negb (isSign c && Ascii.eqb d "p") && noSignP s'
  | _ => true
  end.


(** The part of [parseFloat] after the sign: digits, fraction and exponent
    of the text [s], negated if [neg]. *)
Definition readNumber (neg : bool) (s : string) : float :=
  let '(ip, ni, s1) := readDigits 0 0 s in
  let '(m, nf, s2) :=
    match s1 with
    | String "." t => readDigits ip 0 t
    | _ => (ip, O, s1)
    end in
  match (ni + nf)%nat with
  | O => nan
  | _ =>
      let e := (readExponent s2 - Z.of_nat nf)%Z in
      if (0 <=? e)%Z then ofRatio neg (m * 10 ^ e) 1
      else ofRatio neg m (10 ^ (- e))
  end.

(** A character that is neither a digit nor, in either case, the price
    variable. *)
Definition plainChar (c : ascii) : bool :=
  negb (isDigit c) && negb (Ascii.eqb (lowerChar c) "p").


(** A number other than [-0]. *)
Definition notNegZero (x : float) : Prop := Prim2SF x <> S754_zero true.


(** A specification value of sign [s] that is finite and not zero, or
    infinite. *)
Definition signedValue (s : bool) (x : spec_float) : Prop :=
  match x with
  | S754_finite s' _ _ | S754_infinity s' => s' = s
  | _ => False
  end.

(** What the set of table quantities holds: numbers, with [+0] for zero. *)
Definition storable (x : float) : Prop := isNaN x = false /\ notNegZero x.

(** [a <= b] and [a < b] as relations, for sortedness. *)
Definition numLe (a b : float) : Prop := ge b a = true.
Definition numLt (a b : float) : Prop := (a <? b)%float = true.

(** [x > 0] on the specification. *)
Definition positive_value (x : spec_float) : bool := SFltb (S754_zero false) x.

(** A specification value that is not below zero: NaN and both zeros
    count. *)
Definition sf_not_neg (x : spec_float) : bool :=
  match x with
  | S754_infinity true | S754_finite true _ _ => false
  | _ => true
  end.

(** [!(x < 0)] *)
Definition notNegative (x : float) : Prop := (x <? 0)%float = false.


(** The first character of [s], if any, is outside the class [p]. *)
Definition headNot (p : ascii -> bool) (s : string) : Prop :=
  match s with
  | String c _ => p c = false
  | EmptyString => True
  end.

(** The text after a term: nothing, or the sign of the next term. *)
Definition termEnd (s : string) : Prop :=
  match s with
  | String c _ => isSign c = true
  | EmptyString => True
  end.

(** The suffixes of the term pattern, from its last atom back. *)
Definition reVar : regex := [Atom (isChar "p") Opt].
Definition reDigits : regex := Atom isDigit Plus :: reVar.
Definition reFraction : regex := Atom (isChar ".") Opt :: reDigits.
Definition reNumber : regex := Atom isDigit Star :: reFraction.

(** The text of the variable of a term. *)
Definition varText (v : bool) : string := if v then "p" else "".

(** The number of a well-formed term, without its sign. *)
Definition renderBody (t : termText) : string :=
  tt_int t ++ match tt_frac t with Some f => "." ++ f | None => "" end.

(** Classes of characters: no sign, not the variable, no digit. *)
Definition notSign (c : ascii) : bool := negb (isSign c).
Definition notVar (c : ascii) : bool := negb (Ascii.eqb c "p").
Definition notDigit (c : ascii) : bool := negb (isDigit c).

(** ** The form of a number printed with a fixed number of decimals *)

(** The text without its minus sign, if it has one. *)
Definition unsigned (s : string) : string :=
  match s with
  | String c t => if Ascii.eqb c "-" then t else s
  | EmptyString => s
  end.

(** One or more digits, followed by text that [tail] accepts. *)
Fixpoint digitsThen (tail : string -> bool) (s : string) : bool :=
  match s with
  | String c s' => isDigit c && (tail s' || digitsThen tail s')
  | EmptyString => false
  end.

(** Nothing when [f] is 0; otherwise a point and exactly [f] digits. *)
Definition fraction (f : nat) (s : string) : bool :=
  match f, s with
  | O, _ => String.eqb s ""
  | S _, String c t => Ascii.eqb c "." && allDigits t && (String.length t =? f)%nat
  | S _, EmptyString => false
  end.

(** A number written with [f] decimals: an optional minus sign, one or more
    digits and, when [f] is not 0, a point and exactly [f] digits. *)
Definition fixedForm (f : nat) (s : string) : bool :=
  digitsThen (fraction f) (unsigned s).

(** [1e21], from which [toFixed] prints in exponent notation. *)
Definition fixedLimit : float := 1e21.

(** * Properties *)

(** ** The binary64 specification: alignment, shifts and rounding *)

Module SpecFacts.

Local Open Scope Z_scope.

Ltac unfold_fexp := unfold fexp, SpecFloat.emin, prec, emax in *.

(** A mantissa of [d] binary digits is at least [2^(d-1)]. *)
Lemma digits2_pos_lower (m : positive) : 2 ^ (Zpos (digits2_pos m) - 1) <= Zpos m.
Proof.
  induction m as [m IH|m IH|]; simpl digits2_pos.
  - rewrite Pos2Z.inj_succ.
    replace (Z.succ (Zpos (digits2_pos m)) - 1) with (Z.succ (Zpos (digits2_pos m) - 1)) by lia.
    rewrite Z.pow_succ_r by lia. lia.
  - rewrite Pos2Z.inj_succ.
    replace (Z.succ (Zpos (digits2_pos m)) - 1) with (Z.succ (Zpos (digits2_pos m) - 1)) by lia.
    rewrite Z.pow_succ_r by lia. lia.
  - simpl. lia.
Qed.

(** Shifting a mantissa left by [d] bits multiplies it by [2^d] and adds [d]
    digits. *)
Lemma iter_xO_spec (m d : positive) :
  Zpos (Pos.iter xO m d) = Zpos m * 2 ^ Zpos d
  /\ Zpos (digits2_pos (Pos.iter xO m d)) = Zpos (digits2_pos m) + Zpos d.
Proof.
  induction d as [|d IH] using Pos.peano_ind.
  - simpl. split; [lia|]. rewrite Pos2Z.inj_succ. lia.
  - rewrite Pos.iter_succ. destruct IH as [IH1 IH2]. simpl digits2_pos.
    rewrite Pos2Z.inj_xO, IH1, !Pos2Z.inj_succ, IH2, Z.pow_succ_r by lia. split; lia.
Qed.

(** Alignment to a smaller exponent keeps the value. *)
Lemma shl_align_spec (m : positive) (e e' : Z) :
  e' <= e ->
  Zpos (fst (shl_align m e e')) = Zpos m * 2 ^ (e - e')
  /\ Zpos (digits2_pos (fst (shl_align m e e'))) = Zpos (digits2_pos m) + (e - e')
  /\ snd (shl_align m e e') = e'.
Proof.
  intros H. unfold shl_align. destruct (e' - e) as [|d|d] eqn:E; cbn [fst snd].
  - replace (e - e') with 0 by lia. rewrite Z.pow_0_r. lia.
  - lia.
  - destruct (iter_xO_spec m d) as [H1 H2]. rewrite H1, H2.
    replace (e - e') with (Zpos d) by lia. lia.
Qed.

Lemma shl_align_exponent (m : positive) (e e' : Z) :
  snd (shl_align m e e') = Z.min e e'.
Proof.
  unfold shl_align. destruct (e' - e) as [|d|d] eqn:E; cbn [fst snd]; lia.
Qed.

(** One step of the right shift halves the mantissa. *)
Lemma shr_1_div2 (r : shr_record) :
  0 <= shr_m r -> shr_m (shr_1 r) = shr_m r / 2.
Proof.
  destruct r as [m r s]. simpl. intros H.
  destruct m as [|[p|p|]|p]; simpl; try reflexivity; try lia.
  - rewrite Pos2Z.inj_xI. apply Z.div_unique with 1; lia.
  - rewrite Pos2Z.inj_xO. apply Z.div_unique with 0; lia.
Qed.

(** [p] steps of the right shift divide the mantissa by [2^p]. *)
Lemma iter_shr_1_div (p : positive) : forall r : shr_record,
  0 <= shr_m r -> shr_m (iter_pos shr_1 p r) = shr_m r / 2 ^ Zpos p.
Proof.
  induction p as [p IH|p IH|]; intros r Hr; simpl iter_pos.
  - assert (H1 : 0 <= shr_m (shr_1 r)) by (rewrite shr_1_div2 by assumption; apply Z.div_pos; lia).
    assert (H2 : 0 <= shr_m (iter_pos shr_1 p (shr_1 r)))
      by (rewrite IH by assumption; apply Z.div_pos; [|apply Z.pow_pos_nonneg]; lia).
    rewrite IH, IH, shr_1_div2 by assumption.
    rewrite !Z.div_div by (try apply Z.pow_pos_nonneg; lia).
    f_equal. replace (Zpos p~1) with (1 + Zpos p + Zpos p) by lia.
    rewrite !Z.pow_add_r by lia. change (2 ^ 1) with 2. ring.
  - assert (H2 : 0 <= shr_m (iter_pos shr_1 p r))
      by (rewrite IH by assumption; apply Z.div_pos; [|apply Z.pow_pos_nonneg]; lia).
    rewrite IH, IH by assumption.
    rewrite !Z.div_div by (try apply Z.pow_pos_nonneg; lia).
    f_equal. replace (Zpos p~0) with (Zpos p + Zpos p) by lia.
    rewrite Z.pow_add_r by lia. ring.
  - rewrite shr_1_div2 by assumption. reflexivity.
Qed.

(** Above the least exponent, the shift that brings a mantissa to 53 bits
    leaves it positive. *)
Lemma shr_fexp_pos (m : positive) (e : Z) (l : location) :
  emin <= e ->
  0 < shr_m (fst (shr_fexp prec emax (Zpos m) e l))
  /\ emin <= snd (shr_fexp prec emax (Zpos m) e l).
Proof.
  intros He. unfold shr_fexp, shr. simpl Zdigits2.
  assert (H0 : shr_m (shr_record_of_loc (Zpos m) l) = Zpos m) by (destruct l as [|[]]; reflexivity).
  destruct (fexp prec emax (Zpos (digits2_pos m) + e) - e) as [|n|n] eqn:E; simpl fst; simpl snd;
    try (rewrite H0; lia).
  split; [|lia].
  rewrite iter_shr_1_div by (rewrite H0; lia). rewrite H0.
  assert (Hn : Zpos n = Zpos (digits2_pos m) - prec).
  { unfold_fexp. lia. }
  pose proof (digits2_pos_lower m) as Hlow.
  apply Z.div_str_pos. split; [apply Z.pow_pos_nonneg; lia|].
  apply Z.le_trans with (2 ^ (Zpos (digits2_pos m) - 1)); [|exact Hlow].
  apply Z.pow_le_mono_r; [lia|]. rewrite Hn. unfold prec. lia.
Qed.

(** So rounding a non-zero integer multiple of [2^e], [e >= emin], never gives
    a zero. *)
Lemma binary_round_aux_nonzero (s : bool) (m : positive) (e : Z) (l : location) :
  emin <= e -> nonzero (binary_round_aux prec emax s (Zpos m) e l).
Proof.
  intros He. unfold binary_round_aux.
  destruct (shr_fexp_pos m e l He) as [H1 H1'].
  destruct (shr_fexp prec emax (Zpos m) e l) as [mrs' e'] eqn:E1. simpl in H1, H1'.
  assert (Hr : 0 < round_nearest_even (shr_m mrs') (loc_of_shr_record mrs')).
  { destruct (loc_of_shr_record mrs') as [|[]]; simpl; try lia.
    destruct (Z.even (shr_m mrs')); lia. }
  destruct (round_nearest_even (shr_m mrs') (loc_of_shr_record mrs')) as [|m1|m1] eqn:E; try lia.
  destruct (shr_fexp_pos m1 e' loc_Exact H1') as [H2 _].
  destruct (shr_fexp prec emax (Zpos m1) e' loc_Exact) as [mrs'' e''] eqn:E2. simpl in H2.
  destruct (shr_m mrs''); try lia.
  destruct (e'' <=? emax - prec); exact I.
Qed.

Lemma binary_round_nonzero (s : bool) (m : positive) (e : Z) :
  emin <= e -> nonzero (binary_round prec emax s m e).
Proof.
  intros He. unfold binary_round.
  pose proof (shl_align_exponent m e (fexp prec emax (Zpos (digits2_pos m) + e))) as Hs.
  destruct (shl_align m e (fexp prec emax (Zpos (digits2_pos m) + e))) as [mz ez]. simpl in Hs.
  apply binary_round_aux_nonzero. subst ez. unfold_fexp. lia.
Qed.

(** A finite binary64 value has the exponent its number of digits fixes. *)
Lemma valid_finite (s : bool) (m : positive) (e : Z) :
  valid_binary (S754_finite s m e) = true ->
  fexp prec emax (Zpos (digits2_pos m) + e) = e /\ emin <= e.
Proof.
  simpl. unfold bounded, canonical_mantissa. intros H.
  apply andb_prop in H. destruct H as [H _]. apply Z.eqb_eq in H.
  split; [exact H|]. rewrite <- H. unfold_fexp. lia.
Qed.

(** The difference of two binary64 values that are not equal is not a zero:
    it is exact or rounded from a non-zero integer multiple of [2^emin]. *)
Lemma SFsub_nonzero (x y : spec_float) :
  valid_binary x = true -> valid_binary y = true ->
  x <> S754_nan -> y <> S754_nan -> SFeqb x y = false ->
  nonzero (SFsub prec emax x y) \/ SFsub prec emax x y = S754_nan.
Proof.
  intros Vx Vy Hx Hy Hne.
  destruct x as [sx|sx| |sx mx ex], y as [sy|sy| |sy my ey]; try congruence;
    try (left; exact I); try (simpl; destruct sx, sy; simpl; auto; fail);
    try (unfold SFeqb in Hne; simpl in Hne; discriminate).
  left. unfold SFsub.
  destruct (valid_finite _ _ _ Vx) as [Cx Ex], (valid_finite _ _ _ Vy) as [Cy Ey].
  set (ez := Z.min ex ey).
  destruct (shl_align_spec mx ex ez ltac:(lia)) as (Ax & Dx & _).
  destruct (shl_align_spec my ey ez ltac:(lia)) as (Ay & Dy & _).
  set (A := fst (shl_align mx ex ez)) in *. set (B := fst (shl_align my ey ez)) in *.
  destruct (cond_Zopp sx (Zpos A) - cond_Zopp sy (Zpos B)) as [|n|n] eqn:E.
  - exfalso.
    assert (Hs : sx = sy /\ Zpos A = Zpos B)
      by (unfold cond_Zopp in E; destruct sx, sy; split; first [reflexivity | lia]).
    destruct Hs as [-> HAB]. injection HAB as HAB.
    assert (Hexp : ex = ey).
    { rewrite <- Cx, <- Cy. f_equal.
      assert (Zpos (digits2_pos A) = Zpos (digits2_pos B)) by (rewrite HAB; reflexivity). lia. }
    subst ey.
    assert (Hm : mx = my).
    { assert (H : Zpos mx * 2 ^ (ex - ez) = Zpos my * 2 ^ (ex - ez)) by (rewrite <- Ax, <- Ay, HAB; reflexivity).
      apply Z.mul_cancel_r in H; [congruence|]. apply Z.pow_nonzero; lia. }
    subst my. unfold SFeqb in Hne. simpl in Hne.
    rewrite Z.compare_refl in Hne. change (Pos.compare_cont Eq mx mx) with (Pos.compare mx mx) in Hne.
    rewrite Pos.compare_refl in Hne. destruct sy; discriminate.
  - simpl. apply binary_round_nonzero. subst ez. lia.
  - simpl. apply binary_round_nonzero. subst ez. lia.
Qed.

End SpecFacts.

(** ** Comparisons, [Math.max] and NaN on numbers *)

Module FloatFacts.

(** Swapping the arguments of a comparison reverses its result. *)
Lemma SFcompare_antisym (x y : spec_float) :
  SFcompare y x = option_map CompOpp (SFcompare x y).
Proof.
  destruct x as [sx|sx| |sx mx ex], y as [sy|sy| |sy my ey]; simpl; try reflexivity;
    try (destruct sx; reflexivity); try (destruct sy; reflexivity);
    try (destruct sx, sy; reflexivity).
  destruct sx, sy; simpl; try reflexivity;
    rewrite (Z.compare_antisym ey ex);
    destruct (ey ?= ex)%Z; simpl; try reflexivity;
    fold (Pos.compare my mx); fold (Pos.compare mx my);
    rewrite (Pos.compare_antisym my mx); destruct (my ?= mx)%positive; reflexivity.
Qed.

(** Every value but NaN compares equal to itself. *)
Lemma SFcompare_refl (x : spec_float) :
  x <> S754_nan -> SFcompare x x = Some Eq.
Proof.
  destruct x as [s|s| |s m e]; simpl; intros H; try reflexivity; try congruence.
  - destruct s; reflexivity.
  - rewrite Z.compare_refl. fold (Pos.compare m m). rewrite Pos.compare_refl.
    destruct s; reflexivity.
Qed.

(** [isNaN] holds of the NaN of the specification and of nothing else. *)
Lemma isNaN_spec (x : float) : isNaN x = true <-> Prim2SF x = S754_nan.
Proof.
  unfold isNaN. rewrite eqb_spec. unfold SFeqb. split.
  - destruct (Prim2SF x) eqn:E; try reflexivity; intros H;
      rewrite SFcompare_refl in H by discriminate; discriminate.
  - intros ->. reflexivity.
Qed.

Lemma isNaN_false (x : float) : isNaN x = false <-> Prim2SF x <> S754_nan.
Proof.
  rewrite <- isNaN_spec. destruct (isNaN x); split; congruence.
Qed.

(** Only NaN is not comparable. *)
Lemma SFcompare_none (x y : spec_float) :
  SFcompare x y = None -> x = S754_nan \/ y = S754_nan.
Proof.
  destruct x, y; simpl; intros H; try discriminate; auto.
Qed.

(** [a >= b] holds as soon as [a < b] fails and neither is NaN. *)
Lemma ge_of_not_lt (a b : float) :
  isNaN a = false -> isNaN b = false -> (a <? b) = false -> ge a b = true.
Proof.
  unfold ge. rewrite ltb_spec, leb_spec, !isNaN_false. unfold SFltb, SFleb.
  intros Ha Hb. rewrite (SFcompare_antisym (Prim2SF a) (Prim2SF b)).
  destruct (SFcompare (Prim2SF a) (Prim2SF b)) as [[]|] eqn:E; simpl; try congruence.
  apply SFcompare_none in E. tauto.
Qed.

Lemma ge_of_gt (a b : float) : gt a b = true -> ge a b = true.
Proof.
  unfold gt, ge. rewrite ltb_spec, leb_spec. unfold SFltb, SFleb.
  destruct (SFcompare (Prim2SF b) (Prim2SF a)) as [[]|]; congruence.
Qed.

(** [a >= b] excludes [a < b]. *)
Lemma ge_not_lt (a b : float) : ge a b = true -> (a <? b) = false.
Proof.
  unfold ge. rewrite ltb_spec, leb_spec. unfold SFltb, SFleb.
  rewrite (SFcompare_antisym (Prim2SF b) (Prim2SF a)).
  destruct (SFcompare (Prim2SF b) (Prim2SF a)) as [[]|]; simpl; congruence.
Qed.

Lemma ge_refl (a : float) : isNaN a = false -> ge a a = true.
Proof.
  unfold ge. rewrite leb_spec, isNaN_false. unfold SFleb. intros H.
  rewrite SFcompare_refl by assumption. reflexivity.
Qed.

Lemma ge_not_nan_l (a b : float) : ge a b = true -> isNaN a = false.
Proof.
  unfold ge. rewrite leb_spec, isNaN_false. unfold SFleb. intros H E.
  rewrite E in H. destruct (Prim2SF b); discriminate.
Qed.

Lemma gt_not_nan_l (a b : float) : gt a b = true -> isNaN a = false.
Proof. intros H. apply ge_not_nan_l with b. now apply ge_of_gt. Qed.

(** [<=] on the specification is transitive: it is the lexicographic order
    on sign, exponent and mantissa. *)
Lemma SFleb_trans (x y z : spec_float) :
  SFleb x y = true -> SFleb y z = true -> SFleb x z = true.
Proof.
  unfold SFleb.
  destruct x as [sx|sx| |sx mx ex], y as [sy|sy| |sy my ey], z as [sz|sz| |sz mz ez];
    simpl; try congruence;
    repeat match goal with s : bool |- _ => destruct s end; simpl; try congruence.
  all: change (Pos.compare_cont Eq) with Pos.compare.
  all: repeat match goal with
       | |- context [(?a ?= ?b)%Z] => destruct (Z.compare_spec a b)
       | |- context [(?a ?= ?b)%positive] => destruct (Pos.compare_spec a b)
       end; simpl; try congruence; try lia.
Qed.

Lemma ge_trans (a b c : float) : ge a b = true -> ge b c = true -> ge a c = true.
Proof.
  unfold ge. rewrite !leb_spec. intros H1 H2. exact (SFleb_trans _ _ _ H2 H1).
Qed.

(** *** Math.max *)

(** Without NaN, [Math.max] returns one of its arguments, which is at least
    the other. *)
Lemma Math_max_cases (a b : float) :
  isNaN a = false -> isNaN b = false -> Math_max a b = a \/ Math_max a b = b.
Proof.
  unfold Math_max. intros -> ->. simpl.
  destruct (a <? b); [now right|]. destruct (b <? a); [now left|].
  destruct (is_zero a && get_sign a); auto.
Qed.

Lemma Math_max_not_nan (a b : float) :
  isNaN a = false -> isNaN b = false -> isNaN (Math_max a b) = false.
Proof.
  intros Ha Hb. destruct (Math_max_cases a b Ha Hb) as [-> | ->]; assumption.
Qed.

Lemma Math_max_ge_r (a b : float) :
  isNaN a = false -> isNaN b = false -> ge (Math_max a b) b = true.
Proof.
  intros Ha Hb. unfold Math_max. rewrite Ha, Hb. simpl.
  destruct (a <? b) eqn:Hab; [now apply ge_refl|].
  destruct (b <? a) eqn:Hba; [now apply ge_of_gt|].
  destruct (is_zero a && get_sign a); [now apply ge_refl|now apply ge_of_not_lt].
Qed.

Lemma Math_max_ge_l (a b : float) :
  isNaN a = false -> isNaN b = false -> ge (Math_max a b) a = true.
Proof.
  intros Ha Hb. unfold Math_max. rewrite Ha, Hb. simpl.
  destruct (a <? b) eqn:Hab; [now apply ge_of_gt|].
  destruct (b <? a) eqn:Hba; [now apply ge_refl|].
  destruct (is_zero a && get_sign a); [now apply ge_of_not_lt|now apply ge_refl].
Qed.

(** *** Rounding never yields NaN *)

Lemma iter_pos_inv {A : Type} (P : A -> Prop) (f : A -> A) :
  (forall x, P x -> P (f x)) -> forall n x, P x -> P (iter_pos f n x).
Proof.
  intros Hf. induction n as [n IH|n IH|]; simpl; intros x Hx; auto.
Qed.

Lemma shr_1_nonneg (r : shr_record) : (0 <= shr_m r)%Z -> (0 <= shr_m (shr_1 r))%Z.
Proof.
  destruct r as [m r s]. simpl.
  destruct m as [|[p|p|]|[p|p|]]; simpl; lia.
Qed.

Lemma shr_fexp_nonneg (m e : Z) (l : location) :
  (0 <= m)%Z -> (0 <= shr_m (fst (shr_fexp prec emax m e l)))%Z.
Proof.
  intros Hm. unfold shr_fexp, shr.
  assert (H0 : (0 <= shr_m (shr_record_of_loc m l))%Z)
    by (destruct l as [|[]]; exact Hm).
  destruct (fexp prec emax (Zdigits2 m + e) - e)%Z; simpl; try exact H0.
  apply (iter_pos_inv (fun r => (0 <= shr_m r)%Z)); [apply shr_1_nonneg|exact H0].
Qed.

Lemma round_nearest_even_nonneg (m : Z) (l : location) :
  (0 <= m)%Z -> (0 <= round_nearest_even m l)%Z.
Proof.
  intros Hm. destruct l as [|[]]; simpl; try lia. destruct (Z.even m); lia.
Qed.

Lemma binary_round_aux_not_nan (s : bool) (m e : Z) (l : location) :
  (0 <= m)%Z -> binary_round_aux prec emax s m e l <> S754_nan.
Proof.
  intros Hm. unfold binary_round_aux.
  pose proof (shr_fexp_nonneg m e l Hm) as H1.
  destruct (shr_fexp prec emax m e l) as [mrs' e'] eqn:E1. simpl in H1.
  pose proof (shr_fexp_nonneg _ e' loc_Exact
                (round_nearest_even_nonneg _ (loc_of_shr_record mrs') H1)) as H2.
  destruct (shr_fexp prec emax (round_nearest_even (shr_m mrs') (loc_of_shr_record mrs'))
              e' loc_Exact) as [mrs'' e''] eqn:E2. simpl in H2.
  destruct (shr_m mrs''); try discriminate; [|lia].
  destruct (e'' <=? emax - prec)%Z; discriminate.
Qed.

(** A number that is not NaN stays so when multiplied by a finite non-zero
    constant. *)
Lemma mul_not_nan (x c : float) (s : bool) (m : positive) (e : Z) :
  Prim2SF c = S754_finite s m e -> isNaN x = false -> isNaN (x * c) = false.
Proof.
  rewrite !isNaN_false, mul_spec. intros -> Hx. unfold SF64mul.
  destruct (Prim2SF x) as [sx|sx| |sx mx ex]; simpl; try discriminate; try congruence.
  apply binary_round_aux_not_nan. lia.
Qed.

(** *** Subtraction of equal finite numbers *)

Lemma sub_equal_finite (x y : float) :
  strictEq x y = true -> isFinite x = true -> strictNe (x - y) 0 = false.
Proof.
  unfold strictEq, strictNe, isFinite. rewrite !eqb_spec, sub_spec.
  change (Prim2SF 0) with (S754_zero false). unfold SFeqb, SF64sub.
  destruct (Prim2SF x) as [sx|sx| |sx mx ex], (Prim2SF y) as [sy|sy| |sy my ey];
    simpl; try discriminate;
    try (destruct sx, sy; simpl; intros; congruence);
    try (destruct sx; simpl; intros; congruence);
    try (destruct sy; simpl; intros; congruence).
  intros H _.
  assert (Hs : sx = sy /\ ex = ey /\ mx = my).
  { destruct sx, sy; try discriminate;
      destruct (Z.compare_spec ex ey); try discriminate;
      destruct (Pos.compare_cont Eq mx my) eqn:E; try discriminate;
      apply Pos.compare_eq in E; auto. }
  destruct Hs as (-> & -> & ->).
  rewrite Z.min_id, Z.sub_diag. reflexivity.
Qed.

(** Two numbers that differ have a difference other than zero: the guard
    [aS - aD !== 0] holds exactly when the slopes differ, NaN apart. *)
Lemma sub_distinct (x y : float) :
  isNaN x = false -> isNaN y = false -> strictNe x y = true ->
  strictNe (x - y) 0 = true.
Proof.
  unfold strictNe. rewrite !isNaN_false, !eqb_spec, sub_spec.
  change (Prim2SF 0) with (S754_zero false). intros Hx Hy Hne.
  apply negb_true_iff in Hne.
  destruct (SpecFacts.SFsub_nonzero _ _ (Prim2SF_valid x) (Prim2SF_valid y) Hx Hy Hne)
    as [H | H]; unfold SF64sub.
  - destruct (SFsub prec emax (Prim2SF x) (Prim2SF y)) as [s|s| |s m e];
      try destruct s; try reflexivity; destruct H.
  - rewrite H. reflexivity.
Qed.

End FloatFacts.

Import FloatFacts.

(** ** The parser *)

Section Parser.

Variable eq : string.

(** The parser leaves [null] or one of its two messages in [error]. *)
Lemma parse_error_cases :
  error (parseEquation eq) = None
  \/ error (parseEquation eq) = Some invalidFormat
  \/ error (parseEquation eq) = Some invalidNumber.
Proof.
  unfold parseEquation. destruct (matchGlobal reTerm _) as [terms|]; [|now right; left].
  destruct (fold_left addTerm terms (0, 0)) as [a b]. cbn [error].
  destruct (isNaN a || isNaN b); auto.
Qed.

(** Without an error neither sum is NaN. *)
Lemma parse_ok_not_nan :
  error (parseEquation eq) = None ->
  isNaN (slope (parseEquation eq)) = false /\ isNaN (intercept (parseEquation eq)) = false.
Proof.
  unfold parseEquation. destruct (matchGlobal reTerm _) as [terms|]; [|discriminate].
  destruct (fold_left addTerm terms (0, 0)) as [a b]. cbn [error slope intercept].
  destruct (isNaN a) eqn:Ha, (isNaN b) eqn:Hb; simpl; try discriminate. auto.
Qed.

(** Both messages are non-empty strings, hence truthy. *)
Lemma truthy_error :
  truthy (error (parseEquation eq)) = notNull (error (parseEquation eq)).
Proof.
  destruct parse_error_cases as [-> | [-> | ->]]; reflexivity.
Qed.

End Parser.

(** ** The fields of one run

    Each field of the result, read off the definition in terms of the
    statement that assigns it. *)

Section Run.

Variable errorState : string.
Variables demandEq supplyEq : string.
Variables demandShift supplyShift : float.

Let parsedDemand := parseEquation demandEq.
Let parsedSupply := parseEquation supplyEq.
Let currentDemandShift := currentShift demandShift.
Let currentSupplyShift := currentShift supplyShift.
Let bD_shifted := intercept parsedDemand + currentDemandShift.
Let bS_shifted := intercept parsedSupply + currentSupplyShift.
Let found := equilibria parsedDemand parsedSupply bD_shifted bS_shifted.
Let r := calculateEquilibrium errorState demandEq supplyEq demandShift supplyShift.

Ltac open_run :=
  unfold r, calculateEquilibrium;
  fold parsedDemand parsedSupply currentDemandShift currentSupplyShift;
  fold bD_shifted bS_shifted; fold found;
  destruct found as [[e i] sh];
  match goal with
  | |- context [sampleLoop ?a ?b ?c ?d ?st] => destruct (sampleLoop a b c d st) as [g t]
  end.

Lemma run_initial :
  localPEInitial r = option_map fst (snd (fst found))
  /\ localQEInitial r = option_map snd (snd (fst found)).
Proof. open_run. split; reflexivity. Qed.

Lemma run_shifted :
  localPEShifted r = option_map fst (snd found)
  /\ localQEShifted r = option_map snd (snd found).
Proof. open_run. split; reflexivity. Qed.

Lemma run_error :
  localError r =
  if String.eqb (fst (fst found)) ""
     && negb (notNull (localPEInitial r)) && negb (notNull (localPEShifted r))
     && (strictNe currentDemandShift 0 || strictNe currentSupplyShift 0)
  then noValidEquilibrium else fst (fst found).
Proof. open_run. destruct i as [[? ?]|], sh as [[? ?]|]; reflexivity. Qed.

Lemma run_store :
  setErrorCalls r =
  ((if negb (String.eqb errorState "") then [""] else [])
   ++ (if negb (String.eqb (localError r) errorState) then [localError r] else []))%list.
Proof. open_run. destruct i as [[? ?]|], sh as [[? ?]|]; reflexivity. Qed.

Lemma run_range :
  maxQuantityValue r =
  quantityRange parsedDemand parsedSupply currentDemandShift currentSupplyShift
                (localQEInitial r) (localQEShifted r).
Proof. open_run. reflexivity. Qed.

Lemma run_graph :
  graphDataPoints r =
  fst (sampleLoop parsedDemand parsedSupply bD_shifted bS_shifted
         ((maxQuantityValue r - minQuantityValue) / ofNat numPointsGraph)).
Proof.
  unfold r, calculateEquilibrium;
  fold parsedDemand parsedSupply currentDemandShift currentSupplyShift;
  fold bD_shifted bS_shifted; fold found.
  destruct found as [[e i] sh].
  match goal with
  | |- context [sampleLoop ?a ?b ?c ?d ?st] => destruct (sampleLoop a b c d st) as [g t] eqn:E
  end.
  cbn [graphDataPoints maxQuantityValue]. rewrite E. reflexivity.
Qed.

Lemma run_table :
  sortedTableQuantities r =
  sortBy (fun a b => a - b)
    (addQuantity (localQEShifted r)
       (addQuantity (localQEInitial r)
          (snd (sampleLoop parsedDemand parsedSupply bD_shifted bS_shifted
                  ((maxQuantityValue r - minQuantityValue) / ofNat numPointsGraph)))))
  /\ tableDataPoints r =
     map (tableRowOf parsedDemand parsedSupply bD_shifted bS_shifted
            (localQEInitial r) (localQEShifted r))
         (sortedTableQuantities r).
Proof.
  unfold r, calculateEquilibrium;
  fold parsedDemand parsedSupply currentDemandShift currentSupplyShift;
  fold bD_shifted bS_shifted; fold found.
  destruct found as [[e i] sh].
  match goal with
  | |- context [sampleLoop ?a ?b ?c ?d ?st] => destruct (sampleLoop a b c d st) as [g t] eqn:E
  end.
  cbn [sortedTableQuantities tableDataPoints maxQuantityValue localQEInitial localQEShifted].
  rewrite E. split; reflexivity.
Qed.

(** Without a parse error the two equilibria are those of [solve], and the
    text left in [localError] is empty or the one about parallel slopes. *)
Lemma found_ok :
  error parsedDemand = None -> error parsedSupply = None ->
  found =
  (if strictNe (slope parsedSupply - slope parsedDemand) 0 then "" else parallelSlopes,
   solve (slope parsedDemand) (intercept parsedDemand)
         (slope parsedSupply) (intercept parsedSupply),
   solve (slope parsedDemand) bD_shifted (slope parsedSupply) bS_shifted).
Proof.
  intros Hd Hs. unfold found, equilibria. rewrite Hd, Hs. reflexivity.
Qed.

End Run.

(** ** The error state after a run

    The callback clears the state when the message it captured is not empty
    and stores the new message when it differs from the captured one: a new
    message equal to the captured one is not stored, and the run leaves the
    state empty. *)

Lemma errorAfter_spec
  (errorState : string) (demandEq supplyEq : string) (demandShift supplyShift : float) :
  let r := calculateEquilibrium errorState demandEq supplyEq demandShift supplyShift in
  errorAfter errorState r = if String.eqb (localError r) errorState then "" else localError r.
Proof.
  intros r. unfold errorAfter.
  pose proof (run_store errorState demandEq supplyEq demandShift supplyShift) as H.
  cbv zeta in H. fold r in H. rewrite H.
  destruct (String.eqb (localError r) errorState) eqn:E; cbn [negb].
  - rewrite app_nil_r. destruct (String.eqb errorState "") eqn:E0; cbn [negb last].
    + now apply String.eqb_eq in E0.
    + reflexivity.
  - now rewrite last_last.
Qed.

(** ** The solver *)

Lemma strictEq_sym (x y : float) : (x =? y) = (y =? x).
Proof.
  rewrite !eqb_spec. unfold SFeqb. rewrite (SFcompare_antisym (Prim2SF x) (Prim2SF y)).
  destruct (SFcompare (Prim2SF x) (Prim2SF y)) as [[]|]; reflexivity.
Qed.

(** The shift the solver uses is the number in the shift state, up to the
    sign of a zero. *)
Lemma currentShift_eq (x : float) :
  isNaN x = false -> strictEq (currentShift x) x = true.
Proof.
  intros H. unfold currentShift, strictEq. rewrite H. simpl.
  destruct (x =? 0) eqn:E.
  - rewrite strictEq_sym. exact E.
  - unfold isNaN in H. now apply negb_false_iff in H.
Qed.

(** The acceptance test, conjunct by conjunct. *)
Lemma accepted_spec (p q : float) :
  accepted p q = true <->
  isNaN p = false /\ isNaN q = false /\ ge q 0 = true /\ ge p 0 = true.
Proof.
  unfold accepted. rewrite !andb_true_iff, !negb_true_iff. tauto.
Qed.

(** [solve] returns the two formulas when the guard and the acceptance test
    pass, and nothing otherwise. *)
Lemma solve_spec (aD bD aS bS : float) :
  let p_calc := (bD - bS) / (aS - aD) in
  let q_calc := aD * p_calc + bD in
  solve aD bD aS bS =
  if strictNe (aS - aD) 0 && accepted p_calc q_calc then Some (p_calc, q_calc) else None.
Proof.
  unfold solve. destruct (strictNe (aS - aD) 0); simpl; reflexivity.
Qed.

(** What [solve] returns passed the acceptance test. *)
Lemma solve_accepted (aD bD aS bS p q : float) :
  solve aD bD aS bS = Some (p, q) -> accepted p q = true.
Proof.
  unfold solve. destruct (strictNe (aS - aD) 0); [|discriminate].
  destruct (accepted _ _) eqn:E; [|discriminate]. intros H. injection H as <- <-. exact E.
Qed.

(** *** C1 *)

(** C1.  When both equations parse and the slopes differ, the original
    equilibrium is the price [(bD - bS) / (aS - aD)] with the quantity
    [aD * price + bD]: these two numbers are what the run reports when they
    pass the acceptance test, and nothing is reported when they do not.  At
    the default equations (demand slope -1 and intercept 16, supply slope 1
    and intercept 4) this is price 6 and quantity 10. *)
Theorem original_equilibrium_formula
  (errorState : string) (demandEq supplyEq : string) (demandShift supplyShift : float) :
  let d := parseEquation demandEq in
  let s := parseEquation supplyEq in
  let r := calculateEquilibrium errorState demandEq supplyEq demandShift supplyShift in
  let price := (intercept d - intercept s) / (slope s - slope d) in
  let quantity := slope d * price + intercept d in
  error d = None -> error s = None -> strictNe (slope s) (slope d) = true ->
  (accepted price quantity = true ->
   localPEInitial r = Some price /\ localQEInitial r = Some quantity)
  /\ (accepted price quantity = false ->
      localPEInitial r = None /\ localQEInitial r = None).
Proof.
  intros d s r price quantity Hd Hs Hne.
  destruct (parse_ok_not_nan demandEq Hd) as [Nd _].
  destruct (parse_ok_not_nan supplyEq Hs) as [Ns _].
  pose proof (sub_distinct _ _ Ns Nd Hne) as Hguard.
  destruct (run_initial errorState demandEq supplyEq demandShift supplyShift) as [HP HQ].
  subst r price quantity d s.
  rewrite (found_ok _ _ _ _ Hd Hs) in HP, HQ. cbn [fst snd] in HP, HQ.
  rewrite solve_spec, Hguard in HP, HQ. cbn [andb] in HP, HQ.
  split; intros Hacc; rewrite Hacc in HP, HQ; split; assumption.
Qed.

Lemma original_equilibrium_default :
  let r := calculateEquilibrium "" "-P + 16" "P + 4" 0 0 in
  localPEInitial r = Some 6 /\ localQEInitial r = Some 10.
Proof.
  exact (proj1 (original_equilibrium_formula "" "-P + 16" "P + 4" 0 0
                  eq_refl eq_refl eq_refl) eq_refl).
Defined.

(** *** C2 *)

(** C2.  For shifts that are numbers, the solver uses each of them as it is
    (up to the sign of a zero); the shifted equilibrium is computed with the
    slopes of the original curves and the intercepts [bD + sD] and
    [bS + sS]: price [(bD' - bS') / (aS - aD)] and quantity
    [aD * price + bD'], reported when they pass the acceptance test and
    absent otherwise.  At the default equations with a demand shift of 4 the
    shifted demand intercept is 20 and the shifted equilibrium is price 8,
    quantity 12. *)
Theorem shifted_equilibrium_formula
  (errorState : string) (demandEq supplyEq : string) (demandShift supplyShift : float) :
  let d := parseEquation demandEq in
  let s := parseEquation supplyEq in
  let r := calculateEquilibrium errorState demandEq supplyEq demandShift supplyShift in
  let sD := currentShift demandShift in
  let sS := currentShift supplyShift in
  let bD' := intercept d + sD in
  let bS' := intercept s + sS in
  let price := (bD' - bS') / (slope s - slope d) in
  let quantity := slope d * price + bD' in
  error d = None -> error s = None -> strictNe (slope s) (slope d) = true ->
  isNaN demandShift = false -> isNaN supplyShift = false ->
  strictEq sD demandShift = true /\ strictEq sS supplyShift = true
  /\ (accepted price quantity = true ->
      localPEShifted r = Some price /\ localQEShifted r = Some quantity)
  /\ (accepted price quantity = false ->
      localPEShifted r = None /\ localQEShifted r = None).
Proof.
  intros d s r sD sS bD' bS' price quantity Hd Hs Hne HsD HsS.
  split; [now apply currentShift_eq|]. split; [now apply currentShift_eq|].
  destruct (parse_ok_not_nan demandEq Hd) as [Nd _].
  destruct (parse_ok_not_nan supplyEq Hs) as [Ns _].
  pose proof (sub_distinct _ _ Ns Nd Hne) as Hguard.
  destruct (run_shifted errorState demandEq supplyEq demandShift supplyShift) as [HP HQ].
  subst r price quantity bD' bS' sD sS d s.
  rewrite (found_ok _ _ _ _ Hd Hs) in HP, HQ. cbn [fst snd] in HP, HQ.
  rewrite solve_spec, Hguard in HP, HQ. cbn [andb] in HP, HQ.
  split; intros Hacc; rewrite Hacc in HP, HQ; split; assumption.
Qed.

Lemma shifted_equilibrium_default :
  let r := calculateEquilibrium "" "-P + 16" "P + 4" 4 0 in
  intercept (parseEquation "-P + 16") + currentShift 4 = 20
  /\ localPEShifted r = Some 8 /\ localQEShifted r = Some 12.
Proof.
  split; [reflexivity|].
  exact (proj1 (proj2 (proj2 (shifted_equilibrium_formula "" "-P + 16" "P + 4" 4 0
                  eq_refl eq_refl eq_refl eq_refl eq_refl))) eq_refl).
Defined.

(** *** C3 *)

(** The acceptance test lets an infinite price and quantity through: with
    demand [0.5P+1], supply [P] and a demand shift of [1e308], the shifted
    price [1e308 / 0.5] overflows. *)
Lemma infinite_equilibrium_accepted :
  let r := calculateEquilibrium "" "0.5P+1" "P" (parseFloat "1e308") 0 in
  localPEShifted r = Some infinity /\ localQEShifted r = Some infinity
  /\ isFinite infinity = false
  /\ newShiftedEquilibrium r = Some {| price := "Infinity"; quantity := "Infinity" |}.
Proof. vm_compute. repeat split; reflexivity. Qed.

(** Both equilibria are valid pairs, whichever branch assigned them. *)
Lemma equilibria_valid (d s : parsed) (bD' bS' : float) :
  let found := equilibria d s bD' bS' in
  validPair (option_map fst (snd (fst found))) (option_map snd (snd (fst found)))
  /\ validPair (option_map fst (snd found)) (option_map snd (snd found)).
Proof.
  unfold equilibria.
  destruct (truthy (error d)); [simpl; auto|].
  destruct (truthy (error s)); [simpl; auto|]. cbn [fst snd].
  split.
  - destruct (solve (slope d) (intercept d) (slope s) (intercept s)) as [[p q]|] eqn:E;
      simpl; [|exact I].
    apply solve_accepted, accepted_spec in E. tauto.
  - destruct (solve (slope d) bD' (slope s) bS') as [[p q]|] eqn:E; simpl; [|exact I].
    apply solve_accepted, accepted_spec in E. tauto.
Qed.

(** The locals of a run are assigned in valid pairs. *)
Lemma run_valid_pairs (errorState : string) (demandEq supplyEq : string) (demandShift supplyShift : float) :
  let r := calculateEquilibrium errorState demandEq supplyEq demandShift supplyShift in
  validPair (localPEInitial r) (localQEInitial r)
  /\ validPair (localPEShifted r) (localQEShifted r).
Proof.
  intros r.
  destruct (run_initial errorState demandEq supplyEq demandShift supplyShift) as [HP HQ].
  destruct (run_shifted errorState demandEq supplyEq demandShift supplyShift) as [HP' HQ'].
  cbv zeta in HP, HQ, HP', HQ'. fold r in HP, HQ, HP', HQ'.
  rewrite HP, HQ, HP', HQ'. apply equilibria_valid.
Qed.

(** C3, amended.  A solved point is reported only if neither its price nor
    its quantity is NaN and both are at least zero; otherwise price and
    quantity are absent together, and no reported coordinate is below zero.
    When both equations parse and the slopes differ, an absent
    equilibrium is not an error by itself: the error text is empty unless
    both equilibria are absent while a shift is not zero. *)
Theorem accepted_points_nonnegative
  (errorState : string) (demandEq supplyEq : string) (demandShift supplyShift : float) :
  let d := parseEquation demandEq in
  let s := parseEquation supplyEq in
  let r := calculateEquilibrium errorState demandEq supplyEq demandShift supplyShift in
  validPair (localPEInitial r) (localQEInitial r)
  /\ validPair (localPEShifted r) (localQEShifted r)
  /\ (forall c,
      In (Some c) [localPEInitial r; localQEInitial r; localPEShifted r; localQEShifted r] ->
      (c <? 0) = false)
  /\ (error d = None -> error s = None -> strictNe (slope s - slope d) 0 = true ->
      localError r =
      if negb (notNull (localPEInitial r)) && negb (notNull (localPEShifted r))
         && (strictNe (currentShift demandShift) 0 || strictNe (currentShift supplyShift) 0)
      then noValidEquilibrium else "").
Proof.
  intros d s r.
  destruct (run_valid_pairs errorState demandEq supplyEq demandShift supplyShift) as [V0 V1].
  fold r in V0, V1. split; [exact V0|]. split; [exact V1|]. split.
  { intros c Hc. apply ge_not_lt. unfold validPair in V0, V1.
    destruct (localPEInitial r), (localQEInitial r),
             (localPEShifted r), (localQEShifted r); simpl in Hc;
      repeat match goal with
             | H : _ \/ _ |- _ => destruct H
             | H : Some _ = Some _ |- _ => injection H as <-
             | H : None = Some _ |- _ => discriminate H
             end; tauto. }
  destruct (run_initial errorState demandEq supplyEq demandShift supplyShift) as [HP _].
  destruct (run_shifted errorState demandEq supplyEq demandShift supplyShift) as [HP' _].
  pose proof (run_error errorState demandEq supplyEq demandShift supplyShift) as HE.
  cbv zeta in HP, HP', HE. fold r in HP, HP', HE.
  intros Hd Hs Hguard. rewrite HE.
  rewrite (found_ok _ _ _ _ Hd Hs). cbn [fst snd]. fold d s. rewrite Hguard.
  reflexivity.
Qed.

(** *** C4 *)




(** *** C5 *)

(** C5.  The parser on the five sample inputs. *)
Theorem parse_examples :
  parseEquation "-P + 16" = {| slope := -1; intercept := 16; error := None |}
  /\ parseEquation "P + 4" = {| slope := 1; intercept := 4; error := None |}
  /\ parseEquation "2P+10" = {| slope := 2; intercept := 10; error := None |}
  /\ parseEquation "50-3P" = {| slope := -3; intercept := 50; error := None |}
  /\ parseEquation "abc" = {| slope := 0; intercept := 0; error := Some invalidFormat |}
  /\ truthy (error (parseEquation "abc")) = true.
Proof. vm_compute. repeat split; reflexivity. Qed.

(** *** C6 *)

(** C6.  Of three bare [P] terms only two reach the sum: the first is
    rewritten by [/^p/], the second by the one replacement that
    [/([+-])p/] makes, and the third matches no term. *)
Theorem bare_terms_dropped :
  parseEquation "P+P+P" = {| slope := 2; intercept := 0; error := None |}
  /\ matchGlobal reTerm "1p+1p+p" = Some ["1p"; "+1p"]
  /\ parseEquation "10+P-P" = {| slope := 1; intercept := 10; error := None |}
  /\ parseEquation "2P+3P" = {| slope := 5; intercept := 0; error := None |}.
Proof. vm_compute. repeat split; reflexivity. Qed.

(** *** C10 *)

(** The two prefixes differ where one reads [Demanda] and the other
    [Oferta], and neither message is empty. *)
Lemma prefixes_differ (a b : string) : demandErrorPrefix ++ a <> supplyErrorPrefix ++ b.
Proof. unfold demandErrorPrefix, supplyErrorPrefix. simpl. congruence. Qed.

Lemma demand_message_not_empty (a : string) : String.eqb (demandErrorPrefix ++ a) "" = false.
Proof. reflexivity. Qed.

Lemma supply_message_not_empty (a : string) : String.eqb (supplyErrorPrefix ++ a) "" = false.
Proof. reflexivity. Qed.

(** C10.  A parse error of the demand equation is the one reported, whatever
    the supply equation is; a parse error of the supply equation is reported
    when the demand equation parses, and only then.  This holds of the
    message the run computes and of the error state after the run: the state
    holds the demand message when the demand equation fails and the state
    that the callback captured was another one, and it holds a supply
    message only if the demand equation parsed. *)
Theorem demand_error_precedence
  (errorState : string) (demandEq supplyEq : string) (demandShift supplyShift : float) :
  let d := parseEquation demandEq in
  let s := parseEquation supplyEq in
  let r := calculateEquilibrium errorState demandEq supplyEq demandShift supplyShift in
  (forall e, error d = Some e -> localError r = demandErrorPrefix ++ e)
  /\ (forall e, error d = None -> error s = Some e ->
      localError r = supplyErrorPrefix ++ e)
  /\ (forall e, localError r = supplyErrorPrefix ++ e -> error d = None)
  /\ (forall e, error d = Some e -> errorState <> demandErrorPrefix ++ e ->
      errorAfter errorState r = demandErrorPrefix ++ e)
  /\ (forall e, errorAfter errorState r = supplyErrorPrefix ++ e -> error d = None).
Proof.
  intros d s r.
  pose proof (errorAfter_spec errorState demandEq supplyEq demandShift supplyShift) as HA.
  cbv zeta in HA. fold r in HA.
  pose proof (run_error errorState demandEq supplyEq demandShift supplyShift) as HE.
  cbv zeta in HE. fold r d s in HE. unfold equilibria in HE. fold d s in HE.
  pose proof (truthy_error demandEq) as Td. pose proof (truthy_error supplyEq) as Ts.
  fold d in Td. fold s in Ts. rewrite Td, Ts in HE.
  assert (A : forall e, error d = Some e -> localError r = demandErrorPrefix ++ e).
  { intros e He. rewrite He in HE. cbn [notNull fst snd errorText] in HE.
    rewrite demand_message_not_empty in HE. exact HE. }
  assert (B : forall e, localError r = supplyErrorPrefix ++ e -> error d = None).
  { intros e He. destruct (error d) as [e'|] eqn:Hd; [|reflexivity].
    rewrite (A e' eq_refl) in He. now apply prefixes_differ in He. }
  split; [exact A|]. split; [|split; [exact B|split]].
  - intros e Hd He. rewrite Hd, He in HE. cbn [notNull fst snd errorText] in HE.
    rewrite supply_message_not_empty in HE. exact HE.
  - intros e He Hne. rewrite HA, (A e He).
    destruct (String.eqb (demandErrorPrefix ++ e) errorState) eqn:E; [|reflexivity].
    apply String.eqb_eq in E. now contradiction Hne.
  - intros e He. rewrite HA in He.
    destruct (String.eqb (localError r) errorState); [discriminate He|].
    exact (B e He).
Qed.

Lemma demand_error_both_fail :
  localError (calculateEquilibrium "" "abc" "x+y" 0 0) = demandErrorPrefix ++ invalidFormat
  /\ errorAfter "" (calculateEquilibrium "" "abc" "x+y" 0 0)
     = demandErrorPrefix ++ invalidFormat.
Proof.
  destruct (demand_error_precedence "" "abc" "x+y" 0 0) as (H1 & _ & _ & H4 & _).
  split; [exact (H1 invalidFormat eq_refl)|].
  apply (H4 invalidFormat eq_refl). discriminate.
Defined.

(** *** C7 *)

Section Samples.

Variables parsedDemand parsedSupply : parsed.
Variables bD_shifted bS_shifted stepGraph : float.

Let point (i : nat) : graphPoint :=
  samplePoint parsedDemand parsedSupply bD_shifted bS_shifted
    (minQuantityValue + ofNat i * stepGraph).

(** The loop appends one point per index and never removes one. *)
Lemma sample_fold (l : list nat) : forall (g : list graphPoint) (t : list float),
  fst (fold_left (sampleStep parsedDemand parsedSupply bD_shifted bS_shifted stepGraph)
         l (g, t))
  = (g ++ map point l)%list.
Proof.
  induction l as [|i l IH]; intros g t; simpl.
  - now rewrite app_nil_r.
  - rewrite IH, <- app_assoc. reflexivity.
Qed.

Lemma sampleLoop_points :
  fst (sampleLoop parsedDemand parsedSupply bD_shifted bS_shifted stepGraph)
  = map point (seq 0 (S numPointsGraph)).
Proof. unfold sampleLoop. now rewrite sample_fold. Qed.

End Samples.

(** A price is present exactly when the slope is not zero and the price is
    at least zero, and it is then the inverted line. *)
Lemma priceAt_spec (a b q : float) :
  match priceAt a b q with
  | Some p => strictNe a 0 = true /\ p = (q - b) / a /\ ge p 0 = true
  | None => strictNe a 0 = false \/ ge ((q - b) / a) 0 = false
  end.
Proof.
  unfold priceAt. destruct (strictNe a 0); simpl; [|now left].
  destruct (ge ((q - b) / a) 0) eqn:E; [now repeat split|now right].
Qed.

(** The loop runs for [i = 0, ..., 50]: one sample more than
    [numPointsGraph]. *)
Lemma fifty_one_samples :
  List.length (graphDataPoints (calculateEquilibrium "" "-P + 16" "P + 4" 0 0)) = 51%nat
  /\ numPointsGraph = 50%nat.
Proof. vm_compute. split; reflexivity. Qed.

(** C7, amended.  The series has 51 samples, at the quantities
    [i * (Qmax / 50)] for [i = 0, ..., 50].  At each of them and for each of
    the four curves the price is [(quantity - intercept) / slope], present
    only when the slope is not zero and that price is at least zero, and
    absent ([null]) otherwise. *)
Theorem graph_samples
  (errorState : string) (demandEq supplyEq : string) (demandShift supplyShift : float) :
  let d := parseEquation demandEq in
  let s := parseEquation supplyEq in
  let bD' := intercept d + currentShift demandShift in
  let bS' := intercept s + currentShift supplyShift in
  let r := calculateEquilibrium errorState demandEq supplyEq demandShift supplyShift in
  let step := (maxQuantityValue r - 0) / 50 in
  List.length (graphDataPoints r) = 51%nat
  /\ (forall i, (i <= 50)%nat ->
      let q := 0 + ofNat i * step in
      nth_error (graphDataPoints r) i =
      Some {| g_quantity := q;
              g_price_demanda_original := priceAt (slope d) (intercept d) q;
              g_price_oferta_original := priceAt (slope s) (intercept s) q;
              g_price_demanda_shifted := priceAt (slope d) bD' q;
              g_price_oferta_shifted := priceAt (slope s) bS' q |})
  /\ (forall a b q,
      match priceAt a b q with
      | Some p => strictNe a 0 = true /\ p = (q - b) / a /\ ge p 0 = true
      | None => strictNe a 0 = false \/ ge ((q - b) / a) 0 = false
      end).
Proof.
  intros d s bD' bS' r step.
  pose proof (run_graph errorState demandEq supplyEq demandShift supplyShift) as HG.
  cbv zeta in HG. fold r d s in HG. rewrite sampleLoop_points in HG. rewrite HG.
  split; [now rewrite length_map, length_seq|]. split; [|apply priceAt_spec].
  intros i Hi q. rewrite nth_error_map, nth_error_seq.
  replace (i <? S numPointsGraph)%nat with true
    by (symmetry; apply Nat.ltb_lt; unfold numPointsGraph; lia).
  reflexivity.
Qed.

Lemma graph_samples_default :
  let r := calculateEquilibrium "" "-P + 16" "P + 4" 0 0 in
  List.length (graphDataPoints r) = 51%nat
  /\ nth_error (graphDataPoints r) 25 =
     Some {| g_quantity := 10;
             g_price_demanda_original := Some 6;
             g_price_oferta_original := Some 6;
             g_price_demanda_shifted := Some 6;
             g_price_oferta_shifted := Some 6 |}
  /\ option_map g_price_oferta_original (nth_error (graphDataPoints r) 5) = Some None.
Proof.
  pose proof (graph_samples "" "-P + 16" "P + 4" 0 0) as H. cbv zeta in H.
  destruct H as (H1 & H2 & _). split; [exact H1|]. split.
  - rewrite (H2 25%nat) by lia. vm_compute. reflexivity.
  - rewrite (H2 5%nat) by lia. vm_compute. reflexivity.
Defined.

(** *** C8 *)

(** Folding [Math.max] over values without NaN gives an upper bound of all
    of them that is one of them or the initial value. *)
Lemma fold_max_spec (cs : list float) : forall m : float,
  notNaN m -> Forall notNaN cs ->
  let M := fold_left Math_max cs m in
  notNaN M /\ ge M m = true /\ Forall (fun c => ge M c = true) cs /\ (M = m \/ In M cs).
Proof.
  induction cs as [|c cs IH]; intros m Hm Hcs; simpl.
  - repeat split; auto. now apply ge_refl.
  - inversion Hcs as [|c' cs' Hc Hcs']; subst.
    destruct (IH (Math_max m c) (Math_max_not_nan m c Hm Hc) Hcs') as (N & G & F & I).
    split; [exact N|]. split; [|split].
    + eapply ge_trans; [exact G|]. now apply Math_max_ge_l.
    + constructor; [|exact F]. eapply ge_trans; [exact G|]. now apply Math_max_ge_r.
    + destruct I as [I | I]; [|now right; right].
      rewrite I. destruct (Math_max_cases m c Hm Hc) as [-> | ->]; auto.
Qed.

(** The statements of [quantityRange] are that fold over the candidates,
    followed by the floor of 20. *)
Lemma quantityRange_fold (d s : parsed) (sD sS : float) (q0 q1 : option float) :
  quantityRange d s sD sS q0 q1 =
  Math_max (fold_left Math_max (rangeCandidates d s sD sS q0 q1) 0) 20.
Proof.
  unfold quantityRange, rangeCandidates, raiseIf.
  destruct q0, q1;
    repeat match goal with
           | |- context [if ?c then [_] else []] => destruct c
           end; reflexivity.
Qed.

(** No candidate is NaN: each is a number that passed a comparison, times a
    constant. *)
Lemma scaled_candidate (c x : float) (b : bool) (sg : bool) (m : positive) (e : Z) :
  Prim2SF c = S754_finite sg m e ->
  (b = true -> notNaN x) ->
  Forall notNaN (if b then [x * c] else []).
Proof.
  intros Hc Hx. destruct b; constructor; [|constructor].
  eapply mul_not_nan; [exact Hc|]. now apply Hx.
Qed.

Lemma candidates_not_nan (d s : parsed) (sD sS : float) (q0 q1 : option float) :
  (forall q, q0 = Some q -> notNaN q) -> (forall q, q1 = Some q -> notNaN q) ->
  Forall notNaN (rangeCandidates d s sD sS q0 q1).
Proof.
  intros H0 H1. unfold rangeCandidates.
  assert (C15 : Prim2SF 1.5 = S754_finite false 6755399441055744 (-52)) by reflexivity.
  assert (C11 : Prim2SF 1.1 = S754_finite false 4953959590107546 (-52)) by reflexivity.
  repeat (apply <- Forall_app; split).
  - destruct q0 as [q|]; constructor; [|constructor].
    eapply mul_not_nan; [exact C15|]. now apply H0.
  - destruct q1 as [q|]; constructor; [|constructor].
    eapply mul_not_nan; [exact C15|]. now apply H1.
  - eapply scaled_candidate; [exact C11|]. intros H. apply andb_prop in H.
    eapply gt_not_nan_l. exact (proj2 H).
  - eapply scaled_candidate; [exact C11|]. intros H. apply andb_prop in H.
    eapply gt_not_nan_l. exact (proj2 H).
  - eapply scaled_candidate; [exact C11|]. intros H. apply andb_prop in H.
    eapply gt_not_nan_l. exact (proj2 H).
  - eapply scaled_candidate; [exact C11|]. intros H. apply andb_prop in H.
    eapply gt_not_nan_l. exact (proj2 H).
Qed.

(** With demand [-P+160] and supply [P+40] the equilibrium quantity is 100,
    yet the bound is 176, which is 1.1 times the demand intercept, and not
    150. *)
Lemma range_above_equilibrium :
  let r := calculateEquilibrium "" "-P+160" "P+40" 0 0 in
  localQEInitial r = Some 100 /\ localQEShifted r = Some 100
  /\ 100 * 1.5 = 150
  /\ maxQuantityValue r = 176
  /\ maxQuantityValue r = intercept (parseEquation "-P+160") * 1.1.
Proof. vm_compute. repeat split; reflexivity. Qed.

(** C8, amended.  [Qmax] is the largest of 20, one and a half times each
    equilibrium quantity that exists, and 1.1 times each positive quantity
    intercept (original and shifted; of the demand curve when its slope is
    negative, of the supply curve when its slope is positive): it is at
    least 20, at least each of these values, and equal to one of them. *)
Theorem quantity_range_is_maximum
  (errorState : string) (demandEq supplyEq : string) (demandShift supplyShift : float) :
  let d := parseEquation demandEq in
  let s := parseEquation supplyEq in
  let r := calculateEquilibrium errorState demandEq supplyEq demandShift supplyShift in
  let candidates :=
    rangeCandidates d s (currentShift demandShift) (currentShift supplyShift)
                    (localQEInitial r) (localQEShifted r) in
  ge (maxQuantityValue r) 20 = true
  /\ (forall c, In c candidates -> ge (maxQuantityValue r) c = true)
  /\ (maxQuantityValue r = 20 \/ In (maxQuantityValue r) candidates).
Proof.
  intros d s r candidates.
  pose proof (run_range errorState demandEq supplyEq demandShift supplyShift) as HR.
  cbv zeta in HR. fold r d s in HR. rewrite quantityRange_fold in HR. fold candidates in HR.
  destruct (run_valid_pairs errorState demandEq supplyEq demandShift supplyShift) as [V0 V1].
  fold r in V0, V1.
  assert (HC : Forall notNaN candidates).
  { apply candidates_not_nan; intros q Hq.
    - rewrite Hq in V0. destruct (localPEInitial r); simpl in V0; tauto.
    - rewrite Hq in V1. destruct (localPEShifted r); simpl in V1; tauto. }
  destruct (fold_max_spec candidates 0 eq_refl HC) as (N & G & F & I).
  set (M := fold_left Math_max candidates 0) in *.
  assert (N20 : notNaN 20) by reflexivity.
  rewrite HR. split; [now apply Math_max_ge_r|]. split.
  - intros c Hc. rewrite Forall_forall in F.
    eapply ge_trans; [now apply Math_max_ge_l|]. now apply F.
  - destruct (Math_max_cases M 20 N N20) as [E | E]; [|now left].
    destruct I as [I | I].
    + left. rewrite I. reflexivity.
    + right. rewrite E. exact I.
Qed.

(** *** The set of table quantities *)

(** Sorting and adding to the set keep every element. *)
Lemma insertSorted_in (cmp : float -> float -> float) (x y : float) (l : list float) :
  In y (insertSorted cmp x l) <-> y = x \/ In y l.
Proof.
  induction l as [|z l IH]; simpl.
  - intuition.
  - destruct (gt (cmp z x) 0); simpl; rewrite ?IH; intuition.
Qed.

Lemma sortBy_in (cmp : float -> float -> float) (y : float) (l : list float) :
  In y (sortBy cmp l) <-> In y l.
Proof.
  unfold sortBy.
  assert (H : forall acc, In y (fold_left (fun acc x => insertSorted cmp x acc) l acc)
                          <-> In y l \/ In y acc).
  { induction l as [|x l IH]; intros acc; simpl.
    - intuition.
    - rewrite IH, insertSorted_in. intuition. }
  rewrite H. simpl. intuition.
Qed.

Lemma setAdd_keeps (x y : float) (s : list float) : In y s -> In y (setAdd x s).
Proof.
  unfold setAdd. destruct (existsb (sameValueZero x) s); [auto|].
  intros H. apply in_or_app. now left.
Qed.

(** After [add(x)] the set holds a number equal to [x]. *)
Lemma setAdd_holds (x : float) (s : list float) :
  isNaN x = false -> exists q, In q (setAdd x s) /\ strictEq x q = true.
Proof.
  intros Hx. unfold setAdd. destruct (existsb (sameValueZero x) s) eqn:E.
  - apply existsb_exists in E. destruct E as (q & Hq & Hs). exists q. split; [exact Hq|].
    unfold sameValueZero in Hs. rewrite Hx in Hs. simpl in Hs.
    now rewrite orb_false_r in Hs.
  - exists (if is_zero x then zero else x). split.
    + apply in_or_app. right. now left.
    + unfold strictEq. destruct (is_zero x) eqn:Z; [exact Z|].
      unfold isNaN in Hx. now apply negb_false_iff in Hx.
Qed.

Lemma addQuantity_keeps (o : option float) (y : float) (s : list float) :
  In y s -> In y (addQuantity o s).
Proof. destruct o; simpl; [apply setAdd_keeps|auto]. Qed.

(** A number [=== 0] is one of the two zeros. *)
Lemma is_zero_spec (z : float) :
  strictEq z 0 = true -> exists s, Prim2SF z = S754_zero s.
Proof.
  unfold strictEq. rewrite eqb_spec. change (Prim2SF 0) with (S754_zero false).
  unfold SFeqb. destruct (Prim2SF z) as [s|s| |s m e]; simpl; try discriminate.
  - eauto.
  - destruct s; discriminate.
  - destruct s; discriminate.
Qed.

(** A quantity equal to a finite equilibrium quantity is within the
    tolerance of it. *)
Lemma nearQuantity_equal (qe q : float) :
  isFinite qe = true -> strictEq qe q = true -> nearQuantity (Some qe) q = true.
Proof.
  intros Hf He. unfold nearQuantity, Math_abs.
  assert (Hq : strictEq q qe = true) by (unfold strictEq in *; now rewrite strictEq_sym).
  assert (Hfq : isFinite q = true).
  { unfold isFinite, strictEq in *. rewrite eqb_spec in He. unfold SFeqb in He.
    destruct (Prim2SF qe) as [s|s| |s m e], (Prim2SF q) as [s'|s'| |s' m' e'];
      try reflexivity; try discriminate; simpl in He;
      repeat match goal with b : bool |- _ => destruct b end; discriminate. }
  pose proof (sub_equal_finite q qe Hq Hfq) as H0. unfold strictNe in H0.
  apply negb_false_iff in H0. destruct (is_zero_spec _ H0) as [s Hs].
  rewrite ltb_spec, abs_spec, Hs. reflexivity.
Qed.

(** * Further properties of the parser and the solver *)

(** ** Strings and characters *)

Lemma append_nil_r (s : string) : s ++ "" = s.
Proof. induction s as [|c s IH]; simpl; [reflexivity|now rewrite IH]. Qed.

Lemma append_assoc (a b c : string) : (a ++ b) ++ c = a ++ (b ++ c).
Proof. induction a as [|x a IH]; simpl; [reflexivity|now rewrite IH]. Qed.

Lemma length_append (a b : string) : length (a ++ b) = (length a + length b)%nat.
Proof. induction a as [|x a IH]; simpl; [reflexivity|now rewrite IH]. Qed.

(** A digit is no sign, point, variable or space, and has no other case. *)
Lemma digit_char (c : ascii) :
  isDigit c = true ->
  isSign c = false /\ Ascii.eqb c "." = false /\ Ascii.eqb c "p" = false
  /\ isSpace c = false /\ lowerChar c = c.
Proof.
  destruct c as [b0 b1 b2 b3 b4 b5 b6 b7].
  destruct b0, b1, b2, b3, b4, b5, b6, b7; intros H; try discriminate H;
    repeat split; reflexivity.
Qed.

Lemma sign_char (c : ascii) :
  isSign c = true ->
  isDigit c = false /\ Ascii.eqb c "." = false /\ Ascii.eqb c "p" = false
  /\ isSpace c = false /\ lowerChar c = c.
Proof.
  destruct c as [b0 b1 b2 b3 b4 b5 b6 b7].
  destruct b0, b1, b2, b3, b4, b5, b6, b7; intros H; try discriminate H;
    repeat split; reflexivity.
Qed.

Lemma term_char (c : ascii) :
  termChar c = true -> isSpace c = false /\ lowerChar c = c.
Proof.
  destruct c as [b0 b1 b2 b3 b4 b5 b6 b7].
  destruct b0, b1, b2, b3, b4, b5, b6, b7; intros H; try discriminate H;
    repeat split; reflexivity.
Qed.

(** Lowering a character neither makes nor removes white space, and lowering
    twice is lowering once. *)
Lemma lower_char (c : ascii) :
  isSpace (lowerChar c) = isSpace c /\ lowerChar (lowerChar c) = lowerChar c.
Proof.
  destruct c as [b0 b1 b2 b3 b4 b5 b6 b7].
  destruct b0, b1, b2, b3, b4, b5, b6, b7; split; reflexivity.
Qed.

Lemma allChars_append (p : ascii -> bool) (a b : string) :
  allChars p (a ++ b) = allChars p a && allChars p b.
Proof.
  induction a as [|c a IH]; simpl; [reflexivity|]. now rewrite IH, andb_assoc.
Qed.

Lemma allChars_weaken (p q : ascii -> bool) (s : string) :
  (forall c, p c = true -> q c = true) -> allChars p s = true -> allChars q s = true.
Proof.
  intros H. induction s as [|c s IH]; simpl; [reflexivity|].
  intros E. apply andb_prop in E. destruct E as [E1 E2].
  now rewrite (H c E1), IH.
Qed.

Lemma allDigits_allChars (s : string) : allDigits s = allChars isDigit s.
Proof. induction s as [|c s IH]; simpl; [reflexivity|now rewrite IH]. Qed.

(** ** White space and letter case *)

Lemma replaceAll_reSpace (s : string) :
  replaceAll reSpace (fun _ => "") 0 s = stripSpaces s.
Proof.
  induction s as [|c s IH]; [reflexivity|].
  cbn [replaceAll matchHere reSpace rep cls]. cbn [stripSpaces].
  destruct (isSpace c); cbn [consMatch length pred append]; now rewrite IH.
Qed.

Lemma stripSpaces_append (a b : string) :
  stripSpaces (a ++ b) = stripSpaces a ++ stripSpaces b.
Proof.
  induction a as [|c a IH]; simpl; [reflexivity|].
  destruct (isSpace c); simpl; now rewrite IH.
Qed.

Lemma stripSpaces_lower (s : string) :
  stripSpaces (toLowerCase s) = toLowerCase (stripSpaces s).
Proof.
  induction s as [|c s IH]; simpl; [reflexivity|].
  rewrite (proj1 (lower_char c)). destruct (isSpace c); simpl; now rewrite IH.
Qed.

Lemma stripSpaces_idem (s : string) : stripSpaces (stripSpaces s) = stripSpaces s.
Proof.
  induction s as [|c s IH]; simpl; [reflexivity|].
  destruct (isSpace c) eqn:E; simpl; [exact IH|]. now rewrite E, IH.
Qed.

Lemma toLowerCase_idem (s : string) : toLowerCase (toLowerCase s) = toLowerCase s.
Proof.
  induction s as [|c s IH]; simpl; [reflexivity|].
  now rewrite (proj2 (lower_char c)), IH.
Qed.

(** The parser reads its argument through [replace(/\s/g, '')] and
    [toLowerCase] only. *)
Lemma parse_normal (s1 s2 : string) :
  toLowerCase (stripSpaces s1) = toLowerCase (stripSpaces s2) ->
  parseEquation s1 = parseEquation s2.
Proof.
  intros H. unfold parseEquation. now rewrite !replaceAll_reSpace, H.
Qed.

(** X1.  White space anywhere in an equation and the case of its letters
    do not change what it parses to. *)
Theorem parse_ignores_space_and_case :
  (forall a b w : string,
     allChars isSpace w = true -> parseEquation (a ++ w ++ b) = parseEquation (a ++ b))
  /\ (forall s : string, parseEquation (toLowerCase s) = parseEquation s).
Proof.
  split.
  - intros a b w Hw. apply parse_normal. f_equal.
    rewrite !stripSpaces_append.
    assert (E : stripSpaces w = "").
    { induction w as [|c w IH]; simpl in *; [reflexivity|].
      apply andb_prop in Hw. destruct Hw as [-> Hw]. now apply IH. }
    now rewrite E.
  - intros s. apply parse_normal.
    now rewrite stripSpaces_lower, toLowerCase_idem.
Qed.

Lemma parse_spaced_example :
  parseEquation "2P   +10" = parseEquation "2P+10"
  /\ parseEquation "2p+10" = parseEquation "2P+10".
Proof.
  exact (conj (proj1 parse_ignores_space_and_case "2P" "+10" "   " eq_refl)
              (proj2 parse_ignores_space_and_case "2P+10")).
Defined.

(** ** The term pattern on well-formed terms *)

#[local] Arguments isChar : simpl never.
#[local] Arguments isDigit : simpl never.
#[local] Arguments isSign : simpl never.
#[local] Arguments isSpace : simpl never.

Lemma termEnd_headNot (rest : string) :
  termEnd rest ->
  headNot isDigit rest /\ headNot (isChar ".") rest /\ headNot (isChar "p") rest.
Proof.
  destruct rest as [|c rest]; cbn [termEnd headNot]; [tauto|]. intros H.
  destruct (sign_char c H) as (H1 & H2 & H3 & _). unfold isChar.
  rewrite (Ascii.eqb_sym "." c), (Ascii.eqb_sym "p" c). auto.
Qed.

Lemma varText_head (v : bool) (rest : string) :
  termEnd rest ->
  headNot isDigit (varText v ++ rest) /\ headNot (isChar ".") (varText v ++ rest).
Proof.
  intros H. destruct v; simpl; [split; reflexivity|].
  destruct (termEnd_headNot rest H) as (H1 & H2 & _). auto.
Qed.

(** A greedy class takes all the digits when what follows them matches. *)
Lemma star_all (k : string -> option (string * string)) (ds rest m t : string) :
  allDigits ds = true -> headNot isDigit rest -> k rest = Some (m, t) ->
  star isDigit k (ds ++ rest) = Some (ds ++ m, t).
Proof.
  intros Hd Hr Hk. induction ds as [|d ds IH]; simpl in *.
  - destruct rest as [|c rest]; simpl in *; [exact Hk|]. now rewrite Hr.
  - apply andb_prop in Hd. destruct Hd as [Hd1 Hd2]. rewrite Hd1, (IH Hd2). reflexivity.
Qed.

Lemma match_var (v : bool) (rest : string) :
  termEnd rest -> matchHere reVar (varText v ++ rest) = Some (varText v, rest).
Proof.
  intros H. destruct v; [reflexivity|]. simpl.
  destruct (termEnd_headNot rest H) as (_ & _ & H3).
  destruct rest as [|c rest]; [reflexivity|]. simpl in H3. cbn. now rewrite H3.
Qed.

Lemma match_digits (f : string) (v : bool) (rest : string) :
  allDigits f = true -> f <> "" -> termEnd rest ->
  matchHere reDigits (f ++ varText v ++ rest) = Some (f ++ varText v, rest).
Proof.
  intros Hf Hne Hr. destruct f as [|c f]; [congruence|]. simpl in Hf.
  apply andb_prop in Hf. destruct Hf as [Hc Hf].
  cbn [append reDigits matchHere rep cls]. rewrite Hc.
  fold (matchHere reVar).
  rewrite (star_all (matchHere reVar) f (varText v ++ rest) (varText v) rest Hf
             (proj1 (varText_head v rest Hr)) (match_var v rest Hr)).
  reflexivity.
Qed.

Lemma match_digits_none (v : bool) (rest : string) :
  termEnd rest -> matchHere reDigits (varText v ++ rest) = None.
Proof.
  intros Hr. destruct (varText_head v rest Hr) as [H _].
  destruct (varText v ++ rest) as [|c s]; [reflexivity|]. simpl in H. cbn. now rewrite H.
Qed.

Lemma match_fraction_none (v : bool) (rest : string) :
  termEnd rest -> matchHere reFraction (varText v ++ rest) = None.
Proof.
  intros Hr. pose proof (match_digits_none v rest Hr) as Hn.
  destruct (varText_head v rest Hr) as [_ H].
  destruct (varText v ++ rest) as [|c s]; cbn [reFraction matchHere rep cls];
    fold (matchHere reDigits); [exact Hn|].
  simpl in H. now rewrite H.
Qed.

(** Digits and no point: the greedy class gives back its last digit. *)
Lemma match_integer (ds : string) (v : bool) (rest : string) :
  allDigits ds = true -> ds <> "" -> termEnd rest ->
  matchHere reNumber (ds ++ varText v ++ rest) = Some (ds ++ varText v, rest).
Proof.
  intros Hd Hne Hr. induction ds as [|d ds IH]; [congruence|].
  simpl in Hd. apply andb_prop in Hd. destruct Hd as [Hd1 Hd2].
  destruct (digit_char d Hd1) as (_ & Hdot & _).
  change (matchHere reNumber) with (star isDigit (matchHere reFraction)) in *.
  cbn [append star]. rewrite Hd1.
  destruct ds as [|d' ds].
  - cbn [append].
    assert (E : star isDigit (matchHere reFraction) (varText v ++ rest) = None).
    { pose proof (match_fraction_none v rest Hr) as Hn.
      destruct (varText_head v rest Hr) as [H _].
      destruct (varText v ++ rest) as [|c s]; cbn [star]; [exact Hn|].
      simpl in H. now rewrite H. }
    rewrite E. cbn [reFraction matchHere rep cls]. unfold isChar at 1.
    rewrite (Ascii.eqb_sym "." d), Hdot. fold (matchHere reDigits).
    exact (match_digits (String d "") v rest ltac:(simpl; now rewrite Hd1) ltac:(discriminate) Hr).
  - rewrite (IH Hd2 ltac:(discriminate)). reflexivity.
Qed.

(** Digits, a point and digits. *)
Lemma match_decimal (ds f : string) (v : bool) (rest : string) :
  allDigits ds = true -> allDigits f = true -> f <> "" -> termEnd rest ->
  matchHere reNumber (ds ++ "." ++ f ++ varText v ++ rest)
  = Some (ds ++ "." ++ f ++ varText v, rest).
Proof.
  intros Hd Hf Hne Hr.
  change (matchHere reNumber) with (star isDigit (matchHere reFraction)).
  apply star_all; [exact Hd|reflexivity|].
  cbn [append reFraction matchHere rep cls]. unfold isChar at 1. cbn [Ascii.eqb Bool.eqb].
  fold (matchHere reDigits). now rewrite (match_digits f v rest Hf Hne Hr).
Qed.

Lemma renderNumber_body (t : termText) :
  renderNumber t = renderSign (tt_sign t) ++ renderBody t.
Proof. reflexivity. Qed.

Lemma wellFormed_body (t : termText) :
  wellFormedTerm t = true ->
  renderBody t <> ""
  /\ headNot isSign (renderBody t) /\ headNot (isChar "p") (renderBody t)
  /\ allChars (fun c => isDigit c || Ascii.eqb c ".") (renderBody t) = true.
Proof.
  unfold wellFormedTerm, renderBody. intros H. apply andb_prop in H. destruct H as [Hi H].
  assert (Hall : allChars (fun c => isDigit c || Ascii.eqb c ".") (tt_int t) = true).
  { rewrite allDigits_allChars in Hi. eapply allChars_weaken; [|exact Hi].
    intros c ->. reflexivity. }
  destruct (tt_frac t) as [f|].
  - apply andb_prop in H. destruct H as [Hf _].
    assert (Hfall : allChars (fun c => isDigit c || Ascii.eqb c ".") f = true).
    { rewrite allDigits_allChars in Hf. eapply allChars_weaken; [|exact Hf].
      intros c ->. reflexivity. }
    destruct (tt_int t) as [|c s]; simpl in *.
    + repeat split; [discriminate|exact Hfall].
    + apply andb_prop in Hi. destruct Hi as [Hc _].
      destruct (digit_char c Hc) as (H1 & H2 & H3 & _). unfold isChar.
      rewrite (Ascii.eqb_sym "p" c). repeat split; try assumption; [discriminate|].
      apply andb_prop in Hall. destruct Hall as [-> Hall]. simpl.
      rewrite allChars_append, Hall. simpl. exact Hfall.
  - rewrite append_nil_r. destruct (tt_int t) as [|c s]; [discriminate H|]. simpl in *.
    apply andb_prop in Hi. destruct Hi as [Hc _].
    destruct (digit_char c Hc) as (H1 & H2 & H3 & _). unfold isChar.
    rewrite (Ascii.eqb_sym "p" c). repeat split; try assumption. discriminate.
Qed.

Lemma match_body (t : termText) (rest : string) :
  wellFormedTerm t = true -> termEnd rest ->
  matchHere reNumber (renderBody t ++ varText (tt_var t) ++ rest)
  = Some (renderBody t ++ varText (tt_var t), rest).
Proof.
  unfold wellFormedTerm, renderBody. intros H Hr.
  apply andb_prop in H. destruct H as [Hi H].
  destruct (tt_frac t) as [f|].
  - apply andb_prop in H. destruct H as [Hf Hne]. apply negb_true_iff in Hne.
    apply String.eqb_neq in Hne.
    pose proof (match_decimal (tt_int t) f (tt_var t) rest Hi Hf Hne Hr) as M.
    rewrite ?append_assoc. cbn [append] in *. rewrite ?append_assoc. exact M.
  - apply negb_true_iff, String.eqb_neq in H. rewrite append_nil_r.
    exact (match_integer (tt_int t) (tt_var t) rest Hi H Hr).
Qed.

(** The pattern matches a well-formed term whole when it is followed by
    nothing or by a sign. *)
Lemma match_term (t : termText) (rest : string) :
  wellFormedTerm t = true -> termEnd rest ->
  matchHere reTerm (renderTerm t ++ rest) = Some (renderTerm t, rest).
Proof.
  intros Hw Hr. pose proof (match_body t rest Hw Hr) as M.
  destruct (wellFormed_body t Hw) as (Hne & Hs & _).
  unfold renderTerm. rewrite renderNumber_body, !append_assoc.
  fold (varText (tt_var t)).
  change reTerm with (Atom isSign Opt :: reNumber).
  destruct (tt_sign t); cbn [renderSign append matchHere rep cls].
  - destruct (renderBody t) as [|c b] eqn:E; [congruence|]. cbn [append] in *.
    simpl in Hs. rewrite Hs. exact M.
  - cbn [isSign Ascii.eqb Bool.eqb orb andb]. change (isSign "+") with true. cbv iota.
    now rewrite M.
  - change (isSign "-") with true. cbv iota. now rewrite M.
Qed.

(** ** Tokenizing a sequence of terms *)

Lemma matchAll_skip (r : regex) (u rest : string) :
  matchAll r (length u) (u ++ rest) = matchAll r 0 rest.
Proof. induction u as [|c u IH]; [reflexivity|exact IH]. Qed.

Lemma matchAll_found (r : regex) (m rest : string) :
  m <> "" -> matchHere r (m ++ rest) = Some (m, rest) ->
  matchAll r 0 (m ++ rest) = m :: matchAll r 0 rest.
Proof.
  intros Hne Hm. destruct m as [|c m]; [congruence|].
  cbn [append] in Hm |- *. cbn [matchAll]. rewrite Hm. cbn [length pred].
  now rewrite matchAll_skip.
Qed.

Lemma renderTerm_not_empty (t : termText) : wellFormedTerm t = true -> renderTerm t <> "".
Proof.
  intros Hw. destruct (wellFormed_body t Hw) as (Hne & _).
  unfold renderTerm. rewrite renderNumber_body.
  destruct (tt_sign t); cbn [renderSign append]; try discriminate.
  destruct (renderBody t); [congruence|discriminate].
Qed.

Lemma signed_termEnd (t : termText) (rest : string) :
  signed t = true -> termEnd (renderTerm t ++ rest).
Proof.
  unfold signed, renderTerm, renderNumber. destruct (tt_sign t); [discriminate| |]; reflexivity.
Qed.

Lemma renderTerms_termEnd (ts : list termText) :
  forallb (fun u => wellFormedTerm u && signed u) ts = true -> termEnd (renderTerms ts).
Proof.
  destruct ts as [|t ts]; [intros; exact I|]. cbn [forallb renderTerms]. intros H.
  apply andb_prop in H. destruct H as [H _]. apply andb_prop in H.
  now apply signed_termEnd.
Qed.

Lemma matchAll_signed_terms (ts : list termText) :
  forallb (fun u => wellFormedTerm u && signed u) ts = true ->
  matchAll reTerm 0 (renderTerms ts) = map renderTerm ts.
Proof.
  induction ts as [|t ts IH]; [reflexivity|]. intros H.
  pose proof H as H'. cbn [forallb] in H. apply andb_prop in H. destruct H as [Ht Hts].
  apply andb_prop in Ht. destruct Ht as [Hw _].
  cbn [renderTerms map].
  rewrite matchAll_found, (IH Hts);
    [reflexivity|now apply renderTerm_not_empty|].
  apply match_term; [exact Hw|now apply renderTerms_termEnd].
Qed.

(** The first term is matched at the start of the text, the signed ones
    after it. *)
Lemma matchGlobal_terms (ts : list termText) :
  wellFormedTerms ts = true ->
  matchGlobal reTerm (renderTerms ts) = Some (map renderTerm ts).
Proof.
  destruct ts as [|t ts]; [discriminate|]. cbn [wellFormedTerms]. intros H.
  apply andb_prop in H. destruct H as [Hw Hts].
  unfold matchGlobal. cbn [renderTerms map].
  rewrite matchAll_found, (matchAll_signed_terms ts Hts);
    [reflexivity|now apply renderTerm_not_empty|].
  apply match_term; [exact Hw|now apply renderTerms_termEnd].
Qed.

(** X2.  Tokenizing the text of well-formed terms with the term pattern
    gives the terms back, one match each and in order: no term is split,
    merged with its neighbour or dropped. *)
Theorem tokenize_terms (ts : list termText) :
  wellFormedTerms ts = true ->
  matchGlobal reTerm (renderTerms ts) = Some (map renderTerm ts).
Proof. exact (matchGlobal_terms ts). Qed.

Lemma tokenize_terms_example :
  matchGlobal reTerm "50-3p+0.5" = Some ["50"; "-3p"; "+0.5"].
Proof.
  exact (tokenize_terms
           [ {| tt_sign := NoSign; tt_int := "50"; tt_frac := None; tt_var := false |};
             {| tt_sign := MinusSign; tt_int := "3"; tt_frac := None; tt_var := true |};
             {| tt_sign := PlusSign; tt_int := "0"; tt_frac := Some "5"; tt_var := false |} ]
           eq_refl).
Defined.

(** ** The parser on well-formed terms *)

Lemma termChars_fixed (s : string) :
  allChars termChar s = true -> stripSpaces s = s /\ toLowerCase s = s.
Proof.
  induction s as [|c s IH]; [split; reflexivity|]. cbn [allChars stripSpaces toLowerCase].
  intros H. apply andb_prop in H. destruct H as [Hc Hs].
  destruct (term_char c Hc) as [-> ->]. destruct (IH Hs) as [-> ->]. split; reflexivity.
Qed.

Lemma leadingP_none (f : string -> string) (s : string) :
  headNot (isChar "p") s -> replaceAtStart reLeadingP f s = s.
Proof.
  unfold replaceAtStart. destruct s as [|c s]; [reflexivity|]. cbn [headNot]. intros H.
  cbn [reLeadingP matchHere rep cls]. now rewrite H.
Qed.

Lemma signP_none (s : string) : noSignP s = true -> matchHere reSignP s = None.
Proof.
  destruct s as [|c [|d s]]; try rewrite noSignP_cons; cbn [reSignP matchHere rep cls]; intros H.
  - reflexivity.
  - destruct (isSign c); reflexivity.
  - apply andb_prop in H. destruct H as [H _]. apply negb_true_iff in H.
    destruct (isSign c); [|reflexivity]. cbn [andb] in H. unfold isChar.
    rewrite Ascii.eqb_sym, H. reflexivity.
Qed.

Lemma noSignP_cons (c d : ascii) (s : string) :
  noSignP (String c (String d s))
  = negb (isSign c && Ascii.eqb d "p") && noSignP (String d s).
Proof. reflexivity. Qed.

Lemma noSignP_tail (c : ascii) (s : string) : noSignP (String c s) = true -> noSignP s = true.
Proof.
  destruct s as [|d s]; [reflexivity|]. rewrite noSignP_cons. intros H.
  apply andb_prop in H. exact (proj2 H).
Qed.

Lemma replaceFirst_none (f : string -> string) (s : string) :
  noSignP s = true -> replaceFirst reSignP f s = s.
Proof.
  induction s as [|c s IH]; intros H; [reflexivity|].
  cbn [replaceFirst]. rewrite (signP_none _ H), (IH (noSignP_tail c s H)). reflexivity.
Qed.

Lemma leadingMinusP_none (f : string -> string) (s : string) :
  noSignP s = true -> replaceAtStart reLeadingMinusP f s = s.
Proof.
  unfold replaceAtStart.
  destruct s as [|c [|d s]]; try rewrite noSignP_cons; cbn [reLeadingMinusP matchHere rep cls];
    intros H.
  - reflexivity.
  - destruct (isChar "-" c); reflexivity.
  - apply andb_prop in H. destruct H as [H _]. apply negb_true_iff in H.
    unfold isChar. destruct (Ascii.eqb_spec "-" c) as [<-|]; [|reflexivity].
    change (isSign "-") with true in H. cbn [andb] in H.
    rewrite Ascii.eqb_sym, H. reflexivity.
Qed.

Lemma noSignP_prefix (a b : string) :
  allChars notSign a = true -> noSignP b = true -> noSignP (a ++ b) = true.
Proof.
  induction a as [|c a IH]; [auto|]. cbn [allChars append]. intros H Hb.
  apply andb_prop in H. destruct H as [Hc Ha]. specialize (IH Ha Hb).
  destruct (a ++ b) as [|d s]; [reflexivity|]. rewrite noSignP_cons.
  unfold notSign in Hc. apply negb_true_iff in Hc. now rewrite Hc, IH.
Qed.

Lemma body_chars (t : termText) :
  wellFormedTerm t = true ->
  allChars notSign (renderBody t ++ varText (tt_var t)) = true
  /\ allChars notVar (renderBody t) = true
  /\ allChars termChar (renderBody t ++ varText (tt_var t)) = true.
Proof.
  intros Hw. destruct (wellFormed_body t Hw) as (_ & _ & _ & Hall).
  rewrite !allChars_append.
  assert (V1 : allChars notSign (varText (tt_var t)) = true) by (destruct (tt_var t); reflexivity).
  assert (V2 : allChars termChar (varText (tt_var t)) = true) by (destruct (tt_var t); reflexivity).
  rewrite V1, V2, !andb_true_r. repeat split; (eapply allChars_weaken; [|exact Hall]);
    intros c Hc; apply orb_prop in Hc; destruct Hc as [Hc | Hc].
  - unfold notSign. now rewrite (proj1 (digit_char c Hc)).
  - apply Ascii.eqb_eq in Hc. now subst c.
  - unfold notVar. now rewrite (proj1 (proj2 (proj2 (digit_char c Hc)))).
  - apply Ascii.eqb_eq in Hc. now subst c.
  - unfold termChar. now rewrite Hc.
  - unfold termChar. rewrite Hc. now rewrite !orb_true_r.
Qed.

Lemma renderTerm_parts (t : termText) :
  renderTerm t = renderSign (tt_sign t) ++ renderBody t ++ varText (tt_var t).
Proof. unfold renderTerm. now rewrite renderNumber_body, append_assoc. Qed.

Lemma renderTerm_shape (t : termText) (rest : string) :
  wellFormedTerm t = true ->
  (noSignP rest = true -> noSignP (renderTerm t ++ rest) = true)
  /\ headNot (isChar "p") (renderTerm t ++ rest)
  /\ allChars termChar (renderTerm t) = true.
Proof.
  intros Hw. destruct (body_chars t Hw) as (Hs & _ & Ht).
  destruct (wellFormed_body t Hw) as (Hne & _ & Hp & _).
  rewrite renderTerm_parts.
  assert (Hhead : headNot (isChar "p") ((renderBody t ++ varText (tt_var t)) ++ rest)).
  { destruct (renderBody t) as [|c b]; [congruence|]. exact Hp. }
  split; [|split].
  - intros Hr. pose proof (noSignP_prefix _ _ Hs Hr) as H.
    rewrite !append_assoc in *.
    destruct (tt_sign t); cbn [renderSign append]; [exact H| |];
      (destruct (renderBody t ++ varText (tt_var t) ++ rest) as [|d s] eqn:E; [reflexivity|];
       rewrite noSignP_cons; cbn [headNot] in Hhead; unfold isChar in Hhead;
       rewrite Ascii.eqb_sym in Hhead; rewrite Hhead, andb_false_r; exact H).
  - rewrite !append_assoc in *.
    destruct (tt_sign t); cbn [renderSign append headNot]; [exact Hhead| |]; reflexivity.
  - rewrite allChars_append, Ht.
    destruct (tt_sign t); reflexivity.
Qed.

Lemma renderTerms_shape (ts : list termText) :
  Forall (fun t => wellFormedTerm t = true) ts ->
  noSignP (renderTerms ts) = true
  /\ headNot (isChar "p") (renderTerms ts)
  /\ allChars termChar (renderTerms ts) = true.
Proof.
  induction 1 as [|t ts Hw _ IH]; [repeat split; reflexivity|].
  destruct IH as (IH1 & _ & IH3).
  destruct (renderTerm_shape t (renderTerms ts) Hw) as (H1 & H2 & H3).
  cbn [renderTerms]. rewrite allChars_append, H3, IH3. auto.
Qed.

Lemma wellFormedTerms_all (ts : list termText) :
  wellFormedTerms ts = true -> Forall (fun t => wellFormedTerm t = true) ts.
Proof.
  destruct ts as [|t ts]; [discriminate|]. cbn [wellFormedTerms]. intros H.
  apply andb_prop in H. destruct H as [Hw Hts]. constructor; [exact Hw|].
  rewrite forallb_forall in Hts. apply Forall_forall. intros u Hu.
  specialize (Hts u Hu). apply andb_prop in Hts. exact (proj1 Hts).
Qed.

Lemma includes_append (c : ascii) (a b : string) :
  includes c (a ++ b) = includes c a || includes c b.
Proof.
  induction a as [|d a IH]; [reflexivity|]. cbn [append includes].
  now rewrite IH, orb_assoc.
Qed.

Lemma includes_notVar (s : string) : allChars notVar s = true -> includes "p" s = false.
Proof.
  induction s as [|c s IH]; [reflexivity|]. cbn [allChars includes]. intros H.
  apply andb_prop in H. destruct H as [Hc Hs]. unfold notVar in Hc.
  apply negb_true_iff in Hc. rewrite (Ascii.eqb_sym "p" c), Hc. now apply IH.
Qed.

Lemma removeFirst_notVar (s : string) :
  allChars notVar s = true -> removeFirst "p" (s ++ "p") = s.
Proof.
  induction s as [|c s IH]; [reflexivity|]. cbn [allChars append removeFirst]. intros H.
  apply andb_prop in H. destruct H as [Hc Hs]. unfold notVar in Hc.
  apply negb_true_iff in Hc. rewrite (Ascii.eqb_sym "p" c), Hc. now rewrite IH.
Qed.

Lemma renderNumber_notVar (t : termText) :
  wellFormedTerm t = true -> allChars notVar (renderNumber t) = true.
Proof.
  intros Hw. destruct (body_chars t Hw) as (_ & Hv & _).
  rewrite renderNumber_body, allChars_append, Hv. destruct (tt_sign t); reflexivity.
Qed.

(** The number of a term is none of the three texts that the loop reads as
    a coefficient of one. *)
Lemma renderNumber_explicit (t : termText) :
  wellFormedTerm t = true ->
  String.eqb (renderNumber t) "+" = false /\ String.eqb (renderNumber t) "" = false
  /\ String.eqb (renderNumber t) "-" = false.
Proof.
  intros Hw. destruct (wellFormed_body t Hw) as (Hne & Hs & _).
  rewrite renderNumber_body.
  destruct (renderBody t) as [|c b]; [congruence|]. cbn [headNot] in Hs.
  destruct (tt_sign t); cbn [renderSign append String.eqb].
  - destruct (Ascii.eqb_spec c "+") as [->|]; [discriminate Hs|].
    destruct (Ascii.eqb_spec c "-") as [->|]; [discriminate Hs|]. auto.
  - cbn. auto.
  - cbn. auto.
Qed.

(** On the text of a well-formed term the loop body adds the value of its
    number to the slope or to the intercept. *)
Lemma addTerm_render (acc : float * float) (t : termText) :
  wellFormedTerm t = true -> addTerm acc (renderTerm t) = accumulate acc t.
Proof.
  intros Hw. destruct acc as [a b]. unfold addTerm, accumulate, renderTerm.
  pose proof (renderNumber_notVar t Hw) as Hv.
  destruct (renderNumber_explicit t Hw) as (E1 & E2 & E3).
  rewrite includes_append, (includes_notVar _ Hv).
  destruct (tt_var t).
  - cbn [includes orb Ascii.eqb Bool.eqb]. change (includes "p" "p") with true. cbv iota.
    rewrite (removeFirst_notVar _ Hv), E1, E2, E3. reflexivity.
  - rewrite append_nil_r. reflexivity.
Qed.

Lemma fold_addTerm (ts : list termText) : forall acc,
  Forall (fun t => wellFormedTerm t = true) ts ->
  fold_left addTerm (map renderTerm ts) acc = fold_left accumulate ts acc.
Proof.
  induction ts as [|t ts IH]; intros acc H; [reflexivity|].
  inversion H as [|? ? Hw Hts]; subst. cbn [map fold_left].
  rewrite (addTerm_render acc t Hw). now apply IH.
Qed.

(** The replacements leave the text of well-formed terms as it is, and the
    loop over its tokens is the fold of [accumulate]. *)
Lemma parseEquation_terms (ts : list termText) :
  wellFormedTerms ts = true ->
  parseEquation (renderTerms ts) =
  let sums := fold_left accumulate ts (0, 0) in
  {| slope := fst sums; intercept := snd sums;
     error := if isNaN (fst sums) || isNaN (snd sums) then Some invalidNumber else None |}.
Proof.
  intros H. pose proof (wellFormedTerms_all ts H) as Hall.
  destruct (renderTerms_shape ts Hall) as (H1 & H2 & H3).
  destruct (termChars_fixed _ H3) as [S L].
  unfold parseEquation.
  rewrite replaceAll_reSpace, S, L, leadingP_none, replaceFirst_none, leadingMinusP_none
    by assumption.
  rewrite (matchGlobal_terms ts H), (fold_addTerm ts (0, 0) Hall).
  destruct (fold_left accumulate ts (0, 0)) as [a b]. reflexivity.
Qed.

(** X3.  The parser on a well-formed sequence of terms: no replacement
    applies, the terms are the tokens, and each adds the value of its number
    to the slope if it carries the variable and to the intercept if not;
    the only error left is a sum that is NaN. *)
Theorem parse_terms (ts : list termText) :
  wellFormedTerms ts = true ->
  parseEquation (renderTerms ts) =
  let sums := fold_left accumulate ts (0, 0) in
  {| slope := fst sums; intercept := snd sums;
     error := if isNaN (fst sums) || isNaN (snd sums) then Some invalidNumber else None |}.
Proof. exact (parseEquation_terms ts). Qed.

Lemma parse_terms_example :
  parseEquation "50-3p" = {| slope := -3; intercept := 50; error := None |}.
Proof.
  exact (parse_terms
           [ {| tt_sign := NoSign; tt_int := "50"; tt_frac := None; tt_var := false |};
             {| tt_sign := MinusSign; tt_int := "3"; tt_frac := None; tt_var := true |} ]
           eq_refl).
Defined.

(** ** Input without a digit or a price variable *)

Lemma plain_lower (c : ascii) :
  plainChar c = true -> notDigit (lowerChar c) = true /\ notVar (lowerChar c) = true.
Proof.
  destruct c as [b0 b1 b2 b3 b4 b5 b6 b7].
  destruct b0, b1, b2, b3, b4, b5, b6, b7; intros H; try discriminate H;
    split; reflexivity.
Qed.

Lemma plain_normal (s : string) :
  allChars plainChar s = true ->
  allChars notDigit (toLowerCase (stripSpaces s)) = true
  /\ allChars notVar (toLowerCase (stripSpaces s)) = true.
Proof.
  induction s as [|c s IH]; [split; reflexivity|]. cbn [allChars stripSpaces]. intros H.
  apply andb_prop in H. destruct H as [Hc Hs]. destruct (IH Hs) as [IH1 IH2].
  destruct (isSpace c); [auto|]. cbn [toLowerCase allChars].
  destruct (plain_lower c Hc) as [-> ->]. auto.
Qed.

Lemma notVar_noSignP (s : string) : allChars notVar s = true -> noSignP s = true.
Proof.
  induction s as [|c s IH]; [reflexivity|]. cbn [allChars]. intros H.
  apply andb_prop in H. destruct H as [_ Hs]. specialize (IH Hs).
  destruct s as [|d s]; [reflexivity|]. rewrite noSignP_cons, IH.
  cbn [allChars] in Hs. apply andb_prop in Hs. destruct Hs as [Hd _].
  unfold notVar in Hd. apply negb_true_iff in Hd. now rewrite Hd, andb_false_r.
Qed.

Lemma notVar_head (s : string) : allChars notVar s = true -> headNot (isChar "p") s.
Proof.
  destruct s as [|c s]; [intros; exact I|]. cbn [allChars headNot]. intros H.
  apply andb_prop in H. destruct H as [Hc _]. unfold notVar in Hc.
  apply negb_true_iff in Hc. unfold isChar. now rewrite Ascii.eqb_sym.
Qed.

Lemma no_digit_no_number (s : string) :
  allChars notDigit s = true -> matchHere reNumber s = None.
Proof.
  change (matchHere reNumber) with (star isDigit (matchHere reFraction)).
  destruct s as [|c s]; [reflexivity|]. cbn [allChars]. intros H.
  apply andb_prop in H. destruct H as [Hc Hs]. unfold notDigit in Hc.
  apply negb_true_iff in Hc. cbn [star]. rewrite Hc.
  cbn [reFraction reDigits matchHere rep cls]. rewrite Hc.
  destruct (isChar "." c); [|reflexivity].
  destruct s as [|d s]; [reflexivity|]. cbn [allChars] in Hs.
  apply andb_prop in Hs. destruct Hs as [Hd _]. unfold notDigit in Hd.
  apply negb_true_iff in Hd. now rewrite Hd.
Qed.

Lemma no_digit_no_term (s : string) :
  allChars notDigit s = true -> matchHere reTerm s = None.
Proof.
  intros H. pose proof (no_digit_no_number s H) as N.
  change reTerm with (Atom isSign Opt :: reNumber).
  destruct s as [|c s]; cbn [matchHere rep cls]; [exact N|].
  cbn [allChars] in H. apply andb_prop in H. destruct H as [_ Hs].
  rewrite (no_digit_no_number s Hs), N. destruct (isSign c); reflexivity.
Qed.

Lemma no_digit_no_tokens (s : string) :
  allChars notDigit s = true -> matchAll reTerm 0 s = [].
Proof.
  induction s as [|c s IH]; intros H.
  - reflexivity.
  - cbn [matchAll]. rewrite (no_digit_no_term _ H).
    cbn [allChars] in H. apply andb_prop in H. now apply IH.
Qed.

(** X4.  An equation without any digit and without the price variable, the empty
    one included, is rejected with the format message, slope 0 and
    intercept 0. *)
Theorem parse_rejects_plain_text (s : string) :
  allChars plainChar s = true ->
  parseEquation s = {| slope := 0; intercept := 0; error := Some invalidFormat |}.
Proof.
  intros H. destruct (plain_normal s H) as [Hd Hv].
  unfold parseEquation.
  rewrite replaceAll_reSpace, leadingP_none, replaceFirst_none, leadingMinusP_none
    by (auto using notVar_noSignP, notVar_head).
  unfold matchGlobal. now rewrite no_digit_no_tokens.
Qed.

Lemma parse_rejects_empty :
  parseEquation "" = {| slope := 0; intercept := 0; error := Some invalidFormat |}
  /\ parseEquation "x + y" = {| slope := 0; intercept := 0; error := Some invalidFormat |}.
Proof.
  split; [exact (parse_rejects_plain_text "" eq_refl)|exact (parse_rejects_plain_text "x + y" eq_refl)].
Defined.

(** ** parseFloat on the number of a term *)

Lemma binary_round_not_nan (s : bool) (m : positive) (e : Z) :
  binary_round prec emax s m e <> S754_nan.
Proof.
  unfold binary_round. destruct (shl_align m e _) as [mz ez].
  apply binary_round_aux_not_nan. lia.
Qed.

Lemma binary_normalize_not_nan (m e : Z) (sz : bool) :
  binary_normalize prec emax m e sz <> S754_nan.
Proof.
  destruct m; simpl; [discriminate| |]; apply binary_round_not_nan.
Qed.

(** The number built from a specification value other than NaN is not NaN,
    whether the value is in range or not. *)
Lemma SF2Prim_not_nan (x : spec_float) : x <> S754_nan -> isNaN (SF2Prim x) = false.
Proof.
  intros Hx. destruct x as [s|s| |s m e]; try congruence.
  - destruct s; reflexivity.
  - destruct s; reflexivity.
  - assert (H : Prim2SF (Z.ldexp (of_uint63 (Uint63.of_Z (Zpos m))) e) <> S754_nan).
    { rewrite Z_ldexp_spec, of_uint63_spec.
      pose proof (binary_normalize_not_nan (Uint63.to_Z (Uint63.of_Z (Zpos m))) 0 false) as N.
      destruct (binary_normalize prec emax _ 0 false) as [s'|s'| |s' m' e']; simpl;
        try congruence. apply binary_round_not_nan. }
    apply isNaN_false. unfold SF2Prim. destruct s; [|exact H].
    rewrite opp_spec. destruct (Prim2SF _); simpl; congruence.
Qed.

Lemma ofRatio_not_nan (s : bool) (num den : Z) : isNaN (ofRatio s num den) = false.
Proof.
  unfold ofRatio. destruct num as [|n|n]; try (destruct s; reflexivity).
  apply SF2Prim_not_nan. unfold SFdiv, SFdiv_core_binary.
  set (m2 := Zpos (Z.to_pos den)).
  set (m' := match _ with Zpos _ => _ | Z0 => _ | Zneg _ => _ end).
  assert (Hm' : (0 <= m')%Z).
  { unfold m'. destruct (_ - _ - _)%Z; try lia. apply Z.shiftl_nonneg. lia. }
  pose proof (Z.div_pos m' m2 Hm' ltac:(unfold m2; lia)) as Hq.
  unfold Z.div in Hq. destruct (Z.div_eucl m' m2) as [q r].
  apply binary_round_aux_not_nan. exact Hq.
Qed.

Lemma readDigits_digits (ds : string) : forall (acc : Z) (n : nat) (rest : string),
  allDigits ds = true -> headNot isDigit rest ->
  exists v, readDigits acc n (ds ++ rest) = (v, (n + length ds)%nat, rest).
Proof.
  induction ds as [|d ds IH]; intros acc n rest Hd Hr.
  - exists acc. rewrite Nat.add_0_r. destruct rest as [|c rest]; [reflexivity|].
    cbn [append readDigits]. cbn [headNot] in Hr. now rewrite Hr.
  - cbn [allDigits] in Hd. apply andb_prop in Hd. destruct Hd as [Hd1 Hd2].
    cbn [append readDigits length]. rewrite Hd1.
    destruct (IH (10 * acc + digitVal d)%Z (S n) rest Hd2 Hr) as [v Hv].
    exists v. rewrite Hv. f_equal. f_equal. lia.
Qed.

(** On digits with or without a fraction, [parseFloat] finds a number. *)
Lemma readNumber_body (neg : bool) (t : termText) :
  wellFormedTerm t = true -> isNaN (readNumber neg (renderBody t)) = false.
Proof.
  unfold wellFormedTerm, renderBody, readNumber. intros H.
  apply andb_prop in H. destruct H as [Hi H].
  destruct (tt_frac t) as [f|].
  - apply andb_prop in H. destruct H as [Hf Hne]. apply negb_true_iff, String.eqb_neq in Hne.
    destruct (readDigits_digits (tt_int t) 0 0 ("." ++ f) Hi eq_refl) as [v ->].
    cbn [append].
    destruct (readDigits_digits f v 0 "" Hf I) as [w Hw]. rewrite append_nil_r in Hw.
    rewrite Hw. destruct f as [|c f]; [congruence|].
    match goal with
    | |- context [match ?n with O => _ | S _ => _ end] => destruct n eqn:E
    end; [cbn [length] in E; lia|].
    destruct (0 <=? _)%Z; apply ofRatio_not_nan.
  - apply negb_true_iff, String.eqb_neq in H. rewrite append_nil_r.
    destruct (readDigits_digits (tt_int t) 0 0 "" Hi I) as [v Hv].
    rewrite append_nil_r in Hv. rewrite Hv.
    destruct (tt_int t) as [|c s]; [congruence|].
    match goal with
    | |- context [match ?n with O => _ | S _ => _ end] => destruct n eqn:E
    end; [cbn [length] in E; lia|].
    destruct (0 <=? _)%Z; apply ofRatio_not_nan.
Qed.

(** After a digit or a point, or a sign followed by one, [parseFloat] is
    [readNumber]. *)
Lemma parseFloat_unsigned (c : ascii) (s : string) :
  isDigit c || Ascii.eqb c "." = true ->
  parseFloat (String c s) = readNumber false (String c s)
  /\ parseFloat (String "+" (String c s)) = readNumber false (String c s)
  /\ parseFloat (String "-" (String c s)) = readNumber true (String c s).
Proof.
  destruct c as [b0 b1 b2 b3 b4 b5 b6 b7].
  destruct b0, b1, b2, b3, b4, b5, b6, b7; intros H; try discriminate H;
    repeat split; reflexivity.
Qed.

Lemma parseFloat_number (t : termText) :
  wellFormedTerm t = true -> isNaN (parseFloat (renderNumber t)) = false.
Proof.
  intros Hw. pose proof (readNumber_body false t Hw) as N0.
  pose proof (readNumber_body true t Hw) as N1.
  destruct (wellFormed_body t Hw) as (Hne & _ & _ & Hall).
  rewrite renderNumber_body. destruct (renderBody t) as [|c b]; [congruence|].
  cbn [allChars] in Hall. apply andb_prop in Hall. destruct Hall as [Hc _].
  destruct (parseFloat_unsigned c b Hc) as (E0 & E1 & E2).
  destruct (tt_sign t); cbn [renderSign append]; congruence.
Qed.

Lemma add_zero_not_nan (x : float) : isNaN x = false -> isNaN (0 + x) = false.
Proof.
  rewrite !isNaN_false, add_spec. change (Prim2SF 0) with (S754_zero false).
  unfold SF64add. destruct (Prim2SF x) as [s|s| |s m e]; simpl; try congruence.
  destruct s; discriminate.
Qed.

(** X5.  A well-formed equation with one variable term and one constant term, in
    either order, is never rejected: its slope is the value of the first
    number and its intercept the value of the second, each added to 0. *)
Theorem parse_linear (u v : termText) :
  wellFormedTerms [u; v] = true -> tt_var u = negb (tt_var v) ->
  let a := if tt_var u then u else v in
  let b := if tt_var u then v else u in
  parseEquation (renderTerm u ++ renderTerm v) =
  {| slope := 0 + parseFloat (renderNumber a);
     intercept := 0 + parseFloat (renderNumber b);
     error := None |}.
Proof.
  intros H Hv a b. pose proof (wellFormedTerms_all _ H) as Hall.
  inversion Hall as [|? ? Hu Hall']; subst. inversion Hall' as [|? ? Hv' _]; subst.
  pose proof (parseEquation_terms [u; v] H) as P. cbn [renderTerms] in P.
  rewrite append_nil_r in P. rewrite P. cbn [fold_left accumulate fst snd]. subst a b.
  pose proof (add_zero_not_nan _ (parseFloat_number u Hu)) as Nu.
  pose proof (add_zero_not_nan _ (parseFloat_number v Hv')) as Nv.
  unfold accumulate. rewrite Hv. destruct (tt_var v); cbn [negb fst snd].
  - now rewrite Nu, Nv.
  - now rewrite Nu, Nv.
Qed.

Lemma parse_linear_example :
  parseEquation "2.5p-10" = {| slope := 2.5; intercept := -10; error := None |}.
Proof.
  exact (parse_linear
           {| tt_sign := NoSign; tt_int := "2"; tt_frac := Some "5"; tt_var := true |}
           {| tt_sign := MinusSign; tt_int := "10"; tt_frac := None; tt_var := false |}
           eq_refl eq_refl).
Defined.

(** ** Sums never give [-0] *)

Lemma binary_normalize_sum (m e : Z) :
  (emin <= e)%Z -> binary_normalize prec emax m e false <> S754_zero true.
Proof.
  intros He. destruct m as [|m|m]; simpl; [discriminate| |];
    pose proof (SpecFacts.binary_round_nonzero false m e He) as H0;
    pose proof (SpecFacts.binary_round_nonzero true m e He) as H1;
    intros E; rewrite E in *; assumption.
Qed.

Lemma SFadd_not_neg_zero (x y : spec_float) :
  valid_binary x = true -> valid_binary y = true ->
  x <> S754_zero true -> SFadd prec emax x y <> S754_zero true.
Proof.
  intros Vx Vy Hx.
  destruct x as [sx|sx| |sx mx ex], y as [sy|sy| |sy my ey]; simpl; try discriminate;
    try (destruct sx; try congruence; destruct sy; discriminate);
    try (destruct sx, sy; discriminate).
  apply binary_normalize_sum.
  destruct (SpecFacts.valid_finite _ _ _ Vx) as [_ Ex].
  destruct (SpecFacts.valid_finite _ _ _ Vy) as [_ Ey]. lia.
Qed.

Lemma SFsub_not_neg_zero (x y : spec_float) :
  valid_binary x = true -> valid_binary y = true ->
  x <> S754_zero true -> SFsub prec emax x y <> S754_zero true.
Proof.
  intros Vx Vy Hx.
  destruct x as [sx|sx| |sx mx ex], y as [sy|sy| |sy my ey]; simpl; try discriminate;
    try (destruct sx; try congruence; destruct sy; discriminate);
    try (destruct sx, sy; discriminate).
  apply binary_normalize_sum.
  destruct (SpecFacts.valid_finite _ _ _ Vx) as [_ Ex].
  destruct (SpecFacts.valid_finite _ _ _ Vy) as [_ Ey]. lia.
Qed.

Lemma add_not_neg_zero (x y : float) : notNegZero x -> notNegZero (x + y).
Proof.
  unfold notNegZero. rewrite add_spec.
  apply SFadd_not_neg_zero; apply Prim2SF_valid.
Qed.

Lemma sub_not_neg_zero (x y : float) : notNegZero x -> notNegZero (x - y).
Proof.
  unfold notNegZero. rewrite sub_spec.
  apply SFsub_not_neg_zero; apply Prim2SF_valid.
Qed.

(** Adding [+0] changes no number but [-0]. *)
Lemma add_zero_r (x : float) : notNegZero x -> x + 0 = x.
Proof.
  unfold notNegZero. intros H. apply Prim2SF_inj. rewrite add_spec.
  change (Prim2SF 0) with (S754_zero false). unfold SF64add.
  destruct (Prim2SF x) as [s|s| |s m e]; simpl; try reflexivity.
  destruct s; [congruence|reflexivity].
Qed.

Lemma addTerm_not_neg_zero (acc : float * float) (term : string) :
  notNegZero (fst acc) /\ notNegZero (snd acc) ->
  notNegZero (fst (addTerm acc term)) /\ notNegZero (snd (addTerm acc term)).
Proof.
  destruct acc as [a b]. cbn [fst snd]. intros [Ha Hb]. unfold addTerm.
  destruct (includes "p" term).
  - destruct (_ || _); [|destruct (String.eqb _ "-")]; cbn [fst snd];
      auto using add_not_neg_zero, sub_not_neg_zero.
  - cbn [fst snd]. auto using add_not_neg_zero.
Qed.

(** Neither sum of the parser is ever [-0]: both start from [+0]. *)
Lemma parse_not_neg_zero (eq : string) :
  notNegZero (slope (parseEquation eq)) /\ notNegZero (intercept (parseEquation eq)).
Proof.
  assert (Z0 : notNegZero 0) by (unfold notNegZero; discriminate).
  unfold parseEquation. destruct (matchGlobal reTerm _) as [terms|]; [|split; exact Z0].
  assert (H : forall acc, notNegZero (fst acc) /\ notNegZero (snd acc) ->
            notNegZero (fst (fold_left addTerm terms acc))
            /\ notNegZero (snd (fold_left addTerm terms acc))).
  { induction terms as [|t terms IH]; intros acc Hacc; [exact Hacc|].
    cbn [fold_left]. apply IH. now apply addTerm_not_neg_zero. }
  specialize (H (0, 0) (conj Z0 Z0)).
  destruct (fold_left addTerm terms (0, 0)) as [a b]. exact H.
Qed.

(** ** More fields of one run *)

Section Display.

Variable errorState : string.
Variables demandEq supplyEq : string.
Variables demandShift supplyShift : float.

Let parsedDemand := parseEquation demandEq.
Let parsedSupply := parseEquation supplyEq.
Let currentDemandShift := currentShift demandShift.
Let currentSupplyShift := currentShift supplyShift.
Let bD_shifted := intercept parsedDemand + currentDemandShift.
Let bS_shifted := intercept parsedSupply + currentSupplyShift.
Let found := equilibria parsedDemand parsedSupply bD_shifted bS_shifted.
Let r := calculateEquilibrium errorState demandEq supplyEq demandShift supplyShift.

Lemma run_display :
  newInitialEquilibrium r = showEquilibrium (snd (fst found))
  /\ newShiftedEquilibrium r = showEquilibrium (snd found).
Proof.
  unfold r, calculateEquilibrium;
  fold parsedDemand parsedSupply currentDemandShift currentSupplyShift;
  fold bD_shifted bS_shifted; fold found.
  destruct found as [[e i] sh].
  match goal with
  | |- context [sampleLoop ?a ?b ?c ?d ?st] => destruct (sampleLoop a b c d st) as [g t]
  end.
  split; reflexivity.
Qed.

Lemma run_dots :
  localEquilibriumDots r =
  ((match snd (fst found) with
    | Some (p, q) => [{| d_quantity := q; d_price := p; d_label := "E0" |}]
    | None => []
    end)
   ++ (match snd found with
       | Some (p, q) =>
           if strictNe currentDemandShift 0 || strictNe currentSupplyShift 0
           then [{| d_quantity := q; d_price := p; d_label := "E1" |}] else []
       | None => []
       end))%list.
Proof.
  unfold r, calculateEquilibrium;
  fold parsedDemand parsedSupply currentDemandShift currentSupplyShift;
  fold bD_shifted bS_shifted; fold found.
  destruct found as [[e i] sh].
  match goal with
  | |- context [sampleLoop ?a ?b ?c ?d ?st] => destruct (sampleLoop a b c d st) as [g t]
  end.
  reflexivity.
Qed.

(** The text that the branches leave in [localError] before the last test. *)
Lemma found_error :
  fst (fst found) =
  match error parsedDemand, error parsedSupply with
  | Some e, _ => demandErrorPrefix ++ e
  | None, Some e => supplyErrorPrefix ++ e
  | None, None =>
      if strictNe (slope parsedSupply - slope parsedDemand) 0 then "" else parallelSlopes
  end.
Proof.
  unfold found, equilibria, parsedDemand, parsedSupply. rewrite !truthy_error.
  destruct (error (parseEquation demandEq)), (error (parseEquation supplyEq)); reflexivity.
Qed.

(** With a parse error on either side both equilibria are absent. *)
Lemma found_none :
  error parsedDemand <> None \/ error parsedSupply <> None ->
  snd (fst found) = None /\ snd found = None.
Proof.
  unfold found, equilibria, parsedDemand, parsedSupply. rewrite !truthy_error.
  destruct (error (parseEquation demandEq)), (error (parseEquation supplyEq));
    cbn [notNull]; intros [H | H];
    try congruence; split; reflexivity.
Qed.

End Display.

(** ** Shifts of zero *)

Lemma currentShift_zero (x : float) :
  isNaN x || strictEq x 0 = true -> currentShift x = 0.
Proof. unfold currentShift, strictEq. now intros ->. Qed.

Lemma message_not_noValid (d s : parsed) (bD' bS' : float) :
  fst (fst (equilibria d s bD' bS')) <> noValidEquilibrium.
Proof.
  unfold equilibria.
  destruct (truthy (error d)); [cbn [fst]; unfold demandErrorPrefix; cbn; discriminate|].
  destruct (truthy (error s)); [cbn [fst]; unfold supplyErrorPrefix; cbn; discriminate|].
  cbn [fst]. destruct (strictNe _ 0); discriminate.
Qed.

(** X6.  When both shift inputs hold zero (or nothing, which reads as NaN), the
    shifted equilibrium is the original one, number for number and in its
    displayed form; the chart gets no second dot, and the message about
    shifts is not produced. *)
Theorem zero_shifts_same_equilibrium
  (errorState : string) (demandEq supplyEq : string) (demandShift supplyShift : float) :
  isNaN demandShift || strictEq demandShift 0 = true ->
  isNaN supplyShift || strictEq supplyShift 0 = true ->
  let r := calculateEquilibrium errorState demandEq supplyEq demandShift supplyShift in
  localPEShifted r = localPEInitial r
  /\ localQEShifted r = localQEInitial r
  /\ newShiftedEquilibrium r = newInitialEquilibrium r
  /\ (forall d, In d (localEquilibriumDots r) -> d_label d = "E0")
  /\ localError r <> noValidEquilibrium.
Proof.
  intros HD HS r.
  pose proof (currentShift_zero _ HD) as ZD. pose proof (currentShift_zero _ HS) as ZS.
  destruct (run_initial errorState demandEq supplyEq demandShift supplyShift) as [HP HQ].
  destruct (run_shifted errorState demandEq supplyEq demandShift supplyShift) as [HP' HQ'].
  destruct (run_display errorState demandEq supplyEq demandShift supplyShift) as [HN HN'].
  pose proof (run_dots errorState demandEq supplyEq demandShift supplyShift) as HDots.
  pose proof (run_error errorState demandEq supplyEq demandShift supplyShift) as HE.
  cbv zeta in HP, HQ, HP', HQ', HN, HN', HDots, HE.
  fold r in HP, HQ, HP', HQ', HN, HN', HDots, HE.
  rewrite ZD, ZS in *.
  rewrite (add_zero_r _ (proj2 (parse_not_neg_zero demandEq))) in *.
  rewrite (add_zero_r _ (proj2 (parse_not_neg_zero supplyEq))) in *.
  set (d := parseEquation demandEq) in *. set (s := parseEquation supplyEq) in *.
  assert (Same : snd (equilibria d s (intercept d) (intercept s))
                 = snd (fst (equilibria d s (intercept d) (intercept s)))).
  { unfold equilibria. destruct (truthy (error d)); [reflexivity|].
    destruct (truthy (error s)); reflexivity. }
  rewrite Same in *.
  split; [congruence|]. split; [congruence|]. split; [congruence|]. split.
  - intros x Hx. rewrite HDots in Hx. change (strictNe 0 0) with false in Hx.
    cbn [orb] in Hx.
    destruct (snd (fst (equilibria d s (intercept d) (intercept s)))) as [[p q]|];
      cbn in Hx; [|tauto]. destruct Hx as [<- | []]. reflexivity.
  - rewrite HE. change (strictNe 0 0) with false. rewrite !andb_false_r.
    apply message_not_noValid.
Qed.

Lemma zero_shifts_default :
  let r := calculateEquilibrium "" "-P + 16" "P + 4" nan 0 in
  localPEShifted r = Some 6 /\ localQEShifted r = Some 10
  /\ newShiftedEquilibrium r = Some {| price := "6.00"; quantity := "10.00" |}.
Proof.
  pose proof (zero_shifts_same_equilibrium "" "-P + 16" "P + 4" nan 0 eq_refl eq_refl) as H.
  cbv zeta in H |- *. destruct H as (H1 & H2 & H3 & _).
  rewrite H1, H2, H3. vm_compute. repeat split; reflexivity.
Defined.

(** ** When an error is reported *)

Lemma prefixed_not_empty (a : string) :
  demandErrorPrefix ++ a <> "" /\ supplyErrorPrefix ++ a <> "".
Proof. split; discriminate. Qed.

(** X7.  No error is reported exactly when both equations parse, the difference
    of the slopes is not zero, and an equilibrium exists or both shifts are
    zero. *)
Theorem no_error_exactly_when
  (errorState : string) (demandEq supplyEq : string) (demandShift supplyShift : float) :
  let d := parseEquation demandEq in
  let s := parseEquation supplyEq in
  let r := calculateEquilibrium errorState demandEq supplyEq demandShift supplyShift in
  localError r = "" <->
  error d = None /\ error s = None /\ strictNe (slope s - slope d) 0 = true
  /\ (notNull (localPEInitial r) || notNull (localPEShifted r)
      || negb (strictNe (currentShift demandShift) 0 || strictNe (currentShift supplyShift) 0))
     = true.
Proof.
  intros d s r.
  pose proof (run_error errorState demandEq supplyEq demandShift supplyShift) as HE.
  pose proof (found_error demandEq supplyEq demandShift supplyShift) as HF.
  cbv zeta in HE, HF. fold r d s in HE, HF. rewrite HF in HE. rewrite HE. clear HE HF.
  destruct (error d) as [e|].
  { cbn [String.eqb]. unfold demandErrorPrefix at 1. cbn [append String.eqb andb].
    split; [intros H; now apply prefixed_not_empty in H|intros (H & _); discriminate]. }
  destruct (error s) as [e|].
  { unfold supplyErrorPrefix at 1. cbn [append String.eqb andb].
    split; [intros H; now apply prefixed_not_empty in H|intros (_ & H & _); discriminate]. }
  destruct (strictNe (slope s - slope d) 0).
  - cbn [String.eqb andb].
    destruct (notNull (localPEInitial r)), (notNull (localPEShifted r)),
             (strictNe (currentShift demandShift) 0 || strictNe (currentShift supplyShift) 0);
      cbn; split; intros H; try discriminate; try tauto;
      destruct H as (_ & _ & _ & H); discriminate.
  - unfold parallelSlopes at 1. cbn [String.eqb andb].
    split; [discriminate|intros (_ & _ & H & _); discriminate].
Qed.

(** ** An equation that does not parse *)

Lemma nan_propagates (a b : float) :
  isNaN a = true \/ isNaN b = true ->
  isNaN (a - b) = true /\ isNaN (a / b) = true /\ isNaN (a + b) = true.
Proof.
  rewrite !isNaN_spec, sub_spec, div_spec, add_spec.
  destruct (Prim2SF a) as [s|s| |s m e], (Prim2SF b) as [s'|s'| |s' m' e'];
    intros [H | H]; try discriminate H; repeat split; reflexivity.
Qed.

Lemma nan_not_ge (a b : float) : isNaN a = true -> ge a b = false.
Proof.
  unfold ge. rewrite isNaN_spec, leb_spec. intros ->. unfold SFleb.
  destruct (Prim2SF b); reflexivity.
Qed.

(** A line whose slope is zero or NaN, or whose intercept is NaN, has no
    price at any quantity. *)
Lemma priceAt_none (a b q : float) :
  a = 0 \/ isNaN a = true \/ isNaN b = true -> priceAt a b q = None.
Proof.
  unfold priceAt. intros [-> | H]; [reflexivity|].
  assert (N : isNaN ((q - b) / a) = true).
  { destruct H as [H | H]; apply nan_propagates; auto.
    left. apply nan_propagates. auto. }
  rewrite (nan_not_ge _ 0 N), andb_false_r. reflexivity.
Qed.

(** An equation with an error has slope 0, or a sum that is NaN. *)
Lemma parse_error_values (eq : string) :
  error (parseEquation eq) <> None ->
  slope (parseEquation eq) = 0
  \/ isNaN (slope (parseEquation eq)) = true \/ isNaN (intercept (parseEquation eq)) = true.
Proof.
  unfold parseEquation. destruct (matchGlobal reTerm _) as [terms|]; [|now left].
  destruct (fold_left addTerm terms (0, 0)) as [a b]. cbn [error slope intercept].
  destruct (isNaN a) eqn:Ha; [auto|]. destruct (isNaN b) eqn:Hb; [auto|]. cbn. congruence.
Qed.

Lemma parse_error_no_price (eq : string) (shift q : float) :
  error (parseEquation eq) <> None ->
  priceAt (slope (parseEquation eq)) (intercept (parseEquation eq)) q = None
  /\ priceAt (slope (parseEquation eq)) (intercept (parseEquation eq) + shift) q = None.
Proof.
  intros H. destruct (parse_error_values eq H) as [E | [E | E]];
    split; apply priceAt_none; auto.
  right. right. apply nan_propagates. auto.
Qed.

(** X9.  An equation that does not parse draws no curve: at every sample of
    the chart its original and shifted prices are [null], and every row of
    the table shows N/A for it. *)
Theorem rejected_equation_has_no_curve
  (errorState : string) (demandEq supplyEq : string) (demandShift supplyShift : float) :
  let r := calculateEquilibrium errorState demandEq supplyEq demandShift supplyShift in
  (error (parseEquation demandEq) <> None ->
   (forall pt, In pt (graphDataPoints r) ->
      g_price_demanda_original pt = None /\ g_price_demanda_shifted pt = None)
   /\ (forall row, In row (tableDataPoints r) ->
      t_price_demanda_original row = "N/A" /\ t_price_demanda_shifted row = "N/A"))
  /\ (error (parseEquation supplyEq) <> None ->
      (forall pt, In pt (graphDataPoints r) ->
         g_price_oferta_original pt = None /\ g_price_oferta_shifted pt = None)
      /\ (forall row, In row (tableDataPoints r) ->
         t_price_oferta_original row = "N/A" /\ t_price_oferta_shifted row = "N/A")).
Proof.
  intros r.
  pose proof (run_graph errorState demandEq supplyEq demandShift supplyShift) as HG.
  destruct (run_table errorState demandEq supplyEq demandShift supplyShift) as [_ HT].
  cbv zeta in HG, HT. fold r in HG, HT. rewrite sampleLoop_points in HG.
  rewrite HG, HT. clear HG HT.
  split; intros H; split.
  - intros pt Hpt. apply in_map_iff in Hpt. destruct Hpt as (i & <- & _).
    cbn [samplePoint g_price_demanda_original g_price_demanda_shifted].
    apply parse_error_no_price. exact H.
  - intros row Hrow. apply in_map_iff in Hrow. destruct Hrow as (q & <- & _).
    cbn [tableRowOf t_price_demanda_original t_price_demanda_shifted].
    destruct (parse_error_no_price demandEq (currentShift demandShift) q H) as [-> ->].
    split; reflexivity.
  - intros pt Hpt. apply in_map_iff in Hpt. destruct Hpt as (i & <- & _).
    cbn [samplePoint g_price_oferta_original g_price_oferta_shifted].
    apply parse_error_no_price. exact H.
  - intros row Hrow. apply in_map_iff in Hrow. destruct Hrow as (q & <- & _).
    cbn [tableRowOf t_price_oferta_original t_price_oferta_shifted].
    destruct (parse_error_no_price supplyEq (currentShift supplyShift) q H) as [-> ->].
    split; reflexivity.
Qed.

Lemma rejected_demand_example :
  let r := calculateEquilibrium "" "abc" "P + 4" 0 0 in
  Forall (fun pt => g_price_demanda_original pt = None /\ g_price_demanda_shifted pt = None)
         (graphDataPoints r)
  /\ Forall (fun row => t_price_demanda_original row = "N/A"
                        /\ t_price_demanda_shifted row = "N/A")
            (tableDataPoints r).
Proof.
  assert (H : error (parseEquation "abc") <> None) by (vm_compute; discriminate).
  destruct (proj1 (rejected_equation_has_no_curve "" "abc" "P + 4" 0 0) H) as [G T].
  split; apply Forall_forall; assumption.
Defined.

(** ** The comparator of the sort

    [a - b > 0] holds exactly when [a > b]: the difference of two numbers is
    rounded from their exact difference and keeps its sign, and the order of
    the format is the order of the values. *)

Module OrderFacts.

Local Open Scope Z_scope.

Import SpecFacts.

Lemma digits2_pos_upper (m : positive) : Zpos m < 2 ^ Zpos (digits2_pos m).
Proof.
  induction m as [m IH|m IH|]; simpl digits2_pos; [| |reflexivity];
    rewrite Pos2Z.inj_succ, Z.pow_succ_r by lia; lia.
Qed.

(** Rounding a positive integer multiple of [2^e], [e >= emin], gives a
    value of the sign asked for. *)
Lemma binary_round_aux_signed (s : bool) (m : positive) (e : Z) (l : location) :
  emin <= e -> signedValue s (binary_round_aux prec emax s (Zpos m) e l).
Proof.
  intros He. unfold binary_round_aux.
  destruct (shr_fexp_pos m e l He) as [H1 H1'].
  destruct (shr_fexp prec emax (Zpos m) e l) as [mrs' e'] eqn:E1. simpl in H1, H1'.
  assert (Hr : 0 < round_nearest_even (shr_m mrs') (loc_of_shr_record mrs')).
  { destruct (loc_of_shr_record mrs') as [|[]]; simpl; try lia.
    destruct (Z.even (shr_m mrs')); lia. }
  destruct (round_nearest_even (shr_m mrs') (loc_of_shr_record mrs')) as [|m1|m1] eqn:E; try lia.
  destruct (shr_fexp_pos m1 e' loc_Exact H1') as [H2 _].
  destruct (shr_fexp prec emax (Zpos m1) e' loc_Exact) as [mrs'' e''] eqn:E2. simpl in H2.
  destruct (shr_m mrs''); try lia.
  destruct (e'' <=? emax - prec); reflexivity.
Qed.

Lemma binary_round_signed (s : bool) (m : positive) (e : Z) :
  emin <= e -> signedValue s (binary_round prec emax s m e).
Proof.
  intros He. unfold binary_round.
  pose proof (shl_align_exponent m e (fexp prec emax (Zpos (digits2_pos m) + e))) as Hs.
  destruct (shl_align m e (fexp prec emax (Zpos (digits2_pos m) + e))) as [mz ez]. simpl in Hs.
  apply binary_round_aux_signed. subst ez. unfold_fexp. lia.
Qed.

Lemma binary_normalize_positive (m e : Z) :
  emin <= e ->
  positive_value (binary_normalize prec emax m e false) = (0 <? m).
Proof.
  intros He. destruct m as [|m|m]; [reflexivity| |].
  - pose proof (binary_round_signed false m e He) as H. simpl.
    destruct (binary_round prec emax false m e) as [s|s| |s m' e']; simpl in H;
      try contradiction; subst; reflexivity.
  - pose proof (binary_round_signed true m e He) as H. simpl.
    destruct (binary_round prec emax true m e) as [s|s| |s m' e']; simpl in H;
      try contradiction; subst; reflexivity.
Qed.

(** Of two finite values the one with the smaller exponent has the smaller
    aligned mantissa. *)
Lemma aligned_lt (mx my : positive) (ex ey : Z) :
  fexp prec emax (Zpos (digits2_pos mx) + ex) = ex ->
  fexp prec emax (Zpos (digits2_pos my) + ey) = ey ->
  emin <= ex -> ex < ey ->
  Zpos mx < Zpos my * 2 ^ (ey - ex).
Proof.
  intros Cx Cy Ex Hlt.
  pose proof (digits2_pos_upper mx) as Ux. pose proof (digits2_pos_lower my) as Ly.
  assert (Dx : Zpos (digits2_pos mx) <= 53) by (unfold_fexp; lia).
  assert (Dy : Zpos (digits2_pos my) = 53) by (unfold_fexp; lia).
  rewrite Dy in Ly. change (2 ^ (53 - 1)) with 4503599627370496 in Ly.
  assert (Ux' : Zpos mx < 9007199254740992).
  { eapply Z.lt_le_trans; [exact Ux|]. change 9007199254740992 with (2 ^ 53).
    apply Z.pow_le_mono_r; lia. }
  assert (P : 2 <= 2 ^ (ey - ex)).
  { change 2 with (2 ^ 1) at 1. apply Z.pow_le_mono_r; lia. }
  nia.
Qed.

Lemma SFcompare_aligned (sx sy : bool) (mx my : positive) (ex ey : Z) :
  valid_binary (S754_finite sx mx ex) = true ->
  valid_binary (S754_finite sy my ey) = true ->
  let ez := Z.min ex ey in
  SFcompare (S754_finite sx mx ex) (S754_finite sy my ey)
  = Some (cond_Zopp sx (Zpos (fst (shl_align mx ex ez)))
          ?= cond_Zopp sy (Zpos (fst (shl_align my ey ez)))).
Proof.
  intros Vx Vy ez.
  destruct (valid_finite _ _ _ Vx) as [Cx Ex], (valid_finite _ _ _ Vy) as [Cy Ey].
  destruct (shl_align_spec mx ex ez ltac:(lia)) as (Ax & _).
  destruct (shl_align_spec my ey ez ltac:(lia)) as (Ay & _).
  rewrite Ax, Ay. clear Ax Ay. unfold ez. simpl SFcompare.
  change (Pos.compare_cont Eq mx my) with (Pos.compare mx my).
  assert (PX : 0 < Zpos mx * 2 ^ (ex - Z.min ex ey))
    by (apply Z.mul_pos_pos; [lia|apply Z.pow_pos_nonneg; lia]).
  assert (PY : 0 < Zpos my * 2 ^ (ey - Z.min ex ey))
    by (apply Z.mul_pos_pos; [lia|apply Z.pow_pos_nonneg; lia]).
  destruct (Z.compare_spec ex ey) as [E | L | G].
  - subst ey. rewrite Z.min_id, Z.sub_diag, !Z.mul_1_r in *.
    destruct sx, sy; unfold cond_Zopp; f_equal;
      destruct (Pos.compare_spec mx my); simpl CompOpp; symmetry;
      first [apply Z.compare_eq_iff | apply Z.compare_lt_iff | apply Z.compare_gt_iff]; lia.
  - pose proof (aligned_lt mx my ex ey Cx Cy Ex L) as A.
    rewrite Z.min_l, Z.sub_diag, Z.mul_1_r in * by lia.
    destruct sx, sy; unfold cond_Zopp; f_equal; symmetry;
      first [apply Z.compare_lt_iff | apply Z.compare_gt_iff]; lia.
  - pose proof (aligned_lt my mx ey ex Cy Cx Ey ltac:(lia)) as A.
    rewrite Z.min_r, Z.sub_diag, Z.mul_1_r in * by lia.
    destruct sx, sy; unfold cond_Zopp; f_equal; symmetry;
      first [apply Z.compare_lt_iff | apply Z.compare_gt_iff]; lia.
Qed.

(** On values that are not NaN, the difference is above zero exactly when
    the first is above the second. *)
Lemma SFsub_positive (x y : spec_float) :
  valid_binary x = true -> valid_binary y = true ->
  x <> S754_nan -> y <> S754_nan ->
  positive_value (SFsub prec emax x y) = SFltb y x.
Proof.
  intros Vx Vy Hx Hy.
  destruct x as [sx|sx| |sx mx ex], y as [sy|sy| |sy my ey]; try congruence;
    try (destruct sx, sy; reflexivity); try (destruct sx; reflexivity);
    try (destruct sy; reflexivity).
  destruct (valid_finite _ _ _ Vx) as [_ Ex], (valid_finite _ _ _ Vy) as [_ Ey].
  unfold SFsub. rewrite binary_normalize_positive by lia.
  unfold SFltb. rewrite (SFcompare_aligned sy sx my mx ey ex Vy Vx).
  rewrite (Z.min_comm ey ex).
  set (A := cond_Zopp sx _). set (B := cond_Zopp sy _).
  destruct (Z.compare_spec B A); destruct (Z.ltb_spec 0 (A - B)); try reflexivity; lia.
Qed.

End OrderFacts.

Lemma sub_positive (a b : float) :
  isNaN a = false -> isNaN b = false -> gt (a - b) 0 = gt a b.
Proof.
  unfold gt. rewrite !isNaN_false, !ltb_spec, sub_spec.
  change (Prim2SF 0) with (S754_zero false). intros Ha Hb.
  exact (OrderFacts.SFsub_positive _ _ (Prim2SF_valid a) (Prim2SF_valid b) Ha Hb).
Qed.

(** ** The table quantities are in ascending order *)

Lemma insertSorted_perm (cmp : float -> float -> float) (x : float) (l : list float) :
  Permutation (x :: l) (insertSorted cmp x l).
Proof.
  induction l as [|y l IH]; cbn [insertSorted]; [reflexivity|].
  destruct (gt (cmp y x) 0); [reflexivity|].
  rewrite perm_swap. now constructor.
Qed.

Lemma sortBy_perm (cmp : float -> float -> float) (l : list float) :
  Permutation l (sortBy cmp l).
Proof.
  unfold sortBy.
  assert (H : forall acc, Permutation (acc ++ l)%list
                (fold_left (fun acc x => insertSorted cmp x acc) l acc)).
  { induction l as [|x l IH]; intros acc; cbn [fold_left].
    - now rewrite app_nil_r.
    - eapply Permutation_trans; [|apply IH].
      eapply Permutation_trans; [apply Permutation_sym, Permutation_middle|].
      apply (Permutation_app_tail l (insertSorted_perm cmp x acc)). }
  exact (H []).
Qed.

Lemma numLe_trans : Relations_1.Transitive numLe.
Proof. intros a b c H1 H2. unfold numLe in *. eapply ge_trans; eassumption. Qed.

Section Insertion.

Let cmp := fun a b : float => a - b.

Lemma insertSorted_hd (x y : float) (l : list float) :
  numLe y x -> HdRel numLe y l -> HdRel numLe y (insertSorted cmp x l).
Proof.
  intros Hyx Hl. destruct l as [|z l]; cbn [insertSorted]; [now constructor|].
  destruct (gt (cmp z x) 0); constructor; [exact Hyx|].
  now inversion Hl.
Qed.

Lemma insertSorted_sorted (x : float) (l : list float) :
  isNaN x = false -> Forall notNaN l ->
  Sorted numLe l -> Sorted numLe (insertSorted cmp x l).
Proof.
  intros Hx Hl Hs. induction l as [|y l IH]; cbn [insertSorted].
  - repeat constructor.
  - inversion Hl as [|? ? Hy Hl']; subst. inversion Hs as [|? ? Hs' Hd]; subst.
    unfold cmp at 1. rewrite (sub_positive y x Hy Hx).
    destruct (gt y x) eqn:E.
    + constructor; [exact Hs|]. constructor. unfold numLe. now apply ge_of_gt.
    + constructor; [now apply IH|]. apply insertSorted_hd; [|exact Hd].
      unfold numLe. apply ge_of_not_lt; assumption.
Qed.

Lemma sortBy_sorted (l : list float) :
  Forall notNaN l -> Sorted numLe (sortBy cmp l).
Proof.
  unfold sortBy. intros Hl.
  assert (H : forall acc, Forall notNaN acc -> Sorted numLe acc ->
            Sorted numLe (fold_left (fun acc x => insertSorted cmp x acc) l acc)).
  { induction l as [|x l IH]; intros acc Ha Hs; cbn [fold_left]; [exact Hs|].
    inversion Hl as [|? ? Hx Hl']; subst. apply IH; [exact Hl'| |].
    - eapply Permutation_Forall; [apply insertSorted_perm|]. now constructor.
    - now apply insertSorted_sorted. }
  apply H; constructor.
Qed.

End Insertion.

(** Two stored numbers that compare equal are the same number. *)
Lemma storable_eq (a b : float) :
  storable a -> storable b -> strictEq a b = true -> a = b.
Proof.
  unfold storable, notNegZero, strictEq. rewrite eqb_spec. unfold SFeqb.
  intros [_ Ha] [_ Hb] H. apply Prim2SF_inj.
  destruct (Prim2SF a) as [s|s| |s m e], (Prim2SF b) as [s'|s'| |s' m' e'];
    simpl in H; try discriminate;
    repeat match goal with x : bool |- _ => destruct x end;
    try congruence; try discriminate.
  - destruct (Z.compare_spec e e'); try discriminate.
    change (Pos.compare_cont Eq m m') with (Pos.compare m m') in H.
    destruct (Pos.compare_spec m m'); try discriminate. congruence.
  - destruct (Z.compare_spec e e'); try discriminate.
    change (Pos.compare_cont Eq m m') with (Pos.compare m m') in H.
    destruct (Pos.compare_spec m m'); try discriminate. congruence.
Qed.

Lemma numLt_of_numLe (a b : float) :
  storable a -> storable b -> numLe a b -> a <> b -> numLt a b.
Proof.
  intros Sa Sb Hle Hne. unfold numLe, numLt, ge in *.
  destruct (a <? b) eqn:E; [reflexivity|]. exfalso. apply Hne.
  apply storable_eq; try assumption. unfold strictEq.
  rewrite leb_spec in Hle. rewrite ltb_spec in E. rewrite eqb_spec.
  unfold SFleb, SFltb, SFeqb in *.
  destruct (SFcompare (Prim2SF a) (Prim2SF b)) as [[]|]; congruence.
Qed.

Lemma strictly_sorted (l : list float) :
  Forall storable l -> NoDup l -> StronglySorted numLe l -> StronglySorted numLt l.
Proof.
  induction l as [|a l IH]; intros Hs Hn Hl; [constructor|].
  inversion Hs as [|? ? Sa Hs']; subst. inversion Hn as [|? ? Hnin Hn']; subst.
  inversion Hl as [|? ? Hl' Ha]; subst.
  constructor; [now apply IH|].
  rewrite Forall_forall in *. intros b Hb.
  apply numLt_of_numLe; auto. intros ->. contradiction.
Qed.

(** *** What the set holds *)

Lemma normal_zero_storable (x : float) :
  isNaN x = false -> storable (if is_zero x then zero else x).
Proof.
  intros Hx. destruct (is_zero x) eqn:Z.
  - split; [reflexivity|]. unfold notNegZero. discriminate.
  - split; [exact Hx|]. unfold notNegZero. intros E.
    unfold is_zero in Z. rewrite eqb_spec, E in Z. discriminate.
Qed.

Lemma setAdd_invariant (x : float) (s : list float) :
  isNaN x = false -> Forall storable s -> NoDup s ->
  Forall storable (setAdd x s) /\ NoDup (setAdd x s).
Proof.
  intros Hx Hs Hn. unfold setAdd. destruct (existsb (sameValueZero x) s) eqn:E; [auto|].
  pose proof (normal_zero_storable x Hx) as Sx.
  split.
  - apply Forall_app. split; [exact Hs|]. constructor; [exact Sx|constructor].
  - apply NoDup_app; [exact Hn|repeat constructor; intros []|].
    intros a Ha [<- | []].
    assert (F : sameValueZero x (if is_zero x then zero else x) = false).
    { apply not_true_is_false. intros T.
      assert (Ex : existsb (sameValueZero x) s = true)
        by (apply existsb_exists; eauto). congruence. }
    unfold sameValueZero in F. apply orb_false_elim in F. destruct F as [F _].
    destruct (is_zero x) eqn:Z; [unfold is_zero in Z; congruence|].
    unfold isNaN in Hx. apply negb_false_iff in Hx. congruence.
Qed.

Lemma addQuantity_invariant (o : option float) (s : list float) :
  (forall q, o = Some q -> isNaN q = false) -> Forall storable s -> NoDup s ->
  Forall storable (addQuantity o s) /\ NoDup (addQuantity o s).
Proof.
  intros Ho Hs Hn. destruct o as [q|]; [|auto]. apply setAdd_invariant; auto.
Qed.

Lemma Math_round_not_nan (q : float) : isNaN q = false -> isNaN (Math_round q) = false.
Proof.
  intros Hq. unfold Math_round. destruct (Prim2SF q) as [s|s| |s m e] eqn:E; try exact Hq.
  destruct (0 <=? e)%Z; [exact Hq|].
  destruct ((2 * cond_Zopp s (Zpos m) + 2 ^ (- e)) / 2 ^ (1 - e))%Z eqn:N.
  - destruct s; reflexivity.
  - apply SF2Prim_not_nan, binary_normalize_not_nan.
  - apply SF2Prim_not_nan, binary_normalize_not_nan.
Qed.

(** A sample that is NaN is never offered to the table. *)
Lemma sample_tested (q : float) :
  (rem q 5 =? 0) || (Math_abs (q - Math_round q) <? EPSILON * 10) = true ->
  isNaN q = false.
Proof.
  intros H. destruct (isNaN q) eqn:N; [|reflexivity]. exfalso.
  pose proof N as N'. apply isNaN_spec in N'.
  assert (R : rem q 5 = nan) by (unfold rem; now rewrite N').
  assert (A : isNaN (q - Math_round q) = true) by (apply nan_propagates; auto).
  apply isNaN_spec in A.
  rewrite R in H. change (nan =? 0) with false in H. cbn [orb] in H.
  unfold Math_abs in H. rewrite ltb_spec, abs_spec, A in H. discriminate.
Qed.

Section TableSet.

Variables parsedDemand parsedSupply : parsed.
Variables bD_shifted bS_shifted stepGraph : float.

Lemma sampleStep_invariant (st : list graphPoint * list float) (i : nat) :
  Forall storable (snd st) /\ NoDup (snd st) ->
  Forall storable
    (snd (sampleStep parsedDemand parsedSupply bD_shifted bS_shifted stepGraph st i))
  /\ NoDup (snd (sampleStep parsedDemand parsedSupply bD_shifted bS_shifted stepGraph st i)).
Proof.
  destruct st as [g t]. cbn [snd]. intros [Hs Hn]. unfold sampleStep.
  match goal with
  | |- context [if ?c then _ else _] => destruct c eqn:E
  end; cbn [snd]; [|auto].
  apply setAdd_invariant; auto. apply Math_round_not_nan. now apply sample_tested.
Qed.

Lemma sampleLoop_invariant :
  Forall storable
    (snd (sampleLoop parsedDemand parsedSupply bD_shifted bS_shifted stepGraph))
  /\ NoDup (snd (sampleLoop parsedDemand parsedSupply bD_shifted bS_shifted stepGraph)).
Proof.
  unfold sampleLoop.
  assert (H : forall l st, Forall storable (snd st) /\ NoDup (snd st) ->
            Forall storable
              (snd (fold_left
                      (sampleStep parsedDemand parsedSupply bD_shifted bS_shifted stepGraph)
                      l st))
            /\ NoDup
                 (snd (fold_left
                         (sampleStep parsedDemand parsedSupply bD_shifted bS_shifted stepGraph)
                         l st))).
  { induction l as [|i l IH]; intros st Hst; [exact Hst|].
    cbn [fold_left]. apply IH. now apply sampleStep_invariant. }
  apply H. cbn [snd]. split; constructor.
Qed.

End TableSet.

(** X10.  The rows of the table are in strictly ascending order of quantity: no
    quantity appears twice, and none is NaN. *)
Theorem table_quantities_ascending
  (errorState : string) (demandEq supplyEq : string) (demandShift supplyShift : float) :
  let r := calculateEquilibrium errorState demandEq supplyEq demandShift supplyShift in
  StronglySorted numLt (sortedTableQuantities r)
  /\ NoDup (sortedTableQuantities r)
  /\ Forall notNaN (sortedTableQuantities r).
Proof.
  intros r.
  destruct (run_table errorState demandEq supplyEq demandShift supplyShift) as [HS _].
  destruct (run_valid_pairs errorState demandEq supplyEq demandShift supplyShift) as [V0 V1].
  cbv zeta in HS. fold r in HS, V0, V1.
  set (raw := addQuantity _ (addQuantity _ _)) in HS.
  assert (Inv : Forall storable raw /\ NoDup raw).
  { unfold raw. apply addQuantity_invariant.
    - intros q Hq. rewrite Hq in V1. destruct (localPEShifted r); simpl in V1; tauto.
    - apply addQuantity_invariant; try apply sampleLoop_invariant.
      intros q Hq. rewrite Hq in V0. destruct (localPEInitial r); simpl in V0; tauto.
    - apply addQuantity_invariant; try apply sampleLoop_invariant.
      intros q Hq. rewrite Hq in V0. destruct (localPEInitial r); simpl in V0; tauto. }
  destruct Inv as [Hst Hnd].
  pose proof (sortBy_perm (fun a b => a - b) raw) as P. rewrite <- HS in P.
  assert (Hst' : Forall storable (sortedTableQuantities r))
    by (eapply Permutation_Forall; eassumption).
  assert (Hnd' : NoDup (sortedTableQuantities r))
    by (eapply Permutation_NoDup; eassumption).
  assert (Hnn : Forall notNaN raw).
  { eapply Forall_impl; [|exact Hst]. intros a [Ha _]. exact Ha. }
  split; [|split; [exact Hnd'|]].
  - apply strictly_sorted; [exact Hst'|exact Hnd'|].
    apply Sorted_StronglySorted; [exact numLe_trans|].
    rewrite HS. now apply sortBy_sorted.
  - eapply Forall_impl; [|exact Hst']. intros a [Ha _]. exact Ha.
Qed.

(** ** An error hides the equilibrium *)

Lemma equilibria_message (d s : parsed) (bD' bS' : float) :
  fst (fst (equilibria d s bD' bS')) <> "" ->
  snd (fst (equilibria d s bD' bS')) = None /\ snd (equilibria d s bD' bS') = None.
Proof.
  unfold equilibria.
  destruct (truthy (error d)); [split; reflexivity|].
  destruct (truthy (error s)); [split; reflexivity|].
  cbn [fst snd]. unfold solve. destruct (strictNe (slope s - slope d) 0).
  - intros H. now contradiction H.
  - split; reflexivity.
Qed.

(** X8.  Whenever a run reports an error, of any of the four kinds, it reports no
    equilibrium: the four locals are [null], neither displayed equilibrium
    is set, and the chart gets no dot. *)
Theorem error_hides_equilibrium
  (errorState : string) (demandEq supplyEq : string) (demandShift supplyShift : float) :
  let r := calculateEquilibrium errorState demandEq supplyEq demandShift supplyShift in
  localError r <> "" ->
  localPEInitial r = None /\ localQEInitial r = None
  /\ localPEShifted r = None /\ localQEShifted r = None
  /\ newInitialEquilibrium r = None /\ newShiftedEquilibrium r = None
  /\ localEquilibriumDots r = [].
Proof.
  intros r Herr.
  destruct (run_initial errorState demandEq supplyEq demandShift supplyShift) as [HP HQ].
  destruct (run_shifted errorState demandEq supplyEq demandShift supplyShift) as [HP' HQ'].
  destruct (run_display errorState demandEq supplyEq demandShift supplyShift) as [HN HN'].
  pose proof (run_dots errorState demandEq supplyEq demandShift supplyShift) as HDots.
  pose proof (run_error errorState demandEq supplyEq demandShift supplyShift) as HE.
  cbv zeta in HP, HQ, HP', HQ', HN, HN', HDots, HE.
  fold r in HP, HQ, HP', HQ', HN, HN', HDots, HE.
  set (f := equilibria _ _ _ _) in *.
  assert (K : snd (fst f) = None /\ snd f = None).
  { destruct (String.eqb (fst (fst f)) "") eqn:E.
    - rewrite HP, HP' in HE. cbn [andb] in HE.
      destruct (snd (fst f)) as [[p q]|], (snd f) as [[p' q']|]; cbn in HE;
        try (apply String.eqb_eq in E; congruence).
      split; reflexivity.
    - apply String.eqb_neq in E. now apply equilibria_message. }
  destruct K as [K0 K1]. rewrite K0, K1 in *.
  repeat split; assumption.
Qed.

Lemma error_hides_parallel :
  let r := calculateEquilibrium "" "2P + 1" "2P + 3" 0 0 in
  localError r = parallelSlopes
  /\ newInitialEquilibrium r = None /\ newShiftedEquilibrium r = None
  /\ localEquilibriumDots r = [].
Proof.
  split; [vm_compute; reflexivity|].
  assert (H : localError (calculateEquilibrium "" "2P + 1" "2P + 3" 0 0) <> "")
    by (vm_compute; discriminate).
  destruct (error_hides_equilibrium "" "2P + 1" "2P + 3" 0 0 H) as (_ & _ & _ & _ & A & B & C).
  repeat split; assumption.
Defined.

(** ** No quantity below zero *)

Lemma notNegative_spec (x : float) : notNegative x <-> sf_not_neg (Prim2SF x) = true.
Proof.
  unfold notNegative. rewrite ltb_spec.
  destruct (Prim2SF x) as [[]|[]| |[] m e]; cbv; split; congruence.
Qed.

Lemma binary_round_aux_not_neg (m e : Z) (l : location) :
  sf_not_neg (binary_round_aux prec emax false m e l) = true.
Proof.
  unfold binary_round_aux.
  destruct (shr_fexp prec emax m e l) as [mrs' e'].
  destruct (shr_fexp prec emax _ e' loc_Exact) as [mrs'' e''].
  destruct (shr_m mrs''); try reflexivity.
  destruct (e'' <=? emax - prec)%Z; reflexivity.
Qed.

Lemma binary_round_not_neg (m : positive) (e : Z) :
  sf_not_neg (binary_round prec emax false m e) = true.
Proof.
  unfold binary_round. destruct (shl_align m e _) as [mz ez].
  apply binary_round_aux_not_neg.
Qed.

Lemma binary_normalize_not_neg (m e : Z) :
  (0 <= m)%Z -> sf_not_neg (binary_normalize prec emax m e false) = true.
Proof.
  intros Hm. destruct m as [|m|m]; [reflexivity| |lia].
  apply binary_round_not_neg.
Qed.

Lemma SF2Prim_not_neg (x : spec_float) :
  sf_not_neg x = true -> notNegative (SF2Prim x).
Proof.
  intros Hx. destruct x as [s|s| |s m e].
  - destruct s; reflexivity.
  - destruct s; [discriminate|reflexivity].
  - reflexivity.
  - destruct s; [discriminate|]. apply notNegative_spec. unfold SF2Prim.
    rewrite Z_ldexp_spec, of_uint63_spec.
    assert (N : sf_not_neg
                  (binary_normalize prec emax (Uint63.to_Z (Uint63.of_Z (Zpos m))) 0 false)
                = true).
    { apply binary_normalize_not_neg. apply Uint63.to_Z_bounded. }
    destruct (binary_normalize prec emax _ 0 false) as [s'|s'| |s' m' e']; simpl;
      try exact N.
    destruct s'; [discriminate|]. apply binary_round_not_neg.
Qed.

Lemma ofNat_not_neg (n : nat) : notNegative (ofNat n).
Proof.
  unfold ofNat, ofZ. apply SF2Prim_not_neg, binary_normalize_not_neg. lia.
Qed.

Lemma mul_not_neg (x y : float) : notNegative x -> notNegative y -> notNegative (x * y).
Proof.
  rewrite !notNegative_spec, mul_spec. unfold SF64mul, SFmul.
  destruct (Prim2SF x) as [[]|[]| |[] m e], (Prim2SF y) as [[]|[]| |[] m' e'];
    simpl; intros Hx Hy; try discriminate; try reflexivity.
  apply binary_round_aux_not_neg.
Qed.

Lemma div_not_neg (x c : float) (m : positive) (e : Z) :
  Prim2SF c = S754_finite false m e -> notNegative x -> notNegative (x / c).
Proof.
  rewrite !notNegative_spec, div_spec. intros ->. unfold SF64div, SFdiv.
  destruct (Prim2SF x) as [[]|[]| |[] mx ex]; simpl; intros Hx;
    try discriminate; try reflexivity.
  destruct (SFdiv_core_binary prec emax (Zpos mx) ex (Zpos m) e) as [[mz ez] lz].
  apply binary_round_aux_not_neg.
Qed.

Lemma add_zero_not_neg (x : float) : notNegative x -> notNegative (0 + x).
Proof.
  rewrite !notNegative_spec, add_spec. unfold SF64add, SFadd.
  change (Prim2SF 0) with (S754_zero false).
  destruct (Prim2SF x) as [[]|[]| |[] m e]; simpl; intros Hx;
    try discriminate; reflexivity.
Qed.

Lemma sub_zero_not_neg (x : float) : notNegative x -> notNegative (x - 0).
Proof.
  rewrite !notNegative_spec, sub_spec. unfold SF64sub, SFsub.
  change (Prim2SF 0) with (S754_zero false).
  destruct (Prim2SF x) as [[]|[]| |[] m e]; simpl; intros Hx;
    try discriminate; reflexivity.
Qed.

Lemma Math_round_not_neg (x : float) : notNegative x -> notNegative (Math_round x).
Proof.
  intros Hx. unfold Math_round.
  destruct (Prim2SF x) as [s|s| |s m e] eqn:E; try exact Hx.
  destruct (0 <=? e)%Z eqn:Le; [exact Hx|].
  apply notNegative_spec in Hx. rewrite E in Hx. destruct s; [discriminate|].
  cbn [cond_Zopp].
  assert (Hn : (0 <= (2 * Zpos m + 2 ^ (- e)) / 2 ^ (1 - e))%Z).
  { apply Z.leb_gt in Le. apply Z.div_pos; [|apply Z.pow_pos_nonneg; lia].
    assert (0 < 2 ^ (- e))%Z by (apply Z.pow_pos_nonneg; lia). lia. }
  destruct ((2 * Zpos m + 2 ^ (- e)) / 2 ^ (1 - e))%Z as [|n|n] eqn:N; [reflexivity| |lia].
  unfold ofZ. apply SF2Prim_not_neg, binary_normalize_not_neg. lia.
Qed.

Lemma ge_not_neg (x c : float) (m : positive) (e : Z) :
  Prim2SF c = S754_finite false m e -> ge x c = true -> notNegative x.
Proof.
  intros Hc. unfold ge. rewrite notNegative_spec, leb_spec, Hc. unfold SFleb.
  destruct (Prim2SF x) as [[]|[]| |[] mx ex]; simpl; congruence.
Qed.

(** The upper end of the range is at least 20. *)
Lemma range_floor (d s : parsed) (sD sS : float) (q0 q1 : option float) :
  (forall q, q0 = Some q -> notNaN q) -> (forall q, q1 = Some q -> notNaN q) ->
  ge (quantityRange d s sD sS q0 q1) 20 = true.
Proof.
  intros H0 H1. rewrite quantityRange_fold.
  destruct (fold_max_spec _ 0 eq_refl (candidates_not_nan d s sD sS q0 q1 H0 H1))
    as (N & _).
  apply Math_max_ge_r; [exact N|reflexivity].
Qed.

Lemma setAdd_all (P : float -> Prop) (x : float) (s : list float) :
  P zero -> P x -> Forall P s -> Forall P (setAdd x s).
Proof.
  intros Pz Px Hs. unfold setAdd. destruct (existsb _ s); [exact Hs|].
  apply Forall_app. split; [exact Hs|]. constructor; [|constructor].
  destruct (is_zero x); assumption.
Qed.

Section Quantities.

Variables parsedDemand parsedSupply : parsed.
Variables bD_shifted bS_shifted stepGraph : float.
Hypothesis step_not_neg : notNegative stepGraph.

Lemma sample_not_neg (i : nat) : notNegative (minQuantityValue + ofNat i * stepGraph).
Proof.
  unfold minQuantityValue. apply add_zero_not_neg, mul_not_neg;
    [apply ofNat_not_neg|exact step_not_neg].
Qed.

Lemma sampleLoop_not_neg :
  Forall (fun q => ge q 0 = true)
    (snd (sampleLoop parsedDemand parsedSupply bD_shifted bS_shifted stepGraph)).
Proof.
  unfold sampleLoop.
  assert (H : forall l st, Forall (fun q => ge q 0 = true) (snd st) ->
            Forall (fun q => ge q 0 = true)
              (snd (fold_left
                      (sampleStep parsedDemand parsedSupply bD_shifted bS_shifted stepGraph)
                      l st))).
  { induction l as [|i l IH]; intros st Hst; [exact Hst|].
    cbn [fold_left]. apply IH. destruct st as [g t]. cbn [snd] in Hst.
    unfold sampleStep.
    match goal with
    | |- context [if ?c then _ else _] => destruct c eqn:E
    end; cbn [snd]; [|exact Hst].
    apply setAdd_all; [reflexivity| |exact Hst].
    apply ge_of_not_lt; [|reflexivity|].
    - apply Math_round_not_nan. now apply sample_tested.
    - apply Math_round_not_neg, sample_not_neg. }
  apply H. constructor.
Qed.

End Quantities.

(** X11.  No quantity of a run is below zero: not the quantity of any sample of
    the chart (which is NaN or at least zero), and not the quantity of any
    row of the table (which is a number and at least zero). *)
Theorem quantities_never_negative
  (errorState : string) (demandEq supplyEq : string) (demandShift supplyShift : float) :
  let r := calculateEquilibrium errorState demandEq supplyEq demandShift supplyShift in
  Forall (fun pt => (g_quantity pt <? 0) = false) (graphDataPoints r)
  /\ Forall (fun q => ge q 0 = true) (sortedTableQuantities r).
Proof.
  intros r.
  pose proof (run_range errorState demandEq supplyEq demandShift supplyShift) as HR.
  pose proof (run_graph errorState demandEq supplyEq demandShift supplyShift) as HG.
  destruct (run_table errorState demandEq supplyEq demandShift supplyShift) as [HS _].
  destruct (run_valid_pairs errorState demandEq supplyEq demandShift supplyShift) as [V0 V1].
  cbv zeta in HR, HG, HS. fold r in HR, HG, HS, V0, V1.
  assert (Q0 : forall q, localQEInitial r = Some q -> isNaN q = false /\ ge q 0 = true).
  { intros q Hq. rewrite Hq in V0. destruct (localPEInitial r); simpl in V0; tauto. }
  assert (Q1 : forall q, localQEShifted r = Some q -> isNaN q = false /\ ge q 0 = true).
  { intros q Hq. rewrite Hq in V1. destruct (localPEShifted r); simpl in V1; tauto. }
  assert (Hstep : notNegative ((maxQuantityValue r - minQuantityValue) / ofNat numPointsGraph)).
  { eapply div_not_neg; [reflexivity|]. unfold minQuantityValue.
    apply sub_zero_not_neg. eapply (ge_not_neg _ 20); [reflexivity|].
    rewrite HR. apply range_floor; intros q Hq; [apply (Q0 q Hq)|apply (Q1 q Hq)]. }
  split.
  - rewrite HG, sampleLoop_points. apply Forall_forall. intros pt Hpt.
    apply in_map_iff in Hpt. destruct Hpt as (i & <- & _). cbn [samplePoint g_quantity].
    now apply sample_not_neg.
  - rewrite HS. eapply Permutation_Forall; [apply sortBy_perm|].
    assert (A : forall (o : option float) (l : list float),
              (forall q, o = Some q -> isNaN q = false /\ ge q 0 = true) ->
              Forall (fun q => ge q 0 = true) l ->
              Forall (fun q => ge q 0 = true) (addQuantity o l)).
    { intros [q|] l Ho Hl; [|exact Hl]. cbn [addQuantity].
      apply setAdd_all; [reflexivity|apply (Ho q eq_refl)|exact Hl]. }
    apply A; [exact Q1|]. apply A; [exact Q0|].
    now apply sampleLoop_not_neg.
Qed.

(** * The quantity column of the table *)

(** ** Digits *)

Lemma allDigits_append (a b : string) : allDigits (a ++ b) = allDigits a && allDigits b.
Proof. rewrite !allDigits_allChars. apply allChars_append. Qed.

Lemma zeros_digits (n : nat) : allDigits (zeros n) = true /\ String.length (zeros n) = n.
Proof. induction n as [|n [IH1 IH2]]; simpl; [split; reflexivity|]. now rewrite IH1, IH2. Qed.

Lemma allDigits_substring (s : string) : forall n m : nat,
  allDigits s = true -> allDigits (substring n m s) = true.
Proof.
  induction s as [|c s IH]; intros n m H.
  - destruct n, m; reflexivity.
  - cbn [allDigits] in H. apply andb_prop in H. destruct H as [Hc Hs].
    destruct n as [|n]; [destruct m as [|m]|]; cbn [substring allDigits].
    + reflexivity.
    + now rewrite Hc, (IH 0%nat m Hs).
    + now apply IH.
Qed.

Lemma length_substring (s : string) : forall n m : nat,
  (n + m <= String.length s)%nat -> String.length (substring n m s) = m.
Proof.
  induction s as [|c s IH]; intros n m H; cbn [String.length] in H.
  - assert (n = 0%nat) by lia. assert (m = 0%nat) by lia. subst. reflexivity.
  - destruct n as [|n]; [destruct m as [|m]|]; cbn [substring String.length].
    + reflexivity.
    + rewrite (IH 0%nat m); [reflexivity|lia].
    + apply IH. lia.
Qed.

Lemma uint_digits (d : Decimal.uint) : allDigits (NilEmpty.string_of_uint d) = true.
Proof. induction d; simpl; auto. Qed.

(** The decimal digits of an integer: digits only, and at least one. *)
Lemma decimal_digits (n : Z) : allDigits (decimal n) = true /\ decimal n <> "".
Proof.
  unfold decimal, NilZero.string_of_uint.
  destruct (N.to_uint (Z.to_N n)) eqn:E; simpl;
    try (split; [try apply uint_digits; reflexivity|discriminate]).
Qed.

Lemma digit_not_minus (c : ascii) : isDigit c = true -> Ascii.eqb c "-" = false.
Proof.
  destruct c as [b0 b1 b2 b3 b4 b5 b6 b7].
  destruct b0, b1, b2, b3, b4, b5, b6, b7; intros H; try discriminate H; reflexivity.
Qed.

Lemma digitsThen_append (tail : string -> bool) (int rest : string) :
  allDigits int = true -> int <> "" -> tail rest = true ->
  digitsThen tail (int ++ rest) = true.
Proof.
  intros Hd Hne Ht. induction int as [|c int IH]; [now contradiction Hne|].
  cbn [allDigits] in Hd. apply andb_prop in Hd. destruct Hd as [Hc Hd].
  cbn [append digitsThen]. rewrite Hc. cbn [andb].
  destruct int as [|c' int]; [cbn [append]; now rewrite Ht|].
  rewrite IH; [apply orb_true_r|exact Hd|discriminate].
Qed.

(** With or without a minus sign in front. *)
Lemma signed_form (neg : bool) (f : nat) (s : string) :
  digitsThen (fraction f) s = true ->
  fixedForm f ((if neg then "-" else "") ++ s) = true.
Proof.
  intros H. unfold fixedForm. destruct neg; cbn [append unsigned Ascii.eqb Bool.eqb].
  - exact H.
  - destruct s as [|c s]; [discriminate H|]. cbn [unsigned].
    cbn [digitsThen] in H. apply andb_prop in H. destruct H as [Hc H'].
    rewrite (digit_not_minus c Hc). cbn [digitsThen]. now rewrite Hc, H'.
Qed.

(** The digits of an integer with the point before the last [f] of them. *)
Lemma fixedDigits_form (n : Z) (f : nat) : digitsThen (fraction f) (fixedDigits n f) = true.
Proof.
  destruct (decimal_digits n) as [Hd Hne]. unfold fixedDigits.
  destruct f as [|f].
  - rewrite <- (append_nil_r (decimal n)). apply digitsThen_append; auto.
  - set (m := if (String.length (decimal n) <=? S f)%nat
              then zeros (S f + 1 - String.length (decimal n)) ++ decimal n
              else decimal n).
    assert (Hm : allDigits m = true /\ (S f + 1 <= String.length m)%nat).
    { unfold m. destruct (String.length (decimal n) <=? S f)%nat eqn:E.
      - apply Nat.leb_le in E.
        destruct (zeros_digits (S f + 1 - String.length (decimal n))) as [Z1 Z2].
        rewrite allDigits_append, length_append, Z1, Z2, Hd. split; [reflexivity|lia].
      - apply Nat.leb_gt in E. split; [exact Hd|lia]. }
    destruct Hm as [Hm1 Hm2].
    apply digitsThen_append.
    + now apply allDigits_substring.
    + intros E. apply (f_equal String.length) in E.
      rewrite length_substring in E by lia. cbn [String.length] in E. lia.
    + cbn [append fraction Ascii.eqb Bool.eqb andb].
      rewrite allDigits_substring by exact Hm1.
      rewrite length_substring by lia. cbn [andb]. apply Nat.eqb_refl.
Qed.

(** ** Numbers below 1e21 *)

(** [1e21] is [7629394531250000 * 2^17]. *)
Lemma limit_spec : Prim2SF fixedLimit = S754_finite false 7629394531250000 17.
Proof. vm_compute. reflexivity. Qed.

(** The order of two positive finite values, by exponent and then by
    mantissa. *)
Lemma SFltb_finite (m M : positive) (e E : Z) :
  SFltb (S754_finite false m e) (S754_finite false M E) = true ->
  (e < E)%Z \/ (e = E /\ (Zpos m < Zpos M)%Z).
Proof.
  unfold SFltb. cbn [SFcompare]. intros H.
  destruct (Z.compare_spec e E) as [C | C | C]; try discriminate H.
  - right. split; [exact C|]. rewrite Pos.compare_cont_spec in H. unfold Pos.switch_Eq in H.
    destruct (Pos.compare_spec m M) as [? | L | ?]; try discriminate H.
    now apply Pos2Z.pos_lt_pos.
  - now left.
Qed.

Lemma lt_limit (m : positive) (e : Z) :
  SFltb (S754_finite false m e) (Prim2SF fixedLimit) = true ->
  (e < 17)%Z \/ (e = 17%Z /\ (Zpos m < 7629394531250000)%Z).
Proof. rewrite limit_spec. apply SFltb_finite. Qed.

(** A finite value with a non-negative exponent has a mantissa of 53 bits. *)
Lemma digits_53 (s : bool) (m : positive) (e : Z) :
  valid_binary (S754_finite s m e) = true -> (0 <= e)%Z -> (Zpos m < 9007199254740992)%Z.
Proof.
  intros V He.
  destruct (SpecFacts.valid_finite s m e V) as [C _].
  assert (D : (Zpos (digits2_pos m) = 53)%Z).
  { unfold fexp, SpecFloat.emin, prec, emax in C. lia. }
  pose proof (OrderFacts.digits2_pos_upper m) as U. rewrite D in U.
  assert (T53 : (2 ^ 53 = 9007199254740992)%Z) by (vm_compute; reflexivity).
  now rewrite T53 in U.
Qed.

Lemma limit_mantissa (m : Z) : (m < 7629394531250000 -> m * 2 ^ 17 < 10 ^ 21)%Z.
Proof.
  intros L.
  assert (T : (10 ^ 21 = 1000000000000000000000)%Z) by (vm_compute; reflexivity).
  assert (T17 : (2 ^ 17 = 131072)%Z) by (vm_compute; reflexivity). rewrite T, T17. lia.
Qed.

Lemma limit_exponent (m e : Z) : (0 <= e < 17 -> 0 < m < 9007199254740992 -> m * 2 ^ e < 10 ^ 21)%Z.
Proof.
  intros He U.
  assert (T : (10 ^ 21 = 1000000000000000000000)%Z) by (vm_compute; reflexivity).
  assert (P : (2 ^ e <= 2 ^ 16)%Z) by (apply Z.pow_le_mono_r; lia).
  assert (P0 : (0 < 2 ^ e)%Z) by (apply Z.pow_pos_nonneg; lia).
  assert (T16 : (2 ^ 16 = 65536)%Z) by (vm_compute; reflexivity). rewrite T16 in P.
  rewrite T. clear T T16. set (p := (2 ^ e)%Z) in *.
  apply Z.lt_le_trans with (9007199254740992 * p)%Z; [|lia].
  apply Z.mul_lt_mono_pos_r; lia.
Qed.

Lemma below_limit (s : bool) (m : positive) (e : Z) :
  valid_binary (S754_finite s m e) = true ->
  SFltb (S754_finite false m e) (Prim2SF fixedLimit) = true ->
  (0 <= e)%Z -> (10 ^ 21 <=? Zpos m * 2 ^ e)%Z = false.
Proof.
  intros V H He. apply Z.leb_gt.
  pose proof (digits_53 s m e V He) as U.
  destruct (lt_limit m e H) as [L | [-> L]].
  - apply limit_exponent; lia.
  - now apply limit_mantissa.
Qed.

(** [toFixed] of a number below [1e21] in absolute value has the fixed
    form: digits, and [f] of them after a point when [f] is not 0. *)
Lemma toFixed_form (x : float) (f : nat) :
  (Math_abs x <? fixedLimit) = true -> fixedForm f (toFixed x f) = true.
Proof.
  unfold Math_abs. rewrite ltb_spec, abs_spec. intros H. unfold toFixed.
  pose proof (Prim2SF_valid x) as V.
  destruct (Prim2SF x) as [s|s| |s m e]; cbn [SFabs] in H.
  - apply (signed_form false), fixedDigits_form.
  - discriminate H.
  - discriminate H.
  - cbv zeta. destruct (0 <=? e)%Z eqn:E.
    + apply Z.leb_le in E. rewrite (below_limit s m e V H E).
      apply signed_form, fixedDigits_form.
    + apply signed_form, fixedDigits_form.
Qed.

(** Numbers that are [===] have the same absolute value. *)
Lemma abs_strictEq (a b : float) :
  strictEq a b = true -> Prim2SF (abs a) = Prim2SF (abs b).
Proof.
  unfold strictEq. rewrite eqb_spec, !abs_spec. unfold SFeqb.
  destruct (Prim2SF a) as [s|s| |s m e], (Prim2SF b) as [s'|s'| |s' m' e'];
    simpl; try discriminate; try reflexivity;
    try (destruct s, s'; discriminate).
  destruct s, s'; try discriminate.
  - destruct (Z.compare_spec e e'); try discriminate.
    change (Pos.compare_cont Eq m m') with (Pos.compare m m').
    destruct (Pos.compare_spec m m'); try discriminate. intros _. congruence.
  - destruct (Z.compare_spec e e'); try discriminate.
    change (Pos.compare_cont Eq m m') with (Pos.compare m m').
    destruct (Pos.compare_spec m m'); try discriminate. intros _. congruence.
Qed.

Lemma below_limit_finite (x : float) :
  (Math_abs x <? fixedLimit) = true -> isFinite x = true.
Proof.
  unfold Math_abs, isFinite. rewrite ltb_spec, abs_spec.
  destruct (Prim2SF x); simpl; intros H; try reflexivity; discriminate H.
Qed.

(** ** C9 *)

(** An equilibrium of [1e22] has its row, and the row reads [1e+22]; the
    row of [1.32e21], which is no equilibrium, reads [1.32e+21]; an infinite
    equilibrium has its row, which reads [Infinity].  None of them is a
    number with two decimals or an integer. *)
Lemma large_quantity_rows :
  (let r := calculateEquilibrium "" "-P+20000000000000000000000" "P" 0 0 in
   localQEInitial r = Some 1e22
   /\ nth_error (sortedTableQuantities r) 23 = Some 1e22
   /\ option_map t_quantity (nth_error (tableDataPoints r) 23) = Some "1e+22"
   /\ fixedForm 2 "1e+22" = false
   /\ nth_error (sortedTableQuantities r) 3 = Some 1.32e21
   /\ option_map t_quantity (nth_error (tableDataPoints r) 3) = Some "1.32e+21"
   /\ fixedForm 0 "1.32e+21" = false)
  /\ (let r := calculateEquilibrium "" "0.5P+1" "P" (parseFloat "1e308") 0 in
      localQEShifted r = Some infinity
      /\ sortedTableQuantities r = [2; infinity]
      /\ map t_quantity (tableDataPoints r) = ["2.00"; "Infinity"]
      /\ fixedForm 2 "Infinity" = false /\ fixedForm 0 "Infinity" = false).
Proof. vm_compute. repeat split; reflexivity. Qed.

(** C9, amended.  Every equilibrium quantity that the run reports is one of
    the sorted table quantities, at its own value and not rounded; the table
    has one row per quantity, in that order; a row shows its quantity by
    [toFixed(2)] when it is within 0.01 of an equilibrium quantity, which the
    row of a finite equilibrium quantity is, and by [toFixed(0)] otherwise.
    For a quantity below [1e21] in absolute value the first is a number with
    exactly two decimals and the second an integer without a point. *)
Theorem equilibrium_rows
  (errorState : string) (demandEq supplyEq : string) (demandShift supplyShift : float) :
  let d := parseEquation demandEq in
  let s := parseEquation supplyEq in
  let bD' := intercept d + currentShift demandShift in
  let bS' := intercept s + currentShift supplyShift in
  let r := calculateEquilibrium errorState demandEq supplyEq demandShift supplyShift in
  let row := tableRowOf d s bD' bS' (localQEInitial r) (localQEShifted r) in
  let near := fun q => nearQuantity (localQEInitial r) q || nearQuantity (localQEShifted r) q in
  (forall qe, localQEInitial r = Some qe \/ localQEShifted r = Some qe ->
     exists q, In q (sortedTableQuantities r) /\ strictEq qe q = true
               /\ (isFinite qe = true -> t_quantity (row q) = toFixed q 2)
               /\ ((Math_abs qe <? fixedLimit) = true ->
                   fixedForm 2 (t_quantity (row q)) = true))
  /\ tableDataPoints r = map row (sortedTableQuantities r)
  /\ (forall q, t_quantity (row q) = if near q then toFixed q 2 else toFixed q 0)
  /\ (forall q, (Math_abs q <? fixedLimit) = true ->
        fixedForm (if near q then 2 else 0) (t_quantity (row q)) = true).
Proof.
  intros d s bD' bS' r row near.
  destruct (run_table errorState demandEq supplyEq demandShift supplyShift) as [HS HT].
  fold r d s bD' bS' in HS, HT. fold row in HT.
  destruct (run_valid_pairs errorState demandEq supplyEq demandShift supplyShift) as [V0 V1].
  fold r in V0, V1.
  assert (Form : forall q, (Math_abs q <? fixedLimit) = true ->
                   fixedForm (if near q then 2 else 0) (t_quantity (row q)) = true).
  { intros q Hq. unfold row, tableRowOf. cbn [t_quantity]. fold (near q).
    destruct (near q); now apply toFixed_form. }
  split; [|split; [exact HT|split; [reflexivity|exact Form]]].
  intros qe Hqe.
  assert (Hin : exists q, In q (sortedTableQuantities r) /\ strictEq qe q = true).
  { rewrite HS. destruct Hqe as [H | H].
    - assert (N : isNaN qe = false)
        by (rewrite H in V0; destruct (localPEInitial r); simpl in V0; tauto).
      rewrite H. cbn [addQuantity].
      match goal with
      | |- context [setAdd qe ?t] => destruct (setAdd_holds qe t N) as (q & Hq & He)
      end.
      exists q. split; [|exact He]. apply sortBy_in. apply addQuantity_keeps. exact Hq.
    - assert (N : isNaN qe = false)
        by (rewrite H in V1; destruct (localPEShifted r); simpl in V1; tauto).
      rewrite H. cbn [addQuantity].
      match goal with
      | |- context [setAdd qe ?t] => destruct (setAdd_holds qe t N) as (q & Hq & He)
      end.
      exists q. split; [|exact He]. apply sortBy_in. exact Hq. }
  destruct Hin as (q & Hq & He). exists q. split; [exact Hq|]. split; [exact He|].
  assert (Near : isFinite qe = true -> near q = true).
  { intros Hf. pose proof (nearQuantity_equal qe q Hf He) as Hn. unfold near.
    destruct Hqe as [H | H]; rewrite H, Hn; [reflexivity|apply orb_true_r]. }
  split.
  - intros Hf. unfold row, tableRowOf. cbn [t_quantity]. fold (near q).
    now rewrite (Near Hf).
  - intros Hl. pose proof (Near (below_limit_finite qe Hl)) as Hn.
    assert (Hl' : (Math_abs q <? fixedLimit) = true).
    { unfold Math_abs in *. rewrite ltb_spec in *. now rewrite <- (abs_strictEq qe q He). }
    pose proof (Form q Hl') as F. now rewrite Hn in F.
Qed.

Lemma equilibrium_rows_default :
  let r := calculateEquilibrium "" "-3P+10" "P" 0 0 in
  localQEInitial r = Some 2.5
  /\ In 2.5 (sortedTableQuantities r)
  /\ map t_quantity (tableDataPoints r)
     = ["0"; "2"; "2.50"; "4"; "6"; "8"; "10"; "12"; "14"; "16"; "18"; "20"]
  /\ fixedForm 2 "2.50" = true /\ fixedForm 0 "20" = true.
Proof.
  pose proof (equilibrium_rows "" "-3P+10" "P" 0 0) as H. cbv zeta in H.
  destruct H as (_ & H2 & _ & H4).
  split; [reflexivity|]. split; [vm_compute; tauto|]. split; [rewrite H2; vm_compute; reflexivity|].
  split; [exact (H4 2.5 eq_refl)|exact (H4 20 eq_refl)].
Defined.
